(** * Cerebr: the streaming chat-completion adapter ([src/services/chat.js])

    A shallow embedding of [detectApiFormat], [convertToGeminiFormat],
    [convertToClaudeFormat], the message preparation of [callAPI] and the
    read loop of [processStream], followed by the properties the
    specification states about them.

    Modelling conventions.
    - A JavaScript string is a Rocq [string]; its characters are the code
      units 0..255.  [toLowerCase] and the white space test follow
      ECMAScript on that range.
    - [undefined] is [None]; a value that is a string or absent is an
      [option string].
    - What the browser or another module of the repository provides
      ([JSON.parse], [JSON.stringify], [new URL], the clock, the
      localisation table [t], [normalizeChatCompletionsUrl]) is a field
      of the record [Host].
    - The promise returned by [processStream] is an [Outcome]; what the
      environment feeds to the awaits of the function (the fetch result,
      the reads of the body, a timer that fires) is explicit input.
    - A read hands over bytes and a fresh [TextDecoder] makes a text of
      them, read by read; the event [Read (Chunk text)] carries that
      text, and [readValue] makes the event from the bytes for a given
      decoder. *)

From Stdlib Require Import Bool Arith List ZArith Lia Ascii String.
From Stdlib Require Import DecimalString.
Import ListNotations.
Set Warnings "-register-all".
Local Open Scope string_scope.
Local Open Scope list_scope.

(* ================================================================== *)
(** * JavaScript string primitives *)
(* ================================================================== *)

Module Js.

(** [String.prototype.toLowerCase] on one code unit: A-Z and the
    Latin-1 capitals (U+00C0..U+00DE without the multiplication sign). *)
Definition lowerChar (c : ascii) : ascii :=
  let n := nat_of_ascii c in
  if (Nat.leb 65 n && Nat.leb n 90)
     || (Nat.leb 192 n && Nat.leb n 222 && negb (Nat.eqb n 215))
  then ascii_of_nat (n + 32)
  else c.

Fixpoint toLowerCase (s : string) : string :=
  match s with
  | EmptyString => EmptyString
  | String c s' => String (lowerChar c) (toLowerCase s')
  end.

(** ECMAScript WhiteSpace and LineTerminator code points below 256:
    TAB, LF, VT, FF, CR, SP and NBSP. *)
Definition isWhiteSpace (c : ascii) : bool :=
  let n := nat_of_ascii c in
  (Nat.leb 9 n && Nat.leb n 13) || Nat.eqb n 32 || Nat.eqb n 160.

Fixpoint trimStart (s : string) : string :=
  match s with
  | EmptyString => EmptyString
  | String c s' => if isWhiteSpace c then trimStart s' else s
  end.

(** [trimEnd], written so that it is structural: a character is kept
    when it is not white space or when something survives after it. *)
Fixpoint trimEnd (s : string) : string :=
  match s with
  | EmptyString => EmptyString
  | String c s' =>
      match trimEnd s' with
      | EmptyString => if isWhiteSpace c then EmptyString else String c EmptyString
      | r => String c r
      end
  end.

Definition trim (s : string) : string := trimEnd (trimStart s).

(** [s.startsWith(p)] *)
Definition startsWith (s p : string) : bool := prefix p s.

(** [s.includes(sub)] *)
Fixpoint includes (s sub : string) : bool :=
  startsWith s sub ||
  match s with
  | EmptyString => false
  | String _ s' => includes s' sub
  end.

(** Truthiness of a string: the empty string is falsy. *)
Definition truthy (s : string) : bool :=
  match s with EmptyString => false | _ => true end.

Definition truthyOpt (o : option string) : bool :=
  match o with Some s => truthy s | None => false end.

(** The line feed, ['\n']. *)
Definition LF : ascii := ascii_of_nat 10.
Definition nl : string := String LF EmptyString.

(** [s.indexOf(c)], [None] for -1. *)
Fixpoint indexOf (s : string) (c : ascii) : option nat :=
  match s with
  | EmptyString => None
  | String d s' =>
      if Ascii.eqb d c then Some 0
      else match indexOf s' c with Some i => Some (S i) | None => None end
  end.

(** [s.slice(b, e)] and [s.slice(b)] for indices within the string. *)
Definition slice (s : string) (b e : nat) : string := substring b (e - b) s.
Definition sliceFrom (s : string) (b : nat) : string :=
  substring b (String.length s - b) s.

(** [s.split(c)] for a one-character separator: every occurrence cuts. *)
Fixpoint split (c : ascii) (s : string) : list string :=
  match s with
  | EmptyString => [EmptyString]
  | String d s' =>
      if Ascii.eqb d c then EmptyString :: split c s'
      else match split c s' with
           | seg :: segs => String d seg :: segs
           | [] => [String d EmptyString]
           end
  end.

(** [xs.join(sep)] *)
Fixpoint join (sep : string) (xs : list string) : string :=
  match xs with
  | [] => EmptyString
  | [x] => x
  | x :: rest => x ++ sep ++ join sep rest
  end.

End Js.

(* ================================================================== *)
(** * Provider profile resolver: [detectApiFormat] *)
(* ================================================================== *)

Definition knownFormats : list string := ["openai"; "gemini"; "claude"].

(** [['openai','gemini','claude'].includes(x)] *)
Definition isKnownFormat (x : string) : bool :=
  existsb (String.eqb x) knownFormats.

(** The guard of the first [if]: [explicitFormat && [...].includes(explicitFormat)]. *)
Definition explicitIsKnown (explicitFormat : option string) : bool :=
  match explicitFormat with
  | Some f => Js.truthy f && isKnownFormat f
  | None => false
  end.

Definition detectApiFormat (baseUrl : string) (explicitFormat : option string) : string :=
  match explicitFormat, explicitIsKnown explicitFormat with
  | Some f, true => f
  | _, _ =>
      let url := Js.toLowerCase baseUrl in
      if Js.includes url "generativelanguage.googleapis.com"
         || Js.includes url "aiplatform.googleapis.com"
         || Js.includes url "gemini"
      then "gemini"
      else if Js.includes url "anthropic.com"
              || Js.includes url "claude"
              || Js.includes url "api.anthropic"
      then "claude"
      else "openai"
  end.

(* ================================================================== *)
(** * Values and messages *)
(* ================================================================== *)

(** A value produced by [JSON.parse].  A number is kept as its literal;
    what JavaScript makes of it (truthiness, string form) is the host's. *)
Inductive json : Type :=
| JNull
| JBool (b : bool)
| JNum (literal : string)
| JStr (s : string)
| JArr (elems : list json)
| JObj (fields : list (string * json)).

(** [{url: string}] of an image item; [url] may be missing. *)
Record ImageUrl : Type := { url : option string }.

(** One element of an array content:
    [{type: string, text?: string, image_url?: {url: string}}]. *)
Record Item : Type := {
  item_type : string;
  item_text : option string;
  item_image_url : option ImageUrl
}.

(** [Message.content]: a string, an array of items, or anything else. *)
Inductive Content : Type :=
| ContentString (s : string)
| ContentArray (items : list Item)
| ContentOther (j : json).

Record Message : Type := { role : string; content : Content }.

(** What the platform and the other modules of the repository provide. *)
Record Host : Type := {
  (** [JSON.parse]; [None] when it throws a SyntaxError. *)
  JSON_parse : string -> option json;
  (** [JSON.stringify] of a content that is not a string. *)
  JSON_stringify : Content -> string;
  (** ToBoolean of a number, by its literal. *)
  numberTruthy : string -> bool;
  (** ToString of a value that is not a string, as [+=] applies it. *)
  ToString : json -> string;
  (** [Date.now()]: the reading of the clock at its k-th call. *)
  Date_now : nat -> Z;
  (** [t] of utils/i18n.js. *)
  t : string -> string;
  (** [normalizeChatCompletionsUrl] of utils/api-url.js. *)
  normalizeChatCompletionsUrl : option string -> option string;
  (** Whether [new URL(s)] returns; it throws a TypeError for a text
      that is not an absolute URL. *)
  URL_canParse : string -> bool;
  (** [urlObj.toString()] for [urlObj = new URL(s)] after
      [urlObj.searchParams.set(k, v)] for each pair in turn. *)
  URL_withParams : string -> list (string * string) -> string
}.

(* ================================================================== *)
(** * Message translators *)
(* ================================================================== *)

(** The longest run of characters other than [;] at the head of [s]:
    the capture [([^;]+)]. *)
Fixpoint takeNotSemicolon (s : string) : string :=
  match s with
  | EmptyString => EmptyString
  | String c s' =>
      if Ascii.eqb c ";"%char then EmptyString
      else String c (takeNotSemicolon s')
  end.

(** [header.match(/data:([^;]+)/)?.[1]]: the capture of the leftmost
    match, [None] when the pattern matches nowhere. *)
Fixpoint matchDataMime (header : string) : option string :=
  if Js.startsWith header "data:"
     && Js.truthy (takeNotSemicolon (Js.sliceFrom header 5))
  then Some (takeNotSemicolon (Js.sliceFrom header 5))
  else match header with
       | EmptyString => None
       | String _ rest => matchDataMime rest
       end.

(** [header.match(/data:([^;]+)/)?.[1] || 'image/png'] *)
Definition mimeOfHeader (header : string) : string :=
  match matchDataMime header with
  | Some m => m
  | None => "image/png"
  end.

(** [const [header, base64] = dataUrl.split(',')] *)
Definition splitDataUrl (dataUrl : string) : string * option string :=
  let segs := Js.split ","%char dataUrl in
  (nth 0 segs EmptyString, nth_error segs 1).

(** [item.image_url?.url] *)
Definition itemUrl (item : Item) : option string :=
  match item_image_url item with
  | Some iu => url iu
  | None => None
  end.

Module Gemini.

Inductive Part : Type :=
| Text (text : option string)
| InlineData (mime_type : string) (data : option string).

Record Turn : Type := { role : string; parts : list Part }.

Record SystemInstruction : Type := { si_parts : list Part }.

Record Result : Type := {
  contents : list Turn;
  systemInstruction : option SystemInstruction
}.

End Gemini.

(** The body of the loop over the items of an array content (Gemini):
    the parts one item pushes. *)
Definition geminiItemParts (item : Item) : list Gemini.Part :=
  if String.eqb (item_type item) "text" then
    [Gemini.Text (item_text item)]
  else if String.eqb (item_type item) "image_url" && Js.truthyOpt (itemUrl item) then
    match itemUrl item with
    | Some dataUrl =>
        if Js.startsWith dataUrl "data:" then
          let '(header, base64) := splitDataUrl dataUrl in
          [Gemini.InlineData (mimeOfHeader header) base64]
        else []
    | None => []
    end
  else [].

(** [parts] of one message that is not a system message. *)
Definition geminiParts (c : Content) : list Gemini.Part :=
  match c with
  | ContentString s => [Gemini.Text (Some s)]
  | ContentArray items =>
      fold_left (fun parts item => parts ++ geminiItemParts item) items []
  | ContentOther _ => []
  end.

(** [typeof msg.content === 'string' ? msg.content : JSON.stringify(msg.content)] *)
Definition systemText (h : Host) (c : Content) : string :=
  match c with
  | ContentString s => s
  | _ => JSON_stringify h c
  end.

(** One iteration of [for (const msg of messages)] in
    [convertToGeminiFormat], on the pair (contents, systemInstruction). *)
Definition geminiStep (h : Host) (acc : Gemini.Result) (msg : Message) : Gemini.Result :=
  if String.eqb (role msg) "system" then
    {| Gemini.contents := Gemini.contents acc;
       Gemini.systemInstruction :=
         Some {| Gemini.si_parts := [Gemini.Text (Some (systemText h (content msg)))] |} |}
  else
    let role := if String.eqb (role msg) "assistant" then "model" else "user" in
    let parts := geminiParts (content msg) in
    if Nat.ltb 0 (List.length parts) then
      {| Gemini.contents := Gemini.contents acc ++ [ {| Gemini.role := role; Gemini.parts := parts |} ];
         Gemini.systemInstruction := Gemini.systemInstruction acc |}
    else acc.

Definition convertToGeminiFormat (h : Host) (messages : list Message) : Gemini.Result :=
  fold_left (geminiStep h) messages
    {| Gemini.contents := []; Gemini.systemInstruction := None |}.

Module Claude.

Inductive Part : Type :=
| Text (text : option string)
| Image (media_type : string) (data : option string).

Record Msg : Type := { role : string; content : list Part }.

Record Result : Type := { messages : list Msg; system : string }.

End Claude.

(** The body of the loop over the items of an array content (Claude). *)
Definition claudeItemParts (item : Item) : list Claude.Part :=
  if String.eqb (item_type item) "text" then
    [Claude.Text (item_text item)]
  else if String.eqb (item_type item) "image_url" && Js.truthyOpt (itemUrl item) then
    match itemUrl item with
    | Some dataUrl =>
        if Js.startsWith dataUrl "data:" then
          let '(header, base64) := splitDataUrl dataUrl in
          [Claude.Image (mimeOfHeader header) base64]
        else []
    | None => []
    end
  else [].

Definition claudeParts (c : Content) : list Claude.Part :=
  match c with
  | ContentString s => [Claude.Text (Some s)]
  | ContentArray items =>
      fold_left (fun parts item => parts ++ claudeItemParts item) items []
  | ContentOther _ => []
  end.

(** One iteration of [for (const msg of messages)] in
    [convertToClaudeFormat], on the pair (claudeMessages, system). *)
Definition claudeStep (h : Host) (acc : Claude.Result) (msg : Message) : Claude.Result :=
  if String.eqb (role msg) "system" then
    {| Claude.messages := Claude.messages acc;
       Claude.system :=
         Claude.system acc
         ++ (if Js.truthy (Claude.system acc) then Js.nl ++ Js.nl else EmptyString)
         ++ systemText h (content msg) |}
  else
    let parts := claudeParts (content msg) in
    if Nat.ltb 0 (List.length parts) then
      {| Claude.messages := Claude.messages acc ++ [ {| Claude.role := role msg; Claude.content := parts |} ];
         Claude.system := Claude.system acc |}
    else acc.

Definition convertToClaudeFormat (h : Host) (messages : list Message) : Claude.Result :=
  fold_left (claudeStep h) messages
    {| Claude.messages := []; Claude.system := EmptyString |}.

(* ================================================================== *)
(** * [callAPI]: configuration check and message preparation *)
(* ================================================================== *)

(** An exception value: [name], [message] and the optional [code]. *)
Record JsError : Type := {
  name : string;
  message : string;
  code : option string
}.

(** [new Error(msg)] *)
Definition newError (msg : string) : JsError :=
  {| name := "Error"; message := msg; code := None |}.

Definition TypeError (msg : string) : JsError :=
  {| name := "TypeError"; message := msg; code := None |}.

Definition SyntaxError (msg : string) : JsError :=
  {| name := "SyntaxError"; message := msg; code := None |}.

Record Page : Type := {
  page_title : string;
  page_url : string;
  page_content : string;
  isCurrent : bool
}.

Record WebpageInfo : Type := { pages : option (list Page) }.

Record AdvancedSettings : Type := { systemPrompt : option string }.

Record APIConfig : Type := {
  baseUrl : option string;
  apiKey : option string;
  modelName : option string;
  apiFormat : option string;
  advancedSettings : option AdvancedSettings
}.

(** A message of the history as [callAPI] receives it: it may carry the
    fields [reasoning_content] and [updating]. *)
Record StoredMessage : Type := {
  stored_role : string;
  stored_content : Content;
  stored_reasoning_content : option string;
  stored_updating : option bool
}.

(** The pattern [/\{\{userLanguage\}\}/gm] matches this text only. *)
Definition placeholder : string := "{{userLanguage}}".

(** GetSubstitution for a pattern without capture groups: in the
    replacement text [$$] is a dollar, [$&] the matched text, [$`] what
    precedes the match and [$'] what follows it; any other [$] is
    itself. *)
Fixpoint expandReplacement (matched before after repl : string) : string :=
  match repl with
  | EmptyString => EmptyString
  | String d r =>
      if Ascii.eqb d "$"%char then
        match r with
        | String c r' =>
            if Ascii.eqb c "$"%char then
              String "$"%char (expandReplacement matched before after r')
            else if Ascii.eqb c "&"%char then
              matched ++ expandReplacement matched before after r'
            else if Ascii.eqb c "`"%char then
              before ++ expandReplacement matched before after r'
            else if Ascii.eqb c "'"%char then
              after ++ expandReplacement matched before after r'
            else String d (expandReplacement matched before after r)
        | EmptyString => String d EmptyString
        end
      else String d (expandReplacement matched before after r)
  end.

(** [s.replace(/\{\{userLanguage\}\}/gm, repl)], scanning [s] from the
    left; [before] is what has been scanned and [skip] counts the
    characters of a match still to be passed over. *)
Fixpoint replaceFrom (skip : nat) (before s repl : string) : string :=
  match s with
  | EmptyString => EmptyString
  | String c s' =>
      match skip with
      | S k => replaceFrom k (before ++ String c EmptyString) s' repl
      | O =>
          if Js.startsWith s placeholder then
            expandReplacement placeholder before
              (Js.sliceFrom s (String.length placeholder)) repl
            ++ replaceFrom (String.length placeholder - 1)
                 (before ++ String c EmptyString) s' repl
          else
            String c (replaceFrom 0 (before ++ String c EmptyString) s' repl)
      end
  end.

Definition replaceUserLanguage (systemPrompt userLanguage : string) : string :=
  replaceFrom 0 EmptyString systemPrompt userLanguage.

(** The block of one page in the system message. *)
Definition renderPage (h : Host) (page : Page) : string :=
  let prefix := if isCurrent page then t h "webpage_prefix_current"
                else t h "webpage_prefix_other" in
  let titleLabel := t h "webpage_title_label" in
  let urlLabel := t h "webpage_url_label" in
  let contentLabel := t h "webpage_content_label" in
  Js.nl ++ prefix ++ ":" ++ Js.nl
  ++ titleLabel ++ ": " ++ page_title page ++ Js.nl
  ++ urlLabel ++ ": " ++ page_url page ++ Js.nl
  ++ contentLabel ++ ": " ++ page_content page.

(** [(webpageInfo && webpageInfo.pages) ? pages.map(...).join('\n\n---\n') : ''] *)
Definition renderWebpages (h : Host) (webpageInfo : option WebpageInfo) : string :=
  match webpageInfo with
  | Some w =>
      match pages w with
      | Some ps => Js.join (Js.nl ++ Js.nl ++ "---" ++ Js.nl) (map (renderPage h) ps)
      | None => EmptyString
      end
  | None => EmptyString
  end.

(** [apiConfig.advancedSettings?.systemPrompt || ''] *)
Definition configuredPrompt (cfg : APIConfig) : string :=
  match advancedSettings cfg with
  | Some a => match systemPrompt a with Some p => p | None => EmptyString end
  | None => EmptyString
  end.

(** The [systemMessage] object of [callAPI]. *)
Definition systemMessage (h : Host) (cfg : APIConfig) (userLanguage : string)
  (webpageInfo : option WebpageInfo) : Message :=
  {| role := "system";
     content := ContentString
       (replaceUserLanguage (configuredPrompt cfg) userLanguage
        ++ renderWebpages h webpageInfo) |}.

(** [const { reasoning_content, updating, ...rest } = msg; return rest;] *)
Definition stripTransient (msg : StoredMessage) : Message :=
  {| role := stored_role msg; content := stored_content msg |}.

(** The test of the [if] that guards [processedMessages.unshift]. *)
Definition shouldPrepend (systemContent : string) (processed : list Message) : bool :=
  Js.truthy (Js.trim systemContent)
  && match processed with
     | [] => true
     | first :: _ => negb (String.eqb (role first) "system")
     end.

(** [processedMessages] after the optional [unshift]. *)
Definition prepareMessages (h : Host) (cfg : APIConfig) (userLanguage : string)
  (webpageInfo : option WebpageInfo) (messages : list StoredMessage) : list Message :=
  let sys := systemMessage h cfg userLanguage webpageInfo in
  let processed := map stripTransient messages in
  match content sys with
  | ContentString c =>
      if shouldPrepend c processed then sys :: processed else processed
  | _ => processed
  end.

(** The JSON body of the request, by format (the headers are not part
    of this model). *)
Inductive RequestBody : Type :=
| OpenAIBody (model : string) (messages : list Message)
| GeminiBody (contents : list Gemini.Turn)
    (systemInstruction : option Gemini.SystemInstruction)
| ClaudeBody (model : string) (messages : list Claude.Msg) (system : option string).

(** [options] of [callAPI]. *)
Record Options : Type := {
  detectMisfiledThinkSilently : bool;
  misfiledThinkSilentlyPrefix : option string;
  misfiledThinkSilentlyPrefixes : option (list string)
}.

(** What the caller passes to [callAPI]. *)
Record Params : Type := {
  messages : list StoredMessage;
  apiConfig : option APIConfig;
  userLanguage : string;
  webpageInfo : option WebpageInfo;
  (** [chatManager && chatId] is truthy *)
  hasSink : bool;
  options : Options
}.

(** The accumulator [currentMessage]. *)
Module Acc.
Record Msg : Type := { content : string; reasoning_content : string }.
End Acc.

(** What the code does to the outside world, in order. *)
Inductive Effect : Type :=
| NewAbortController
| Fetch
| UpdateLastMessage (snapshot : Acc.Msg)
| OnMessageUpdate (snapshot : Acc.Msg)
| SetTimeout (delay : Z)
| ClearTimeout
| ConsoleError (e : JsError)
| ReaderCancel.

(* ================================================================== *)
(** * [callAPI]: the request URL *)
(* ================================================================== *)

(** [s.endsWith(suf)] *)
Definition endsWith (s suf : string) : bool :=
  Nat.leb (String.length suf) (String.length s)
  && String.eqb (Js.sliceFrom s (String.length s - String.length suf)) suf.

(** [s] without its last [n] characters. *)
Definition dropEnd (s : string) (n : nat) : string :=
  Js.slice s 0 (String.length s - n).

(** [s.replace(/\/v1\/chat\/completions\/?$/, repl)] for a replacement
    without [$]: the pattern matches only at the end of [s], with or
    without a final slash. *)
Definition replaceCompletionsSuffix (s repl : string) : string :=
  if endsWith s "/v1/chat/completions/" then
    dropEnd s (String.length "/v1/chat/completions/") ++ repl
  else if endsWith s "/v1/chat/completions" then
    dropEnd s (String.length "/v1/chat/completions") ++ repl
  else s.

(** [s.replace(/\/?$/, '')]: one final slash is taken off. *)
Definition stripTrailingSlash (s : string) : string :=
  if endsWith s "/" then dropEnd s 1 else s.

(** The Gemini branch of [callAPI]: the text handed to [new URL]. *)
Definition geminiRequestUrl (requestUrl modelName : string) : string :=
  if negb (Js.includes requestUrl ":streamGenerateContent")
     && negb (Js.includes requestUrl ":generateContent")
  then
    let requestUrl1 := replaceCompletionsSuffix requestUrl EmptyString in
    let requestUrl2 := stripTrailingSlash requestUrl1 in
    if negb (Js.includes requestUrl2 "/models/") then
      requestUrl2 ++ "/v1beta/models/" ++ modelName ++ ":streamGenerateContent"
    else requestUrl2 ++ ":streamGenerateContent"
  else requestUrl.

(** The Claude branch of [callAPI]: [requestUrl] as it is fetched. *)
Definition claudeRequestUrl (requestUrl : string) : string :=
  if negb (Js.includes requestUrl "/messages") then
    replaceCompletionsSuffix requestUrl "/v1/messages"
  else requestUrl.

(** What [callAPI] has fixed when it returns: the closure of
    [processStream] and the controller. *)
Record Prepared : Type := {
  processedMessages : list Message;
  format : string;
  (** [requestUrl] as [fetch] gets it *)
  requestUrl : string;
  body : RequestBody;
  sink : bool;
  streamOptions : Options;
  (** the effects of [callAPI] itself, up to its [return] *)
  callEffects : list Effect
}.

Definition orDefault (o : option string) (d : string) : string :=
  match o with
  | Some s => if Js.truthy s then s else d
  | None => d
  end.

Definition requestBody (h : Host) (cfg : APIConfig) (fmt : string)
  (processed : list Message) : RequestBody :=
  if String.eqb fmt "gemini" then
    let r := convertToGeminiFormat h processed in
    GeminiBody (Gemini.contents r) (Gemini.systemInstruction r)
  else if String.eqb fmt "claude" then
    let r := convertToClaudeFormat h processed in
    ClaudeBody (orDefault (modelName cfg) "claude-3-5-sonnet-20241022")
      (Claude.messages r)
      (if Js.truthy (Claude.system r) then Some (Claude.system r) else None)
  else
    OpenAIBody (orDefault (modelName cfg) "gpt-4o") processed.

(** [callAPI] up to its [return]: the check of the configuration, the
    processed messages, the controller, and the request of the format.
    In the Gemini branch [new URL(requestUrl)] throws a TypeError for a
    text that is not an absolute URL (the wording of its message is the
    engine's); the controller made before is then out of reach of the
    caller, and nothing else has happened. *)
Definition callAPI (h : Host) (p : Params) : JsError + Prepared :=
  let baseUrl := normalizeChatCompletionsUrl h
                   (match apiConfig p with Some cfg => baseUrl cfg | None => None end) in
  match apiConfig p, baseUrl with
  | Some cfg, Some url =>
      if Js.truthy url && Js.truthyOpt (apiKey cfg) then
        let processed := prepareMessages h cfg (userLanguage p) (webpageInfo p) (messages p) in
        let fmt := detectApiFormat url (apiFormat cfg) in
        let prepared := fun fetched : string =>
          {| processedMessages := processed;
             format := fmt;
             requestUrl := fetched;
             body := requestBody h cfg fmt processed;
             sink := hasSink p;
             streamOptions := options p;
             callEffects := [NewAbortController] |} in
        if String.eqb fmt "gemini" then
          let composed :=
            geminiRequestUrl url (orDefault (modelName cfg) "gemini-1.5-flash") in
          if URL_canParse h composed then
            inr (prepared (URL_withParams h composed
                             [("key", match apiKey cfg with Some k => k | None => EmptyString end);
                              ("alt", "sse")]))
          else inl (TypeError "Invalid URL")
        else if String.eqb fmt "claude" then inr (prepared (claudeRequestUrl url))
        else inr (prepared url)
      else inl (newError (t h "error_api_config_incomplete"))
  | _, _ => inl (newError (t h "error_api_config_incomplete"))
  end.

(* ================================================================== *)
(** * [processStream]: decoding the stream *)
(* ================================================================== *)

(** A JavaScript value read out of the parsed record; [None] is
    [undefined]. *)
Definition jsval : Type := option json.

Definition nullish (v : jsval) : bool :=
  match v with
  | None | Some JNull => true
  | _ => false
  end.

(** ToBoolean *)
Definition truthyVal (h : Host) (v : jsval) : bool :=
  match v with
  | None | Some JNull => false
  | Some (JBool b) => b
  | Some (JNum l) => numberTruthy h l
  | Some (JStr s) => Js.truthy s
  | Some (JArr _) | Some (JObj _) => true
  end.

(** The own property [k] of an object built by [JSON.parse]: of two
    members with the same key the later one stays. *)
Definition lookupField (k : string) (fields : list (string * json)) : jsval :=
  fold_left (fun found kv => if String.eqb (fst kv) k then Some (snd kv) else found)
    fields None.

(** [v.k] for the property names the decoder reads ([choices], [delta],
    [content], [reasoning_content], [candidates], [parts], [text],
    [type]): only an object has them; reading a property of [null]
    throws. *)
Definition getProp (v : json) (k : string) : JsError + jsval :=
  match v with
  | JNull => inl (TypeError ("Cannot read properties of null (reading '" ++ k ++ "')"))
  | JObj fields => inr (lookupField k fields)
  | _ => inr None
  end.

(** [v?.k] *)
Definition optProp (v : jsval) (k : string) : jsval :=
  match v with
  | Some (JObj fields) => lookupField k fields
  | _ => None
  end.

(** [v?.[0]]: the first element of an array, the first character of a
    string, the member ["0"] of an object. *)
Definition optIndex0 (v : jsval) : jsval :=
  match v with
  | Some (JArr elems) => nth_error elems 0
  | Some (JStr (String c _)) => Some (JStr (String c EmptyString))
  | Some (JObj fields) => lookupField "0" fields
  | _ => None
  end.

(** [s += v] *)
Definition appendVal (h : Host) (s : string) (v : jsval) : string :=
  match v with
  | Some (JStr x) => s ++ x
  | Some j => s ++ ToString h j
  | None => s ++ "undefined"
  end.

(** The result of a piece of code that may throw: the state it leaves
    comes with the exception. *)
Inductive Res (A : Type) : Type :=
| Normal (a : A)
| Throw (e : JsError) (a : A).
Arguments Normal {A} a.
Arguments Throw {A} e a.

(** The accumulator with the flag [hasUpdate]. *)
Definition Delta : Type := (Acc.Msg * bool)%type.

(** OpenAI records: [parsed.choices?.[0]?.delta], then [content] and
    [reasoning_content]. *)
Definition applyOpenai (h : Host) (parsed : json) (m : Acc.Msg) : Res Delta :=
  match getProp parsed "choices" with
  | inl e => Throw e (m, false)
  | inr choices =>
      let delta := optProp (optIndex0 choices) "delta" in
      let c := optProp delta "content" in
      let '(m1, u1) :=
        if truthyVal h c
        then ({| Acc.content := appendVal h (Acc.content m) c;
                 Acc.reasoning_content := Acc.reasoning_content m |}, true)
        else (m, false) in
      let r := optProp delta "reasoning_content" in
      if truthyVal h r
      then Normal ({| Acc.content := Acc.content m1;
                      Acc.reasoning_content := appendVal h (Acc.reasoning_content m1) r |}, true)
      else Normal (m1, u1)
  end.

(** [for (const part of parts) if (part.text) { content += part.text; hasUpdate = true }]
    over the elements of an array. *)
Fixpoint geminiLoop (h : Host) (parts : list json) (d : Delta) : Res Delta :=
  match parts with
  | [] => Normal d
  | part :: rest =>
      match getProp part "text" with
      | inl e => Throw e d
      | inr text =>
          if truthyVal h text
          then geminiLoop h rest
                 ({| Acc.content := appendVal h (Acc.content (fst d)) text;
                     Acc.reasoning_content := Acc.reasoning_content (fst d) |}, true)
          else geminiLoop h rest d
      end
  end.

(** Gemini records: the text parts under [candidates[0].content.parts].
    A string can be iterated and its characters have no [text]; any
    other truthy value that is not an array cannot be iterated. *)
Definition applyGemini (h : Host) (parsed : json) (m : Acc.Msg) : Res Delta :=
  match getProp parsed "candidates" with
  | inl e => Throw e (m, false)
  | inr candidates =>
      let parts := optProp (optProp (optIndex0 candidates) "content") "parts" in
      if truthyVal h candidates && truthyVal h parts then
        match parts with
        | Some (JArr elems) => geminiLoop h elems (m, false)
        | Some (JStr _) => Normal (m, false)
        | _ => Throw (TypeError "parts is not iterable") (m, false)
        end
      else Normal (m, false)
  end.

(** Claude records: [content_block_delta] with [delta.text]. *)
Definition applyClaude (h : Host) (parsed : json) (m : Acc.Msg) : Res Delta :=
  match getProp parsed "type" with
  | inl e => Throw e (m, false)
  | inr ty =>
      let text := optProp (optProp (Some parsed) "delta") "text" in
      match ty with
      | Some (JStr s) =>
          if String.eqb s "content_block_delta" && truthyVal h text
          then Normal ({| Acc.content := appendVal h (Acc.content m) text;
                          Acc.reasoning_content := Acc.reasoning_content m |}, true)
          else Normal (m, false)
      | _ => Normal (m, false)
      end
  end.

(** The branch on [apiFormat] inside the [try]. *)
Definition applyRecord (h : Host) (fmt : string) (parsed : json) (m : Acc.Msg) : Res Delta :=
  if String.eqb fmt "gemini" then applyGemini h parsed m
  else if String.eqb fmt "claude" then applyClaude h parsed m
  else applyOpenai h parsed m.

(** The variables of one run of [processStream]. *)
Record State : Type := {
  buffer : string;
  currentMessage : Acc.Msg;
  lastUpdateTime : Z;
  (** the pending timer with its delay; [None] is [null] *)
  updateTimeout : option Z;
  didDispatchAnyUpdate : bool;
  (** how many times [Date.now()] has been called *)
  clock : nat;
  (** the effects so far, oldest first *)
  effects : list Effect
}.

(** What is fixed for one run: the format, whether [chatManager && chatId]
    holds, and the guard's configuration. *)
Record Run : Type := {
  run_format : string;
  run_sink : bool;
  run_detect : bool;
  run_prefixes : list string
}.

Definition UPDATE_INTERVAL : Z := 100.

Definition GUARD_CODE : string := "CEREBR_MISFILED_THINK_SILENTLY".

Definition guardError : JsError :=
  {| name := "Error";
     message := "Detected misfiled reasoning content in content field";
     code := Some GUARD_CODE |}.

(** [Array.from(new Set(xs))]: the first occurrence of each element. *)
Definition dedup (xs : list string) : list string :=
  fold_left (fun seen x => if existsb (String.eqb x) seen then seen else seen ++ [x])
    xs [].

(** [misfiledThinkSilentlyPrefixes]: the configured list when it is a
    non-empty array, else the single prefix (default [think]); each
    trimmed and lower-cased, empty ones dropped, duplicates removed. *)
Definition normalizedPrefixes (o : Options) : list string :=
  let raw :=
    match misfiledThinkSilentlyPrefixes o with
    | Some (p :: ps) => p :: ps
    | _ => [match misfiledThinkSilentlyPrefix o with Some p => p | None => "think" end]
    end in
  dedup (filter Js.truthy (map (fun p => Js.toLowerCase (Js.trim p)) raw)).

Definition runOf (p : Prepared) : Run :=
  {| run_format := format p;
     run_sink := sink p;
     run_detect := detectMisfiledThinkSilently (streamOptions p);
     run_prefixes := normalizedPrefixes (streamOptions p) |}.

Definition initialState : State :=
  {| buffer := EmptyString;
     currentMessage := {| Acc.content := EmptyString; Acc.reasoning_content := EmptyString |};
     lastUpdateTime := 0%Z;
     updateTimeout := None;
     didDispatchAnyUpdate := false;
     clock := 0;
     effects := [] |}.

(** [dispatchUpdate]: with a sink, hand a copy of the accumulator to the
    store and to the UI and record the time; then clear a pending timer. *)
Definition dispatchUpdate (h : Host) (r : Run) (st : State) : State :=
  let st1 :=
    if run_sink r then
      {| buffer := buffer st;
         currentMessage := currentMessage st;
         lastUpdateTime := Date_now h (clock st);
         updateTimeout := updateTimeout st;
         didDispatchAnyUpdate := true;
         clock := S (clock st);
         effects := effects st ++ [UpdateLastMessage (currentMessage st);
                                   OnMessageUpdate (currentMessage st)] |}
    else st in
  match updateTimeout st1 with
  | Some _ =>
      {| buffer := buffer st1;
         currentMessage := currentMessage st1;
         lastUpdateTime := lastUpdateTime st1;
         updateTimeout := None;
         didDispatchAnyUpdate := didDispatchAnyUpdate st1;
         clock := clock st1;
         effects := effects st1 ++ [ClearTimeout] |}
  | None => st1
  end.

(** [if (!updateTimeout) { ... }]: flush now when more than the interval
    has passed since the last flush, else arm the timer for the rest of
    the interval. *)
Definition scheduleUpdate (h : Host) (r : Run) (st : State) : State :=
  match updateTimeout st with
  | Some _ => st
  | None =>
      let now := Date_now h (clock st) in
      let st1 :=
        {| buffer := buffer st; currentMessage := currentMessage st;
           lastUpdateTime := lastUpdateTime st; updateTimeout := updateTimeout st;
           didDispatchAnyUpdate := didDispatchAnyUpdate st;
           clock := S (clock st); effects := effects st |} in
      if Z.gtb (now - lastUpdateTime st) UPDATE_INTERVAL then dispatchUpdate h r st1
      else
        let delay := (UPDATE_INTERVAL - (Date_now h (clock st1) - lastUpdateTime st))%Z in
        {| buffer := buffer st; currentMessage := currentMessage st;
           lastUpdateTime := lastUpdateTime st; updateTimeout := Some delay;
           didDispatchAnyUpdate := didDispatchAnyUpdate st;
           clock := S (clock st1); effects := effects st ++ [SetTimeout delay] |}
  end.

Definition withMessage (st : State) (m : Acc.Msg) : State :=
  {| buffer := buffer st; currentMessage := m;
     lastUpdateTime := lastUpdateTime st; updateTimeout := updateTimeout st;
     didDispatchAnyUpdate := didDispatchAnyUpdate st;
     clock := clock st; effects := effects st |}.

Definition withBuffer (st : State) (b : string) : State :=
  {| buffer := b; currentMessage := currentMessage st;
     lastUpdateTime := lastUpdateTime st; updateTimeout := updateTimeout st;
     didDispatchAnyUpdate := didDispatchAnyUpdate st;
     clock := clock st; effects := effects st |}.

Definition withEffect (st : State) (e : Effect) : State :=
  {| buffer := buffer st; currentMessage := currentMessage st;
     lastUpdateTime := lastUpdateTime st; updateTimeout := updateTimeout st;
     didDispatchAnyUpdate := didDispatchAnyUpdate st;
     clock := clock st; effects := effects st ++ [e] |}.

(** [String(currentMessage.content || '').trimStart().toLowerCase()] *)
Definition contentStart (m : Acc.Msg) : string :=
  Js.toLowerCase (Js.trimStart (Acc.content m)).

(** The condition under which the guard looks at the content. *)
Definition guardActive (r : Run) (st : State) : bool :=
  run_detect r && negb (didDispatchAnyUpdate st)
  && negb (Js.truthy (Acc.reasoning_content (currentMessage st))).

(** [if (hasUpdate) { ... }]: the guard, then the throttle.  [Normal] is
    also the result of the [continue] that suppresses a delta. *)
Definition onUpdate (h : Host) (r : Run) (st : State) : Res State :=
  if guardActive r st then
    let start := contentStart (currentMessage st) in
    if existsb (fun p => Js.startsWith start p) (run_prefixes r) then
      Throw guardError st
    else if existsb (fun p => Js.startsWith p start) (run_prefixes r) then
      Normal st
    else Normal (scheduleUpdate h r st)
  else Normal (scheduleUpdate h r st).

(** The body of the [try]: parse the payload, apply the record, and
    surface the update. *)
Definition tryData (h : Host) (r : Run) (data : string) (st : State) : Res State :=
  match JSON_parse h data with
  | None => Throw (SyntaxError "JSON.parse") st
  | Some parsed =>
      match applyRecord h (run_format r) parsed (currentMessage st) with
      | Throw e (m, _) => Throw e (withMessage st m)
      | Normal (m, hasUpdate) =>
          if hasUpdate then onUpdate h r (withMessage st m)
          else Normal (withMessage st m)
      end
  end.

(** [try { ... } catch (e) { if (e?.code === GUARD_CODE) throw e; console.error(e) }] *)
Definition catchData (res : Res State) : Res State :=
  match res with
  | Normal st => Normal st
  | Throw e st =>
      match code e with
      | Some c =>
          if String.eqb c GUARD_CODE then Throw e st
          else Normal (withEffect st (ConsoleError e))
      | None => Normal (withEffect st (ConsoleError e))
      end
  end.

(** One line taken from the buffer. *)
Definition handleLine (h : Host) (r : Run) (line : string) (st : State) : Res State :=
  if Js.startsWith line "data: " then
    let data := Js.sliceFrom line 6 in
    if String.eqb data "[DONE]" then Normal st
    else catchData (tryData h r data st)
  else Normal st.

(** [while ((newlineIndex = buffer.indexOf('\n')) !== -1) { ... }];
    [None] when the fuel runs out before the buffer has no line left. *)
Fixpoint drainBuffer (fuel : nat) (h : Host) (r : Run) (st : State) : option (Res State) :=
  match Js.indexOf (buffer st) Js.LF with
  | None => Some (Normal st)
  | Some newlineIndex =>
      match fuel with
      | O => None
      | S fuel' =>
          let line := Js.slice (buffer st) 0 newlineIndex in
          let st1 := withBuffer st (Js.sliceFrom (buffer st) (newlineIndex + 1)) in
          match handleLine h r line st1 with
          | Normal st2 => drainBuffer fuel' h r st2
          | Throw e st2 => Some (Throw e st2)
          end
      end
  end.

(** One chunk: [buffer += chunk] and the loop over its lines.  Every
    line takes at least its line feed off the buffer, so the length of
    the buffer is fuel enough. *)
Definition onChunk (h : Host) (r : Run) (chunk : string) (st : State) : option (Res State) :=
  let st1 := withBuffer st (buffer st ++ chunk) in
  drainBuffer (String.length (buffer st1)) h r st1.

(** [if (done) { if (Date.now() - lastUpdateTime > 0) dispatchUpdate(); break; }] *)
Definition onDone (h : Host) (r : Run) (st : State) : State :=
  let now := Date_now h (clock st) in
  let st1 :=
    {| buffer := buffer st; currentMessage := currentMessage st;
       lastUpdateTime := lastUpdateTime st; updateTimeout := updateTimeout st;
       didDispatchAnyUpdate := didDispatchAnyUpdate st;
       clock := S (clock st); effects := effects st |} in
  if Z.gtb (now - lastUpdateTime st) 0 then dispatchUpdate h r st1 else st1.

(** What [await reader.read()] gives. *)
Inductive ReadResult : Type :=
| Chunk (text : string)
| EndOfStream
| ReadRejects (e : JsError).

(** What happens while the function waits: a read settles, or the
    timer armed by [setTimeout] fires. *)
Inductive Event : Type :=
| Read (r : ReadResult)
| TimerFires.

(** A timer that fires runs [dispatchUpdate]; with no timer armed
    nothing can fire. *)
Definition onTimer (h : Host) (r : Run) (st : State) : State :=
  match updateTimeout st with
  | Some _ => dispatchUpdate h r st
  | None => st
  end.

(** How the read loop ends. *)
Inductive LoopEnd : Type :=
| Returned (m : Acc.Msg)
| Threw (e : JsError)
| Waiting
| OutOfFuel.

(** [while (true) { const { done, value } = await reader.read(); ... }] *)
Fixpoint readLoop (h : Host) (r : Run) (events : list Event) (st : State) : LoopEnd * State :=
  match events with
  | [] => (Waiting, st)
  | TimerFires :: rest => readLoop h r rest (onTimer h r st)
  | Read EndOfStream :: _ =>
      let st' := onDone h r st in (Returned (currentMessage st'), st')
  | Read (ReadRejects e) :: _ => (Threw e, st)
  | Read (Chunk text) :: rest =>
      match onChunk h r text st with
      | Some (Normal st') => readLoop h r rest st'
      | Some (Throw e st') => (Threw e, st')
      | None => (OutOfFuel, st)
      end
  end.

(** The response of [fetch] as far as [processStream] looks at it. *)
Inductive TextResult : Type :=
| TextResolves (s : string)
| TextRejects (e : JsError).

Record Response : Type := {
  ok : bool;
  status : nat;
  statusText : string;
  (** how [response.text()] settles *)
  text : TextResult;
  (** [response.body?.getReader?.()] gives a reader *)
  hasReader : bool
}.

Inductive FetchResult : Type :=
| FetchRejects (e : JsError)
| FetchResolves (resp : Response).

(** How the promise of [processStream] settles. *)
Inductive Outcome : Type :=
| Resolved (value : option Acc.Msg)
| Rejected (e : JsError)
| Pending
| Diverged.

(** [catch (error) { if (error.name === 'AbortError') return; throw error; }] *)
Definition outerCatch (e : JsError) : Outcome :=
  if String.eqb (name e) "AbortError" then Resolved None else Rejected e.

(** [errorText || response.statusText || `HTTP ${response.status}`]
    with [errorText = await response.text().catch(() => '')]. *)
Definition httpErrorMessage (resp : Response) : string :=
  let errorText := match text resp with TextResolves s => s | TextRejects _ => EmptyString end in
  if Js.truthy errorText then errorText
  else if Js.truthy (statusText resp) then statusText resp
  else "HTTP " ++ NilEmpty.string_of_uint (Nat.to_uint (status resp)).

(** [processStream]: the fetch, the checks on the response, the read
    loop, the outer [catch] and the [finally] that releases the reader. *)
Definition processStream (h : Host) (r : Run) (f : FetchResult) (events : list Event)
  : Outcome * State :=
  let st0 := withEffect initialState Fetch in
  match f with
  | FetchRejects e => (outerCatch e, st0)
  | FetchResolves resp =>
      if negb (ok resp) then (outerCatch (newError (httpErrorMessage resp)), st0)
      else if negb (hasReader resp) then
        (outerCatch (newError (t h "error_response_unreadable")), st0)
      else
        match readLoop h r events st0 with
        | (Returned m, st) => (Resolved (Some m), withEffect st ReaderCancel)
        | (Threw e, st) => (outerCatch e, withEffect st ReaderCancel)
        | (Waiting, st) => (Pending, st)
        | (OutOfFuel, st) => (Diverged, st)
        end
  end.

(** The snapshots handed to the store, oldest first. *)
Fixpoint dispatched (es : list Effect) : list Acc.Msg :=
  match es with
  | [] => []
  | UpdateLastMessage m :: rest => m :: dispatched rest
  | _ :: rest => dispatched rest
  end.

(** The snapshots handed to the UI callback, oldest first. *)
Fixpoint shown (es : list Effect) : list Acc.Msg :=
  match es with
  | [] => []
  | OnMessageUpdate m :: rest => m :: shown rest
  | _ :: rest => shown rest
  end.

(* ================================================================== *)
(** * A host for the examples *)
(* ================================================================== *)

(** The double quote, which delimits the strings of a JSON text. *)
Definition dq : ascii := ascii_of_nat 34.

(** [q s] is [s] between double quotes. *)
Definition q (s : string) : string := String dq (s ++ String dq EmptyString).

(** The characters of a JSON string up to its closing quote (escapes are
    not read). *)
Fixpoint readString (s : string) : option (string * string) :=
  match s with
  | EmptyString => None
  | String c rest =>
      if Ascii.eqb c dq then Some (EmptyString, rest)
      else match readString rest with
           | Some (str, rest') => Some (String c str, rest')
           | None => None
           end
  end.

Definition isDigit (c : ascii) : bool :=
  Nat.leb 48 (nat_of_ascii c) && Nat.leb (nat_of_ascii c) 57.

Fixpoint readDigits (s : string) : string * string :=
  match s with
  | EmptyString => (EmptyString, EmptyString)
  | String c rest =>
      if isDigit c then let '(ds, rest') := readDigits rest in (String c ds, rest')
      else (EmptyString, s)
  end.

(** A reader of compact JSON texts (no white space, no escapes, natural
    numbers): the value at the head of [s] and what follows it. *)
Fixpoint parseValue (fuel : nat) (s : string) : option (json * string) :=
  match fuel with
  | O => None
  | S fuel' =>
      match s with
      | EmptyString => None
      | String c rest =>
          if Ascii.eqb c "{"%char then
            match rest with
            | String d rest' =>
                if Ascii.eqb d "}"%char then Some (JObj [], rest')
                else parseMembers fuel' rest []
            | EmptyString => None
            end
          else if Ascii.eqb c "["%char then
            match rest with
            | String d rest' =>
                if Ascii.eqb d "]"%char then Some (JArr [], rest')
                else parseElems fuel' rest []
            | EmptyString => None
            end
          else if Ascii.eqb c dq then
            match readString rest with
            | Some (str, rest') => Some (JStr str, rest')
            | None => None
            end
          else if isDigit c then
            let '(ds, rest') := readDigits s in Some (JNum ds, rest')
          else if Js.startsWith s "null" then Some (JNull, Js.sliceFrom s 4)
          else if Js.startsWith s "true" then Some (JBool true, Js.sliceFrom s 4)
          else if Js.startsWith s "false" then Some (JBool false, Js.sliceFrom s 5)
          else None
      end
  end
with parseMembers (fuel : nat) (s : string) (acc : list (string * json))
  : option (json * string) :=
  match fuel with
  | O => None
  | S fuel' =>
      match s with
      | String c rest =>
          if Ascii.eqb c dq then
            match readString rest with
            | Some (key, String colon rest1) =>
                if Ascii.eqb colon ":"%char then
                  match parseValue fuel' rest1 with
                  | Some (v, String sep rest2) =>
                      if Ascii.eqb sep ","%char then
                        parseMembers fuel' rest2 (acc ++ [(key, v)])
                      else if Ascii.eqb sep "}"%char then
                        Some (JObj (acc ++ [(key, v)]), rest2)
                      else None
                  | _ => None
                  end
                else None
            | _ => None
            end
          else None
      | EmptyString => None
      end
  end
with parseElems (fuel : nat) (s : string) (acc : list json)
  : option (json * string) :=
  match fuel with
  | O => None
  | S fuel' =>
      match parseValue fuel' s with
      | Some (v, String sep rest) =>
          if Ascii.eqb sep ","%char then parseElems fuel' rest (acc ++ [v])
          else if Ascii.eqb sep "]"%char then Some (JArr (acc ++ [v]), rest)
          else None
      | _ => None
      end
  end.

Definition demoParse (s : string) : option json :=
  match parseValue (S (String.length s)) s with
  | Some (v, EmptyString) => Some v
  | _ => None
  end.

Definition demoToString (j : json) : string :=
  match j with
  | JNull => "null"
  | JBool true => "true"
  | JBool false => "false"
  | JNum l => l
  | JStr s => s
  | JArr _ => EmptyString
  | JObj _ => "[object Object]"
  end.

(** The example host, for a given clock: labels are their own keys, the
    base URL is taken as it is, a text is an absolute URL when it begins
    with the scheme of the web, and the parameters are put after it. *)
Definition demoHost (now : nat -> Z) : Host :=
  {| JSON_parse := demoParse;
     JSON_stringify := fun _ => "[]";
     numberTruthy := fun l => negb (String.eqb l "0");
     ToString := demoToString;
     Date_now := now;
     t := fun key => key;
     normalizeChatCompletionsUrl := fun u => u;
     URL_canParse := fun s => Js.startsWith s "http://" || Js.startsWith s "https://";
     URL_withParams := fun s params =>
       (s ++ "?" ++ Js.join "&" (map (fun kv => fst kv ++ "=" ++ snd kv)%string params))%string |}.

(** The payload [{"choices":[{"delta":{"content":c}}]}] of an OpenAI
    record and the value [JSON.parse] makes of it. *)
Definition openaiContentText (c : string) : string :=
  "{" ++ q "choices" ++ ":[{" ++ q "delta" ++ ":{" ++ q "content" ++ ":" ++ q c ++ "}}]}".

Definition openaiContent (c : string) : json :=
  JObj [("choices", JArr [JObj [("delta", JObj [("content", JStr c)])]])].

(** An SSE data line with its line feed. *)
Definition dataLine (payload : string) : string := "data: " ++ payload ++ Js.nl.

(* ================================================================== *)
(** * The specification's wording, for comparison with the code *)
(* ================================================================== *)

(** The URL mentions one of the given substrings. *)
Definition mentionsAny (url : string) (needles : list string) : bool :=
  existsb (Js.includes url) needles.

Definition geminiNeedles : list string :=
  ["generativelanguage.googleapis.com"; "aiplatform.googleapis.com"; "gemini"].

Definition claudeNeedles : list string :=
  ["anthropic.com"; "claude"; "api.anthropic"].

Definition isSystem (m : Message) : bool := String.eqb (role m) "system".

(** The turn the Gemini translator makes of a message that is not a
    system message: the role renamed, the content as parts. *)
Definition geminiTurn (m : Message) : Gemini.Turn :=
  {| Gemini.role := if String.eqb (role m) "assistant" then "model" else "user";
     Gemini.parts := geminiParts (content m) |}.

(** A message stays in the Gemini turn sequence when it is not a system
    message and its conversion yields at least one part. *)
Definition geminiKept (m : Message) : bool :=
  negb (isSystem m)
  && match geminiParts (content m) with [] => false | _ => true end.

Definition geminiSystem (h : Host) (m : Message) : Gemini.SystemInstruction :=
  {| Gemini.si_parts := [Gemini.Text (Some (systemText h (content m)))] |}.

(** The same for the Claude translator, which keeps the role. *)
Definition claudeMsg (m : Message) : Claude.Msg :=
  {| Claude.role := role m; Claude.content := claudeParts (content m) |}.

Definition claudeKept (m : Message) : bool :=
  negb (isSystem m)
  && match claudeParts (content m) with [] => false | _ => true end.

(** The texts of the system messages, in encounter order. *)
Definition systemTexts (h : Host) (msgs : list Message) : list string :=
  map (fun m => systemText h (content m)) (filter isSystem msgs).

(** A blank line: two line feeds. *)
Definition blankLine : string := Js.nl ++ Js.nl.

(** The list without the empty strings at its head. *)
Fixpoint dropLeadingEmpty (xs : list string) : list string :=
  match xs with
  | EmptyString :: rest => dropLeadingEmpty rest
  | _ => xs
  end.

(** A split on the first comma: what precedes it, and all that follows
    it ([None] without a comma). *)
Fixpoint splitFirstComma (s : string) : string * option string :=
  match s with
  | EmptyString => (EmptyString, None)
  | String c rest =>
      if Ascii.eqb c ","%char then (EmptyString, Some rest)
      else let '(header, payload) := splitFirstComma rest in (String c header, payload)
  end.

(** An image item with the given URL. *)
Definition imageItem (u : string) : Item :=
  {| item_type := "image_url"; item_text := None;
     item_image_url := Some {| url := Some u |} |}.

Definition systemMsg (s : string) : Message :=
  {| role := "system"; content := ContentString s |}.

Definition userMsg (s : string) : Message :=
  {| role := "user"; content := ContentString s |}.

(** Each string preceded by a blank line, all concatenated. *)
Fixpoint blankPrefixed (xs : list string) : string :=
  match xs with
  | [] => EmptyString
  | x :: rest => blankLine ++ x ++ blankPrefixed rest
  end.

(** What one system message adds to the [system] string of the Claude
    translator. *)
Definition sysAppend (acc x : string) : string :=
  acc ++ (if Js.truthy acc then blankLine else EmptyString) ++ x.

(** The text between the first and the second comma of a URL (all that
    follows the first comma when there is no second one). *)
Definition secondSegment (u : string) : option string :=
  match snd (splitFirstComma u) with
  | Some p => Some (fst (splitFirstComma p))
  | None => None
  end.

(** The string has a character that is not white space. *)
Fixpoint hasNonWhiteSpace (s : string) : bool :=
  match s with
  | EmptyString => false
  | String c rest => negb (Js.isWhiteSpace c) || hasNonWhiteSpace rest
  end.

(** A configuration whose system prompt is [prompt]. *)
Definition configWithPrompt (prompt : string) : APIConfig :=
  {| baseUrl := Some "https://api.openai.com/v1/chat/completions";
     apiKey := Some "sk-test";
     modelName := None;
     apiFormat := None;
     advancedSettings := Some {| systemPrompt := Some prompt |} |}.

(** The accumulator after [content += c]. *)
Definition appendContent (m : Acc.Msg) (c : string) : Acc.Msg :=
  {| Acc.content := Acc.content m ++ c;
     Acc.reasoning_content := Acc.reasoning_content m |}.

(** A run of the OpenAI format with the guard enabled for the prefix
    list [["think"]]. *)
Definition guardedRun (sink : bool) : Run :=
  {| run_format := "openai"; run_sink := sink;
     run_detect := true; run_prefixes := ["think"] |}.

(** A response that is [ok] and whose body can be read. *)
Definition okResponse : Response :=
  {| ok := true; status := 200; statusText := "OK";
     text := TextResolves EmptyString; hasReader := true |}.

(** The exception a cancelled [fetch] or read rejects with. *)
Definition abortError : JsError :=
  {| name := "AbortError"; message := "The user aborted a request."; code := None |}.

(** A run of the OpenAI format with a sink and without the guard. *)
Definition plainRun : Run :=
  {| run_format := "openai"; run_sink := true;
     run_detect := false; run_prefixes := ["think"] |}.

(** A response with status 403 whose body cannot be read to the end
    because the request is cancelled meanwhile. *)
Definition forbiddenCancelled : Response :=
  {| ok := false; status := 403; statusText := "Forbidden";
     text := TextRejects abortError; hasReader := true |}.

(** The state in which [processStream] starts to read. *)
Definition startState : State := withEffect initialState Fetch.

(** The stream of the end-to-end example of the specification: the
    records "He" and "llo", the sentinel, the end of the stream. *)
Definition helloEvents : list Event :=
  [Read (Chunk (dataLine (openaiContentText "He")));
   Read (Chunk (dataLine (openaiContentText "llo") ++ dataLine "[DONE]"));
   Read EndOfStream].

(** Two records in one chunk, then the end of the stream. *)
Definition burstEvents : list Event :=
  [Read (Chunk (dataLine (openaiContentText "a") ++ dataLine (openaiContentText "b")));
   Read EndOfStream].

(** A clock that advances by one unit at each reading. *)
Definition tickingClock (k : nat) : Z := (1700000000000 + Z.of_nat k)%Z.

(** A clock that stands still: everything happens within one unit. *)
Definition frozenClock (k : nat) : Z := 1700000000000%Z.

Definition accOf (c : string) : Acc.Msg :=
  {| Acc.content := c; Acc.reasoning_content := EmptyString |}.

(** [st'] has the effects of [st] and possibly more after them. *)
Definition extends (st st' : State) : Prop :=
  exists tail, effects st' = effects st ++ tail.

(** The options that enable the guard with the list [["think"]]. *)
Definition guardOptions : Options :=
  {| detectMisfiledThinkSilently := true;
     misfiledThinkSilentlyPrefix := None;
     misfiledThinkSilentlyPrefixes := Some ["think"] |}.

(** A call with one user message "hi", a store, and the guard enabled. *)
Definition demoParams : Params :=
  {| messages := [ {| stored_role := "user"; stored_content := ContentString "hi";
                      stored_reasoning_content := None; stored_updating := None |} ];
     apiConfig := Some (configWithPrompt "Reply in {{userLanguage}}.");
     userLanguage := "en-US";
     webpageInfo := None;
     hasSink := true;
     options := guardOptions |}.

(** The last character of a string. *)
Fixpoint lastChar (s : string) : option ascii :=
  match s with
  | EmptyString => None
  | String c EmptyString => Some c
  | String _ rest => lastChar rest
  end.

(** A base64 data URL: ["data:" + mime + ";base64," + payload]. *)
Definition base64DataUrl (mime payload : string) : string :=
  "data:" ++ mime ++ ";base64," ++ payload.

(** Whether a Gemini part and a Claude part say the same thing. *)
Definition samePart (g : Gemini.Part) (c : Claude.Part) : Prop :=
  match g, c with
  | Gemini.Text a, Claude.Text b => a = b
  | Gemini.InlineData m d, Claude.Image m' d' => m = m' /\ d = d'
  | _, _ => False
  end.

(** Whether a Gemini turn and a Claude message come from the same
    message: the roles correspond and so do the parts, one by one. *)
Definition sameTurn (g : Gemini.Turn) (c : Claude.Msg) : Prop :=
  Gemini.role g = (if String.eqb (Claude.role c) "assistant" then "model" else "user")
  /\ Forall2 samePart (Gemini.parts g) (Claude.content c).

(** The prefixes as configured, before they are normalized: the list
    when it is a non-empty array, else the single prefix or its
    default. *)
Definition configuredPrefixes (o : Options) : list string :=
  match misfiledThinkSilentlyPrefixes o with
  | Some (p :: ps) => p :: ps
  | _ => [match misfiledThinkSilentlyPrefix o with Some p => p | None => "think" end]
  end.

(* ================================================================== *)
(** * The steps of the dispatcher, named *)
(* ================================================================== *)

(** The state after one reading of the clock. *)
Definition tick (st : State) : State :=
  {| buffer := buffer st; currentMessage := currentMessage st;
     lastUpdateTime := lastUpdateTime st; updateTimeout := updateTimeout st;
     didDispatchAnyUpdate := didDispatchAnyUpdate st;
     clock := S (clock st); effects := effects st |}.

(** The state after [updateTimeout = setTimeout(dispatchUpdate, delay)],
    which comes after two readings of the clock. *)
Definition arm (st : State) (delay : Z) : State :=
  {| buffer := buffer st; currentMessage := currentMessage st;
     lastUpdateTime := lastUpdateTime st; updateTimeout := Some delay;
     didDispatchAnyUpdate := didDispatchAnyUpdate st;
     clock := S (S (clock st)); effects := effects st ++ [SetTimeout delay] |}.

(** [m'] is what some record makes of the accumulator [m], whether the
    decoder returns or throws. *)
Definition decodes (h : Host) (fmt : string) (m m' : Acc.Msg) : Prop :=
  exists parsed,
    match applyRecord h fmt parsed m with
    | Normal d | Throw _ d => fst d = m'
    end.

(** [m'] is [m] with text appended on either channel. *)
Definition grows (m m' : Acc.Msg) : Prop :=
  (exists x, Acc.content m' = (Acc.content m ++ x)%string)
  /\ (exists y, Acc.reasoning_content m' = (Acc.reasoning_content m ++ y)%string).

(** How often the reader has been released. *)
Fixpoint readerCancels (es : list Effect) : nat :=
  match es with
  | [] => 0
  | ReaderCancel :: rest => S (readerCancels rest)
  | _ :: rest => readerCancels rest
  end.

(** The timer as the effects tell it: [Some p] when no timer was ever
    armed while another was pending, [p] saying whether one is pending
    at the end; [None] when two were armed at once. *)
Fixpoint timers (pending : bool) (es : list Effect) : option bool :=
  match es with
  | [] => Some pending
  | SetTimeout _ :: rest => if pending then None else timers true rest
  | ClearTimeout :: rest => timers false rest
  | _ :: rest => timers pending rest
  end.

Definition isPending (st : State) : bool :=
  match updateTimeout st with Some _ => true | None => false end.

(** A run of the OpenAI format without a store: [chatManager] or
    [chatId] is missing. *)
Definition sinklessRun : Run :=
  {| run_format := "openai"; run_sink := false;
     run_detect := false; run_prefixes := ["think"] |}.

(** A run of the Gemini format with a store. *)
Definition geminiRun : Run :=
  {| run_format := "gemini"; run_sink := true;
     run_detect := false; run_prefixes := ["think"] |}.

(** The event is the arrival of a chunk. *)
Definition isChunk (ev : Event) : bool :=
  match ev with
  | Read (Chunk _) => true
  | _ => false
  end.

(** The guard is out of play: it is not enabled, or an update has been
    dispatched, or reasoning content has arrived. *)
Definition guardOff (r : Run) (st : State) : bool :=
  negb (run_detect r) || didDispatchAnyUpdate st
  || Js.truthy (Acc.reasoning_content (currentMessage st)).

(** The last snapshot handed to the store is the accumulator. *)
Definition flushed (st : State) : Prop :=
  exists before, dispatched (effects st) = before ++ [currentMessage st].

(** Nothing the accumulator holds can be lost: it has been flushed, or
    a timer is pending that will flush it, or nothing was flushed yet
    (so that the end of the stream flushes it). *)
Definition covered (st : State) : Prop :=
  (flushed st \/ updateTimeout st <> None \/ lastUpdateTime st = 0%Z)
  /\ (didDispatchAnyUpdate st = false -> lastUpdateTime st = 0%Z).

(** The clock never goes back. *)
Definition monotoneClock (h : Host) : Prop :=
  forall k, (Date_now h k <= Date_now h (S k))%Z.

(** Two chunks, no end of stream yet. *)
Definition twoChunks : list Event :=
  [Read (Chunk (dataLine (openaiContentText "He")));
   Read (Chunk (dataLine (openaiContentText "llo")))].

(** A clock that advances by 150 units at each reading. *)
Definition slowClock (k : nat) : Z := (1700000000000 + 150 * Z.of_nat k)%Z.

(* ================================================================== *)
(** * Chunks and lines *)
(* ================================================================== *)




(* ================================================================== *)
(** * Gemini records *)
(* ================================================================== *)

(** The part [{"text": s}]. *)
Definition textPart (s : string) : json := JObj [("text", JStr s)].

(** The record [{"candidates": [{"content": {"parts": parts}}]}]. *)
Definition geminiRecord (parts : list json) : json :=
  JObj [("candidates", JArr [JObj [("content", JObj [("parts", JArr parts)])]])].

(** What reading [text] of a [null] part throws. *)
Definition nullPartError : JsError :=
  TypeError "Cannot read properties of null (reading 'text')".

(** The strings of a list put end to end. *)
Fixpoint concatAll (l : list string) : string :=
  match l with
  | [] => EmptyString
  | x :: rest => x ++ concatAll rest
  end.

(** The accumulator with [x] appended to its content. *)
Definition appendText (m : Acc.Msg) (x : string) : Acc.Msg :=
  {| Acc.content := Acc.content m ++ x;
     Acc.reasoning_content := Acc.reasoning_content m |}.

(** [hasUpdate] after text parts with the texts [l]. *)
Definition anyText (l : list string) : bool :=
  match l with [] => false | _ :: _ => true end.

(** The text of the Gemini record with the parts ["Hel"], ["lo"] and
    [null]. *)
Definition geminiNullPartText : string :=
  "{" ++ q "candidates" ++ ":[{" ++ q "content" ++ ":{" ++ q "parts" ++ ":[{"
  ++ q "text" ++ ":" ++ q "Hel" ++ "},{" ++ q "text" ++ ":" ++ q "lo" ++ "},null]}}]}".

(* ================================================================== *)
(** * The bytes of a read *)
(* ================================================================== *)

(** [const { done, value } = await reader.read()] with [done] false,
    followed by [const chunk = new TextDecoder().decode(value)]: a read
    hands over bytes, and a fresh decoder makes a text of the bytes of
    that read alone.  [decode] is the decoder of the platform. *)
Definition readValue (decode : list Byte.byte -> string) (value : list Byte.byte) : Event :=
  Read (Chunk (decode value)).

(** The decoder on bytes below 128, each of which is a character. *)
Definition decodeAscii (value : list Byte.byte) : string := string_of_list_byte value.

(** A call for a Gemini proxy, with the base URL [base]. *)
Definition geminiParams (base : string) : Params :=
  {| messages := [ {| stored_role := "user"; stored_content := ContentString "hi";
                      stored_reasoning_content := None; stored_updating := None |} ];
     apiConfig := Some {| baseUrl := Some base; apiKey := Some "k"; modelName := None;
                          apiFormat := None; advancedSettings := None |};
     userLanguage := "en-US";
     webpageInfo := None;
     hasSink := true;
     options := guardOptions |}.

(* ================================================================== *)
(** * Facts about strings *)
(* ================================================================== *)

Local Open Scope string_scope.

Lemma append_assoc (a b c : string) : (a ++ b) ++ c = a ++ (b ++ c).
Proof. induction a as [| x a IH]; simpl; [reflexivity | now rewrite IH]. Qed.

Lemma append_nil_r (a : string) : a ++ EmptyString = a.
Proof. induction a as [| x a IH]; simpl; [reflexivity | now rewrite IH]. Qed.

Lemma length_append (a b : string) :
  String.length (a ++ b) = String.length a + String.length b.
Proof. induction a as [| x a IH]; simpl; [reflexivity | now rewrite IH]. Qed.

Lemma truthy_append_l (a b : string) : Js.truthy a = true -> Js.truthy (a ++ b) = true.
Proof. now destruct a. Qed.

Lemma truthy_false (a : string) : Js.truthy a = false <-> a = EmptyString.
Proof. destruct a; simpl; split; congruence. Qed.

Lemma prefix_append (p r : string) : prefix p (p ++ r) = true.
Proof.
  induction p as [| x p IH]; simpl; [now destruct r |].
  destruct (ascii_dec x x); [exact IH | congruence].
Qed.

Lemma prefix_inv (p s : string) : prefix p s = true -> exists r, s = p ++ r.
Proof.
  revert s. induction p as [| x p IH]; intros s H.
  - now exists s.
  - destruct s as [| y s]; simpl in H; [discriminate |].
    destruct (ascii_dec x y) as [<- |]; [| discriminate].
    destruct (IH s H) as [r ->]. now exists r.
Qed.

Lemma prefix_cons (a b : ascii) (p s : string) :
  prefix (String a p) (String b s) = Ascii.eqb a b && prefix p s.
Proof.
  cbn [prefix]. destruct (ascii_dec a b) as [<- | Hne].
  - now rewrite Ascii.eqb_refl.
  - apply Ascii.eqb_neq in Hne. now rewrite Hne.
Qed.

Lemma prefix_nil (s : string) : prefix EmptyString s = true.
Proof. now destruct s. Qed.

Lemma includes_cons (c : ascii) (s sub : string) :
  Js.includes (String c s) sub = Js.startsWith (String c s) sub || Js.includes s sub.
Proof. reflexivity. Qed.

Lemma includes_startsWith (s sub : string) :
  Js.startsWith s sub = true -> Js.includes s sub = true.
Proof. intros H. destruct s; cbn [Js.includes]; now rewrite H. Qed.

(** Looking for a single character. *)
Lemma includes_char_cons (c d : ascii) (s : string) :
  Js.includes (String c s) (String d EmptyString)
  = Ascii.eqb d c || Js.includes s (String d EmptyString).
Proof.
  rewrite includes_cons. unfold Js.startsWith.
  now rewrite prefix_cons, prefix_nil, andb_true_r.
Qed.

Lemma substring_all (s : string) : substring 0 (String.length s) s = s.
Proof. induction s as [| x s IH]; simpl; [reflexivity | now rewrite IH]. Qed.

Lemma substring_skip (p s : string) (m : nat) :
  substring (String.length p) m (p ++ s) = substring 0 m s.
Proof. induction p as [| x p IH]; simpl; [reflexivity | exact IH]. Qed.

Lemma substring_take (p s : string) :
  substring 0 (String.length p) (p ++ s) = p.
Proof.
  induction p as [| x p IH]; simpl; [now destruct s | now rewrite IH].
Qed.

Lemma sliceFrom_append (p s : string) : Js.sliceFrom (p ++ s) (String.length p) = s.
Proof.
  unfold Js.sliceFrom. rewrite length_append, Nat.add_comm, Nat.add_sub.
  rewrite substring_skip. apply substring_all.
Qed.

Lemma slice_append (p s : string) : Js.slice (p ++ s) 0 (String.length p) = p.
Proof. unfold Js.slice. rewrite Nat.sub_0_r. apply substring_take. Qed.

(* ================================================================== *)
(** * Properties of the provider profile resolver *)
(* ================================================================== *)

Local Open Scope list_scope.

Lemma isKnownFormat_In (f : string) : isKnownFormat f = true <-> In f knownFormats.
Proof.
  unfold isKnownFormat. rewrite existsb_exists. split.
  - intros [x [Hin Heq]]. apply String.eqb_eq in Heq. now subst.
  - intros Hin. exists f. split; [assumption | apply String.eqb_refl].
Qed.

Lemma knownFormat_truthy (f : string) : In f knownFormats -> Js.truthy f = true.
Proof.
  intros Hin. simpl in Hin.
  destruct Hin as [<- | [<- | [<- | []]]]; reflexivity.
Qed.

Lemma detectApiFormat_heuristic (baseUrl : string) (explicitFormat : option string) :
  explicitIsKnown explicitFormat = false ->
  detectApiFormat baseUrl explicitFormat =
    if mentionsAny (Js.toLowerCase baseUrl) geminiNeedles then "gemini"
    else if mentionsAny (Js.toLowerCase baseUrl) claudeNeedles then "claude"
    else "openai".
Proof.
  intros Hk. unfold detectApiFormat.
  unfold mentionsAny, geminiNeedles, claudeNeedles. simpl existsb.
  rewrite !orb_false_r, !orb_assoc.
  destruct explicitFormat as [f |]; [| reflexivity].
  now rewrite Hk.
Qed.

(** C4. Profile resolution is a total function of (baseUrl,
    explicitFormat): an explicit format that is one of openai, gemini,
    claude is returned as it is; otherwise the lower-cased URL decides:
    a Gemini substring gives gemini, else a Claude substring gives
    claude, else openai; the result is always one of the three. *)
Theorem detectApiFormat_resolution (baseUrl : string) (explicitFormat : option string) :
  (forall f, explicitFormat = Some f -> In f knownFormats ->
     detectApiFormat baseUrl explicitFormat = f)
  /\ ((forall f, explicitFormat = Some f -> ~ In f knownFormats) ->
      (mentionsAny (Js.toLowerCase baseUrl) geminiNeedles = true ->
         detectApiFormat baseUrl explicitFormat = "gemini")
      /\ (mentionsAny (Js.toLowerCase baseUrl) geminiNeedles = false ->
          mentionsAny (Js.toLowerCase baseUrl) claudeNeedles = true ->
          detectApiFormat baseUrl explicitFormat = "claude")
      /\ (mentionsAny (Js.toLowerCase baseUrl) geminiNeedles = false ->
          mentionsAny (Js.toLowerCase baseUrl) claudeNeedles = false ->
          detectApiFormat baseUrl explicitFormat = "openai"))
  /\ In (detectApiFormat baseUrl explicitFormat) knownFormats.
Proof.
  split; [| split].
  - intros f -> Hin.
    assert (Hk : explicitIsKnown (Some f) = true).
    { simpl. rewrite (knownFormat_truthy f Hin).
      apply isKnownFormat_In in Hin. now rewrite Hin. }
    unfold detectApiFormat. now rewrite Hk.
  - intros Hnot.
    assert (Hk : explicitIsKnown explicitFormat = false).
    { destruct explicitFormat as [f |]; [| reflexivity]. simpl.
      destruct (isKnownFormat f) eqn:E; [| now rewrite andb_false_r].
      apply isKnownFormat_In in E. now destruct (Hnot f eq_refl). }
    rewrite (detectApiFormat_heuristic _ _ Hk).
    repeat split.
    + now intros ->.
    + now intros -> ->.
    + now intros -> ->.
  - destruct (explicitIsKnown explicitFormat) eqn:Hk.
    + destruct explicitFormat as [f |]; [| discriminate].
      unfold detectApiFormat. rewrite Hk.
      simpl in Hk. apply andb_prop in Hk. apply isKnownFormat_In. tauto.
    + rewrite (detectApiFormat_heuristic _ _ Hk).
      destruct (mentionsAny _ geminiNeedles); [simpl; tauto |].
      destruct (mentionsAny _ claudeNeedles); simpl; tauto.
Qed.

Lemma detectApiFormat_resolution_witness :
  detectApiFormat "https://api.example.com/v1/chat/completions" (Some "claude") = "claude"
  /\ detectApiFormat "https://GenerativeLanguage.googleapis.com/v1beta" (Some "auto") = "gemini"
  /\ detectApiFormat "https://api.anthropic.com/v1/chat/completions" None = "claude"
  /\ detectApiFormat "https://api.openai.com/v1/chat/completions" None = "openai".
Proof.
  split; [| split; [| split]].
  - apply (proj1 (detectApiFormat_resolution _ (Some "claude")) "claude" eq_refl).
    simpl; tauto.
  - apply (proj1 (proj1 (proj2 (detectApiFormat_resolution
             "https://GenerativeLanguage.googleapis.com/v1beta" (Some "auto"))) 
           ltac:(intros f [= <-]; simpl; intuition discriminate))).
    reflexivity.
  - apply (proj1 (proj2 (proj1 (proj2 (detectApiFormat_resolution
             "https://api.anthropic.com/v1/chat/completions" None))
           ltac:(intros f [=])))); reflexivity.
  - apply (proj2 (proj2 (proj1 (proj2 (detectApiFormat_resolution
             "https://api.openai.com/v1/chat/completions" None))
           ltac:(intros f [=])))); reflexivity.
Defined.

(* ================================================================== *)
(** * Properties of the message translators *)
(* ================================================================== *)

Section Translators.

Variable h : Host.

Lemma fold_left_push {A B : Type} (f : A -> list B) (xs : list A) (acc : list B) :
  fold_left (fun parts x => parts ++ f x) xs acc = acc ++ flat_map f xs.
Proof.
  revert acc. induction xs as [| x xs IH]; intros acc; simpl.
  - now rewrite app_nil_r.
  - rewrite IH. now rewrite app_assoc.
Qed.

Lemma geminiParts_array (items : list Item) :
  geminiParts (ContentArray items) = flat_map geminiItemParts items.
Proof. unfold geminiParts. now rewrite fold_left_push. Qed.

Lemma claudeParts_array (items : list Item) :
  claudeParts (ContentArray items) = flat_map claudeItemParts items.
Proof. unfold claudeParts. now rewrite fold_left_push. Qed.

Lemma ltb_length_nonempty {A : Type} (l : list A) :
  Nat.ltb 0 (List.length l) = match l with [] => false | _ => true end.
Proof. now destruct l. Qed.

(** One iteration of the Gemini loop, by the kind of message. *)
Lemma geminiStep_system (acc : Gemini.Result) (m : Message) :
  isSystem m = true ->
  geminiStep h acc m =
    {| Gemini.contents := Gemini.contents acc;
       Gemini.systemInstruction := Some (geminiSystem h m) |}.
Proof. unfold isSystem, geminiStep. now intros ->. Qed.

Lemma geminiStep_turn (acc : Gemini.Result) (m : Message) :
  isSystem m = false ->
  geminiStep h acc m =
    {| Gemini.contents :=
         Gemini.contents acc ++ (if geminiKept m then [geminiTurn m] else []);
       Gemini.systemInstruction := Gemini.systemInstruction acc |}.
Proof.
  unfold isSystem, geminiStep, geminiKept, geminiTurn, isSystem. intros ->.
  rewrite ltb_length_nonempty. simpl.
  destruct (geminiParts (content m)); [| reflexivity].
  rewrite app_nil_r. now destruct acc.
Qed.

Lemma gemini_fold_contents (msgs : list Message) (acc : Gemini.Result) :
  Gemini.contents (fold_left (geminiStep h) msgs acc) =
    Gemini.contents acc ++ map geminiTurn (filter geminiKept msgs).
Proof.
  revert acc. induction msgs as [| m msgs IH]; intros acc; simpl.
  - now rewrite app_nil_r.
  - rewrite IH. destruct (isSystem m) eqn:Hs.
    + rewrite (geminiStep_system _ _ Hs). unfold geminiKept. now rewrite Hs.
    + rewrite (geminiStep_turn _ _ Hs). simpl.
      destruct (geminiKept m); simpl; [now rewrite <- app_assoc | now rewrite app_nil_r].
Qed.

Lemma gemini_fold_no_system (msgs : list Message) (acc : Gemini.Result) :
  Forall (fun m => isSystem m = false) msgs ->
  Gemini.systemInstruction (fold_left (geminiStep h) msgs acc) =
    Gemini.systemInstruction acc.
Proof.
  intros Hall. revert acc. induction Hall as [| m msgs Hm _ IH]; intros acc; simpl.
  - reflexivity.
  - rewrite IH. now rewrite (geminiStep_turn _ _ Hm).
Qed.

Lemma gemini_last_system (pre post : list Message) (m : Message) :
  isSystem m = true ->
  Forall (fun x => isSystem x = false) post ->
  Gemini.systemInstruction (convertToGeminiFormat h (pre ++ m :: post)) =
    Some (geminiSystem h m).
Proof.
  intros Hm Hpost. unfold convertToGeminiFormat.
  rewrite fold_left_app. simpl.
  rewrite (gemini_fold_no_system _ _ Hpost).
  now rewrite (geminiStep_system _ _ Hm).
Qed.

(** Every list either has no system message or splits at its last one. *)
Lemma last_system_split (msgs : list Message) :
  Forall (fun m => isSystem m = false) msgs
  \/ exists pre m post,
       msgs = pre ++ m :: post /\ isSystem m = true
       /\ Forall (fun x => isSystem x = false) post.
Proof.
  induction msgs as [| m msgs IH].
  - left. constructor.
  - destruct IH as [Hnone | (pre & m' & post & -> & Hm' & Hpost)].
    + destruct (isSystem m) eqn:Hm.
      * right. exists [], m, msgs. simpl. auto.
      * left. now constructor.
    + right. exists (m :: pre), m', post. simpl. auto.
Qed.

Lemma isSystem_role (m : Message) : isSystem m = true <-> role m = "system".
Proof. unfold isSystem. apply String.eqb_eq. Qed.

Lemma isSystem_false_role (m : Message) : isSystem m = false <-> role m <> "system".
Proof. unfold isSystem. apply String.eqb_neq. Qed.

(** C5. For every message list the Gemini translator keeps, in order,
    the messages that are not system messages and whose conversion
    yields at least one part; a kept message has role model when it was
    assistant and user otherwise; a string content is a single text
    part; no turn comes from a system message, whose content goes to
    systemInstruction instead: systemInstruction is set exactly when
    the list has a system message, and it is then the single text part
    with the content of the last system message of the list, the string
    itself when that content is a string and its JSON text
    otherwise. *)
Theorem convertToGeminiFormat_turns (msgs : list Message) :
  Gemini.contents (convertToGeminiFormat h msgs) = map geminiTurn (filter geminiKept msgs)
  /\ (forall m, geminiKept m = true <-> (role m <> "system" /\ geminiParts (content m) <> []))
  /\ (forall m, Gemini.role (geminiTurn m) =
                  if String.eqb (role m) "assistant" then "model" else "user")
  /\ (forall m s, content m = ContentString s ->
                  Gemini.parts (geminiTurn m) = [Gemini.Text (Some s)])
  /\ Forall (fun turn => (Gemini.role turn = "model" \/ Gemini.role turn = "user")
                         /\ Gemini.parts turn <> [])
       (Gemini.contents (convertToGeminiFormat h msgs))
  /\ (Gemini.systemInstruction (convertToGeminiFormat h msgs) = None
      <-> Forall (fun m => role m <> "system") msgs)
  /\ (forall si, Gemini.systemInstruction (convertToGeminiFormat h msgs) = Some si ->
        exists m, In m msgs /\ role m = "system" /\ si = geminiSystem h m)
  /\ (forall pre m post,
        msgs = pre ++ m :: post ->
        role m = "system" ->
        Forall (fun x => role x <> "system") post ->
        (forall s, content m = ContentString s ->
           Gemini.systemInstruction (convertToGeminiFormat h msgs)
           = Some {| Gemini.si_parts := [Gemini.Text (Some s)] |})
        /\ ((forall s, content m <> ContentString s) ->
            Gemini.systemInstruction (convertToGeminiFormat h msgs)
            = Some {| Gemini.si_parts :=
                        [Gemini.Text (Some (JSON_stringify h (content m)))] |})).
Proof.
  assert (Hc : Gemini.contents (convertToGeminiFormat h msgs)
               = map geminiTurn (filter geminiKept msgs)).
  { unfold convertToGeminiFormat. now rewrite gemini_fold_contents. }
  assert (Hk : forall m, geminiKept m = true
                         <-> (role m <> "system" /\ geminiParts (content m) <> [])).
  { intros m. unfold geminiKept. rewrite andb_true_iff, negb_true_iff, isSystem_false_role.
    destruct (geminiParts (content m)); split; intros [H1 H2];
      split; try assumption; try discriminate; try reflexivity.
    now destruct H2. }
  assert (Hlast : forall pre m post,
            msgs = pre ++ m :: post ->
            role m = "system" ->
            Forall (fun x => role x <> "system") post ->
            Gemini.systemInstruction (convertToGeminiFormat h msgs)
            = Some {| Gemini.si_parts := [Gemini.Text (Some (systemText h (content m)))] |}).
  { intros pre m post -> Hm Hpost.
    apply gemini_last_system; [now apply isSystem_role |].
    eapply Forall_impl; [| exact Hpost]. intros a. apply isSystem_false_role. }
  assert (Hsys : forall pre m post,
            msgs = pre ++ m :: post ->
            role m = "system" ->
            Forall (fun x => role x <> "system") post ->
            (forall s, content m = ContentString s ->
               Gemini.systemInstruction (convertToGeminiFormat h msgs)
               = Some {| Gemini.si_parts := [Gemini.Text (Some s)] |})
            /\ ((forall s, content m <> ContentString s) ->
                Gemini.systemInstruction (convertToGeminiFormat h msgs)
                = Some {| Gemini.si_parts :=
                            [Gemini.Text (Some (JSON_stringify h (content m)))] |})).
  { intros pre m post E Hm Hpost. rewrite (Hlast pre m post E Hm Hpost). split.
    - intros s Hs. now rewrite Hs.
    - intros Hn. destruct (content m) as [s | items | j]; [| reflexivity | reflexivity].
      now destruct (Hn s). }
  split; [exact Hc |]. split; [exact Hk |].
  split; [reflexivity |].
  split; [intros m s Hs; unfold geminiTurn; simpl; now rewrite Hs |].
  split.
  { rewrite Hc. apply Forall_forall. intros turn Hin.
    apply in_map_iff in Hin. destruct Hin as [m [<- Hin]].
    apply filter_In in Hin. destruct Hin as [_ Hkept]. apply Hk in Hkept.
    split; [| exact (proj2 Hkept)].
    unfold geminiTurn; simpl. destruct (String.eqb (role m) "assistant"); auto. }
  destruct (last_system_split msgs) as [Hnone | (pre & m & post & -> & Hm & Hpost)].
  - assert (Hsi : Gemini.systemInstruction (convertToGeminiFormat h msgs) = None).
    { unfold convertToGeminiFormat. now rewrite (gemini_fold_no_system _ _ Hnone). }
    split; [| split; [| exact Hsys]].
    + split; [intros _ | intros _; exact Hsi].
      eapply Forall_impl; [| exact Hnone]. intros a. apply isSystem_false_role.
    + intros si Hsome. rewrite Hsi in Hsome. discriminate.
  - split; [| split; [| exact Hsys]]; rewrite (gemini_last_system _ _ _ Hm Hpost).
    + split; [discriminate |]. intros Hall.
      rewrite Forall_forall in Hall. apply isSystem_role in Hm.
      destruct (Hall m); [apply in_elt | exact Hm].
    + intros si [= <-]. exists m. split; [apply in_elt |].
      split; [now apply isSystem_role | reflexivity].
Qed.

Lemma geminiKept_filter (l : list Message) :
  filter geminiKept (filter (fun x => negb (String.eqb (role x) "system")) l)
  = filter geminiKept l.
Proof.
  induction l as [| x l IH]; simpl; [reflexivity |].
  destruct (String.eqb (role x) "system") eqn:Hx; simpl.
  - assert (Hk : geminiKept x = false)
      by (unfold geminiKept, isSystem; now rewrite Hx).
    rewrite Hk. exact IH.
  - destruct (geminiKept x); simpl; now rewrite IH.
Qed.

(** C10. With several system messages the Gemini translator keeps the
    content of the last one only: a system message followed by no other
    system message alone makes systemInstruction, whatever system
    messages precede it; the turn sequence is that of the list with all
    its system messages taken out. *)
Theorem convertToGeminiFormat_last_system_wins
  (pre post : list Message) (m : Message) :
  role m = "system" ->
  Forall (fun x => role x <> "system") post ->
  Gemini.systemInstruction (convertToGeminiFormat h (pre ++ m :: post))
    = Some {| Gemini.si_parts := [Gemini.Text (Some (systemText h (content m)))] |}
  /\ Gemini.contents (convertToGeminiFormat h (pre ++ m :: post))
     = Gemini.contents
         (convertToGeminiFormat h
            (filter (fun x => negb (String.eqb (role x) "system")) (pre ++ m :: post)))
  /\ Forall (fun x => role x <> "system")
       (filter (fun x => negb (String.eqb (role x) "system")) (pre ++ m :: post)).
Proof.
  intros Hm Hpost. split; [| split].
  - apply gemini_last_system; [now apply isSystem_role |].
    eapply Forall_impl; [| exact Hpost]. intros a. apply isSystem_false_role.
  - unfold convertToGeminiFormat. rewrite !gemini_fold_contents. simpl.
    now rewrite geminiKept_filter.
  - apply Forall_forall. intros x Hin. apply filter_In in Hin.
    destruct Hin as [_ Hx]. apply negb_true_iff in Hx. now apply String.eqb_neq.
Qed.

End Translators.

Lemma convertToGeminiFormat_turns_witness :
  Gemini.contents
    (convertToGeminiFormat (demoHost (fun _ => 0%Z))
       [systemMsg "Be terse"; userMsg "Hi";
        {| role := "assistant"; content := ContentString "Yo" |};
        {| role := "tool"; content := ContentArray [] |}])
  = [ {| Gemini.role := "user"; Gemini.parts := [Gemini.Text (Some "Hi")] |};
      {| Gemini.role := "model"; Gemini.parts := [Gemini.Text (Some "Yo")] |} ]
  /\ Gemini.systemInstruction
       (convertToGeminiFormat (demoHost (fun _ => 0%Z))
          [systemMsg "Be terse"; userMsg "Hi";
           {| role := "assistant"; content := ContentString "Yo" |};
           {| role := "tool"; content := ContentArray [] |}])
     = Some {| Gemini.si_parts := [Gemini.Text (Some "Be terse")] |}.
Proof.
  pose proof (convertToGeminiFormat_turns (demoHost (fun _ => 0%Z))
                [systemMsg "Be terse"; userMsg "Hi";
                 {| role := "assistant"; content := ContentString "Yo" |};
                 {| role := "tool"; content := ContentArray [] |}])
    as (Hc & _ & _ & _ & _ & _ & _ & Hs).
  split.
  - exact Hc.
  - exact (proj1 (Hs [] (systemMsg "Be terse")
                    [userMsg "Hi";
                     {| role := "assistant"; content := ContentString "Yo" |};
                     {| role := "tool"; content := ContentArray [] |}]
                    eq_refl eq_refl
                    ltac:(repeat constructor; simpl; discriminate))
             "Be terse" eq_refl).
Defined.

Lemma convertToGeminiFormat_last_system_wins_witness :
  Gemini.systemInstruction
    (convertToGeminiFormat (demoHost (fun _ => 0%Z))
       ([systemMsg "A"; userMsg "hi"] ++ systemMsg "B" :: [userMsg "there"]))
  = Some {| Gemini.si_parts := [Gemini.Text (Some "B")] |}.
Proof.
  apply (proj1 (convertToGeminiFormat_last_system_wins (demoHost (fun _ => 0%Z))
                  [systemMsg "A"; userMsg "hi"] [userMsg "there"] (systemMsg "B")
                  eq_refl
                  ltac:(repeat constructor; simpl; discriminate))).
Defined.

Section ClaudeTranslator.

Variable h : Host.

Lemma claudeStep_system (acc : Claude.Result) (m : Message) :
  isSystem m = true ->
  claudeStep h acc m =
    {| Claude.messages := Claude.messages acc;
       Claude.system := sysAppend (Claude.system acc) (systemText h (content m)) |}.
Proof. unfold isSystem, claudeStep. now intros ->. Qed.

Lemma claudeStep_turn (acc : Claude.Result) (m : Message) :
  isSystem m = false ->
  claudeStep h acc m =
    {| Claude.messages :=
         Claude.messages acc ++ (if claudeKept m then [claudeMsg m] else []);
       Claude.system := Claude.system acc |}.
Proof.
  unfold isSystem, claudeStep, claudeKept, claudeMsg, isSystem. intros ->.
  rewrite ltb_length_nonempty. simpl.
  destruct (claudeParts (content m)); [| reflexivity].
  rewrite app_nil_r. now destruct acc.
Qed.

Lemma claude_fold (msgs : list Message) (acc : Claude.Result) :
  fold_left (claudeStep h) msgs acc =
    {| Claude.messages := Claude.messages acc ++ map claudeMsg (filter claudeKept msgs);
       Claude.system := fold_left sysAppend (systemTexts h msgs) (Claude.system acc) |}.
Proof.
  revert acc. induction msgs as [| m msgs IH]; intros acc.
  - simpl. rewrite app_nil_r. now destruct acc.
  - simpl fold_left at 1. rewrite IH. unfold systemTexts. simpl filter.
    destruct (isSystem m) eqn:Hs.
    + rewrite (claudeStep_system _ _ Hs). simpl.
      unfold claudeKept at 2. rewrite Hs. reflexivity.
    + rewrite (claudeStep_turn _ _ Hs). simpl.
      unfold claudeKept at 3. rewrite Hs. simpl.
      destruct (claudeKept m) eqn:Hk.
      * unfold claudeKept in Hk. rewrite Hs in Hk. simpl in Hk. rewrite Hk.
        simpl. now rewrite <- app_assoc.
      * unfold claudeKept in Hk. rewrite Hs in Hk. simpl in Hk. rewrite Hk.
        now rewrite app_nil_r.
Qed.

End ClaudeTranslator.

Local Open Scope string_scope.

Lemma join_cons (sep x : string) (xs : list string) :
  Js.join sep (x :: xs) =
    x ++ match xs with [] => EmptyString | _ => sep ++ Js.join sep xs end.
Proof. destruct xs; simpl; [now rewrite append_nil_r | reflexivity]. Qed.

Lemma join_blankPrefixed (x : string) (xs : list string) :
  Js.join blankLine (x :: xs) = x ++ blankPrefixed xs.
Proof.
  revert x. induction xs as [| y ys IH]; intros x.
  - simpl. now rewrite append_nil_r.
  - rewrite join_cons. rewrite IH. simpl blankPrefixed.
    rewrite ?append_assoc; reflexivity.
Qed.

Lemma sysFold_truthy (xs : list string) (acc : string) :
  Js.truthy acc = true ->
  fold_left sysAppend xs acc = acc ++ blankPrefixed xs.
Proof.
  revert acc. induction xs as [| x xs IH]; intros acc Hacc; simpl.
  - now rewrite append_nil_r.
  - rewrite IH.
    + unfold sysAppend. rewrite Hacc. rewrite ?append_assoc; reflexivity.
    + unfold sysAppend. now apply truthy_append_l.
Qed.

Lemma sysFold_empty (xs : list string) :
  fold_left sysAppend xs EmptyString = Js.join blankLine (dropLeadingEmpty xs).
Proof.
  induction xs as [| x xs IH]; [reflexivity |].
  destruct x as [| c x].
  - simpl. exact IH.
  - change (dropLeadingEmpty (String c x :: xs)) with (String c x :: xs).
    change (fold_left sysAppend (String c x :: xs) EmptyString)
      with (fold_left sysAppend xs (String c x)).
    rewrite sysFold_truthy by reflexivity.
    now rewrite join_blankPrefixed.
Qed.

Local Open Scope list_scope.

(** C6, as the code has it. For every message list the Claude
    translator puts into [system] the contents of the system messages in
    encounter order, a blank line before a content exactly when the
    text gathered so far is not empty: it is the blank-line separated
    concatenation of the system contents from the first non-empty one
    on, and of all of them when the first is not empty.  System
    messages give no turn; every other message keeps its role, has its
    content converted to typed parts, and is dropped when that yields
    nothing.  A system message "Be terse" and one user message give
    system "Be terse" and the single user turn with one text part. *)
Theorem convertToClaudeFormat_system_and_turns (h : Host) (msgs : list Message) :
  Claude.system (convertToClaudeFormat h msgs)
    = Js.join blankLine (dropLeadingEmpty (systemTexts h msgs))
  /\ (forall x xs, systemTexts h msgs = x :: xs -> x <> EmptyString ->
        Claude.system (convertToClaudeFormat h msgs)
          = Js.join blankLine (systemTexts h msgs))
  /\ Claude.messages (convertToClaudeFormat h msgs) = map claudeMsg (filter claudeKept msgs)
  /\ (forall m, claudeKept m = true
                <-> (role m <> "system" /\ claudeParts (content m) <> []))
  /\ (forall m, Claude.role (claudeMsg m) = role m)
  /\ (forall m s, content m = ContentString s ->
                  Claude.content (claudeMsg m) = [Claude.Text (Some s)])
  /\ (forall u, convertToClaudeFormat h [systemMsg "Be terse"; userMsg u]
                = {| Claude.messages :=
                       [ {| Claude.role := "user"; Claude.content := [Claude.Text (Some u)] |} ];
                     Claude.system := "Be terse" |}).
Proof.
  assert (Hsys : Claude.system (convertToClaudeFormat h msgs)
                 = Js.join blankLine (dropLeadingEmpty (systemTexts h msgs))).
  { unfold convertToClaudeFormat. rewrite claude_fold. simpl. apply sysFold_empty. }
  split; [exact Hsys |]. split.
  { intros x xs Heq Hx. rewrite Hsys, Heq. destruct x; [now destruct Hx | reflexivity]. }
  split.
  { unfold convertToClaudeFormat. now rewrite claude_fold. }
  split.
  { intros m. unfold claudeKept. rewrite andb_true_iff, negb_true_iff, isSystem_false_role.
    destruct (claudeParts (content m)); split; intros [H1 H2];
      split; try assumption; try discriminate; try reflexivity.
    now destruct H2. }
  split; [reflexivity |].
  split; [intros m s Hs; unfold claudeMsg; simpl; now rewrite Hs |].
  reflexivity.
Qed.

Lemma convertToClaudeFormat_system_and_turns_witness :
  Claude.system
    (convertToClaudeFormat (demoHost (fun _ => 0%Z))
       [systemMsg "Be terse"; userMsg "hi"; systemMsg "Use French"])
  = ("Be terse" ++ blankLine ++ "Use French")%string.
Proof.
  apply (proj1 (proj2 (convertToClaudeFormat_system_and_turns (demoHost (fun _ => 0%Z))
                  [systemMsg "Be terse"; userMsg "hi"; systemMsg "Use French"]))
           "Be terse" ["Use French"] eq_refl ltac:(discriminate)).
Defined.

(** C6 as stated fails: the blank-line separated concatenation of the
    system contents "" and "A" begins with the blank line, the
    translator's [system] is "A". *)
Lemma convertToClaudeFormat_leading_empty_system :
  Claude.system
    (convertToClaudeFormat (demoHost (fun _ => 0%Z)) [systemMsg EmptyString; systemMsg "A"])
  = "A"
  /\ Js.join blankLine
       (systemTexts (demoHost (fun _ => 0%Z)) [systemMsg EmptyString; systemMsg "A"])
     = (blankLine ++ "A")%string
  /\ Claude.system
       (convertToClaudeFormat (demoHost (fun _ => 0%Z)) [systemMsg EmptyString; systemMsg "A"])
     <> Js.join blankLine
          (systemTexts (demoHost (fun _ => 0%Z)) [systemMsg EmptyString; systemMsg "A"]).
Proof. repeat split; try reflexivity. discriminate. Qed.

(* ================================================================== *)
(** * Image items *)
(* ================================================================== *)

Lemma split_first_comma (s : string) :
  Js.split ","%char s =
    fst (splitFirstComma s)
    :: match snd (splitFirstComma s) with
       | Some p => Js.split ","%char p
       | None => []
       end.
Proof.
  induction s as [| c s IH]; [reflexivity |].
  simpl. destruct (Ascii.eqb c ","%char); [reflexivity |].
  rewrite IH. now destruct (splitFirstComma s).
Qed.

Lemma splitDataUrl_segments (u : string) :
  splitDataUrl u = (fst (splitFirstComma u), secondSegment u).
Proof.
  unfold splitDataUrl, secondSegment. rewrite split_first_comma. simpl.
  destruct (snd (splitFirstComma u)) as [p |]; [| reflexivity].
  now rewrite split_first_comma.
Qed.

Lemma splitFirstComma_no_comma (p : string) :
  Js.includes p "," = false -> splitFirstComma p = (p, None).
Proof.
  induction p as [| c p IH]; [reflexivity |].
  rewrite includes_char_cons. intros H. apply orb_false_elim in H.
  destruct H as [Hc Hp]. rewrite Ascii.eqb_sym in Hc.
  cbn [splitFirstComma]. rewrite Hc. now rewrite (IH Hp).
Qed.

Lemma takeNotSemicolon_stop (m rest : string) :
  Js.includes m ";" = false ->
  takeNotSemicolon (m ++ String ";"%char rest) = m.
Proof.
  induction m as [| c m IH]; [reflexivity |].
  rewrite includes_char_cons. intros H. apply orb_false_elim in H.
  destruct H as [Hc Hm]. rewrite Ascii.eqb_sym in Hc.
  cbn [takeNotSemicolon append]. rewrite Hc. now rewrite (IH Hm).
Qed.

Lemma takeNotSemicolon_all (m : string) :
  Js.includes m ";" = false -> takeNotSemicolon m = m.
Proof.
  induction m as [| c m IH]; [reflexivity |].
  rewrite includes_char_cons. intros H. apply orb_false_elim in H.
  destruct H as [Hc Hm]. rewrite Ascii.eqb_sym in Hc.
  cbn [takeNotSemicolon]. rewrite Hc. now rewrite (IH Hm).
Qed.

Lemma matchDataMime_head (x : string) :
  Js.truthy (takeNotSemicolon x) = true ->
  matchDataMime ("data:" ++ x) = Some (takeNotSemicolon x).
Proof.
  intros H.
  assert (Hs : Js.sliceFrom ("data:" ++ x) 5 = x) by apply (sliceFrom_append "data:" x).
  assert (Hp : Js.startsWith ("data:" ++ x) "data:" = true) by apply prefix_append.
  change (matchDataMime ("data:" ++ x))
    with (if Js.startsWith ("data:" ++ x) "data:"
             && Js.truthy (takeNotSemicolon (Js.sliceFrom ("data:" ++ x) 5))
          then Some (takeNotSemicolon (Js.sliceFrom ("data:" ++ x) 5))
          else matchDataMime ("ata:" ++ x)).
  now rewrite Hp, Hs, H.
Qed.

Lemma geminiItemParts_image (item : Item) (u : string) :
  item_type item = "image_url" ->
  itemUrl item = Some u ->
  geminiItemParts item =
    if Js.truthy u && Js.startsWith u "data:"
    then [Gemini.InlineData (mimeOfHeader (fst (splitDataUrl u))) (snd (splitDataUrl u))]
    else [].
Proof.
  intros Hty Hurl. unfold geminiItemParts. rewrite Hty, Hurl.
  change (String.eqb "image_url" "text") with false.
  change (String.eqb "image_url" "image_url") with true.
  cbn [Js.truthyOpt andb].
  destruct (Js.truthy u); [| reflexivity].
  destruct (Js.startsWith u "data:"); [| reflexivity].
  now destruct (splitDataUrl u).
Qed.

Lemma claudeItemParts_image (item : Item) (u : string) :
  item_type item = "image_url" ->
  itemUrl item = Some u ->
  claudeItemParts item =
    if Js.truthy u && Js.startsWith u "data:"
    then [Claude.Image (mimeOfHeader (fst (splitDataUrl u))) (snd (splitDataUrl u))]
    else [].
Proof.
  intros Hty Hurl. unfold claudeItemParts. rewrite Hty, Hurl.
  change (String.eqb "image_url" "text") with false.
  change (String.eqb "image_url" "image_url") with true.
  cbn [Js.truthyOpt andb].
  destruct (Js.truthy u); [| reflexivity].
  destruct (Js.startsWith u "data:"); [| reflexivity].
  now destruct (splitDataUrl u).
Qed.

(** What both converters make of an image item. An image item whose URL
    starts with "data:" gives exactly one inline base64 part: the
    header is the text before the first comma, the mime type is what
    the pattern captures in the header (image/png when it matches
    nowhere), and the payload is the text between the first and the
    second comma, which is all that follows the first comma when no
    other comma follows, and is absent when the URL has no comma.  An
    image item whose URL does not start with "data:" gives no part. *)
Theorem image_item_conversion (item : Item) (u : string) :
  item_type item = "image_url" ->
  itemUrl item = Some u ->
  (Js.startsWith u "data:" = true ->
     geminiItemParts item
       = [Gemini.InlineData (mimeOfHeader (fst (splitFirstComma u))) (secondSegment u)]
     /\ claudeItemParts item
        = [Claude.Image (mimeOfHeader (fst (splitFirstComma u))) (secondSegment u)])
  /\ (Js.startsWith u "data:" = false ->
        geminiItemParts item = [] /\ claudeItemParts item = [])
  /\ (forall p, snd (splitFirstComma u) = Some p -> Js.includes p "," = false ->
        secondSegment u = Some p)
  /\ (snd (splitFirstComma u) = None -> secondSegment u = None)
  /\ (forall header, matchDataMime header = None -> mimeOfHeader header = "image/png")
  /\ (forall m rest, m <> EmptyString -> Js.includes m ";" = false ->
        mimeOfHeader ("data:" ++ m ++ String ";"%char rest) = m
        /\ mimeOfHeader ("data:" ++ m) = m).
Proof.
  intros Hty Hurl.
  assert (Hne : forall x, Js.startsWith x "data:" = true -> Js.truthy x = true).
  { intros x Hx. destruct x; [discriminate | reflexivity]. }
  split; [| split; [| split; [| split; [| split]]]].
  - intros Hd.
    rewrite (geminiItemParts_image _ _ Hty Hurl), (claudeItemParts_image _ _ Hty Hurl).
    rewrite (Hne u Hd), Hd, splitDataUrl_segments. split; reflexivity.
  - intros Hd.
    rewrite (geminiItemParts_image _ _ Hty Hurl), (claudeItemParts_image _ _ Hty Hurl).
    rewrite Hd, andb_false_r. split; reflexivity.
  - intros p Hp Hno. unfold secondSegment. rewrite Hp.
    now rewrite (splitFirstComma_no_comma p Hno).
  - intros Hn. unfold secondSegment. now rewrite Hn.
  - intros header Hn. unfold mimeOfHeader. now rewrite Hn.
  - intros m rest Hm Hno.
    assert (Ht : Js.truthy m = true) by (destruct m; [now destruct Hm | reflexivity]).
    unfold mimeOfHeader. split.
    + rewrite matchDataMime_head; rewrite (takeNotSemicolon_stop m rest Hno); trivial.
    + rewrite matchDataMime_head; rewrite (takeNotSemicolon_all m Hno); trivial.
Qed.

Lemma image_item_conversion_witness :
  geminiItemParts (imageItem "data:image/jpeg;base64,QUJD")
    = [Gemini.InlineData "image/jpeg" (Some "QUJD")]
  /\ claudeItemParts (imageItem "data:image/jpeg;base64,QUJD")
     = [Claude.Image "image/jpeg" (Some "QUJD")].
Proof.
  exact (proj1 (image_item_conversion (imageItem "data:image/jpeg;base64,QUJD")
                  "data:image/jpeg;base64,QUJD" eq_refl eq_refl) eq_refl).
Defined.

(** C7. The converters at the URL
    "data:image/svg+xml,<svg viewBox='0,0,8,8'/>", which starts with
    "data:": a split on its first comma has the payload
    "<svg viewBox='0,0,8,8'/>", and both converters emit the data
    "<svg viewBox='0", the text up to the second comma, because
    [split(',')] cuts at every comma and the destructuring keeps the
    first two pieces. *)
Lemma image_item_second_comma :
  snd (splitFirstComma "data:image/svg+xml,<svg viewBox='0,0,8,8'/>")
  = Some "<svg viewBox='0,0,8,8'/>"
  /\ geminiItemParts (imageItem "data:image/svg+xml,<svg viewBox='0,0,8,8'/>")
     = [Gemini.InlineData "image/svg+xml" (Some "<svg viewBox='0")]
  /\ claudeItemParts (imageItem "data:image/svg+xml,<svg viewBox='0,0,8,8'/>")
     = [Claude.Image "image/svg+xml" (Some "<svg viewBox='0")]
  /\ geminiItemParts (imageItem "data:image/svg+xml,<svg viewBox='0,0,8,8'/>")
     <> [Gemini.InlineData "image/svg+xml"
           (snd (splitFirstComma "data:image/svg+xml,<svg viewBox='0,0,8,8'/>"))]
  /\ claudeItemParts (imageItem "data:image/svg+xml,<svg viewBox='0,0,8,8'/>")
     <> [Claude.Image "image/svg+xml"
           (snd (splitFirstComma "data:image/svg+xml,<svg viewBox='0,0,8,8'/>"))].
Proof. repeat split; try reflexivity; discriminate. Qed.

(* ================================================================== *)
(** * The system message of [callAPI] *)
(* ================================================================== *)

Local Open Scope string_scope.

Lemma expandReplacement_plain (matched before after repl : string) :
  Js.includes repl "$" = false ->
  expandReplacement matched before after repl = repl.
Proof.
  induction repl as [| d r IH]; [reflexivity |].
  rewrite includes_char_cons. intros H. apply orb_false_elim in H.
  destruct H as [Hd Hr]. rewrite Ascii.eqb_sym in Hd.
  cbn [expandReplacement]. rewrite Hd. now rewrite (IH Hr).
Qed.

Lemma replaceFrom_skip (x before rest repl : string) :
  replaceFrom (String.length x) before (x ++ rest) repl
  = replaceFrom 0 (before ++ x) rest repl.
Proof.
  revert before. induction x as [| c x IH]; intros before.
  - simpl. now rewrite append_nil_r.
  - cbn [String.length append replaceFrom]. rewrite IH.
    now rewrite append_assoc.
Qed.

Lemma replaceFrom_match (before rest repl : string) :
  replaceFrom 0 before (placeholder ++ rest) repl
  = expandReplacement placeholder before rest repl
    ++ replaceFrom 0 (before ++ placeholder) rest repl.
Proof.
  assert (Hp : Js.startsWith (placeholder ++ rest) placeholder = true)
    by apply prefix_append.
  assert (Hs : Js.sliceFrom (placeholder ++ rest) (String.length placeholder) = rest)
    by apply sliceFrom_append.
  change (placeholder ++ rest) with (String "{"%char ("{userLanguage}}" ++ rest)) in *.
  cbn [replaceFrom]. rewrite Hp, Hs. f_equal.
  change (String.length placeholder - 1) with (String.length "{userLanguage}}").
  rewrite replaceFrom_skip. now rewrite append_assoc.
Qed.

Lemma replaceFrom_no_match (c : ascii) (before s repl : string) :
  Js.startsWith (String c s) placeholder = false ->
  replaceFrom 0 before (String c s) repl
  = String c (replaceFrom 0 (before ++ String c EmptyString) s repl).
Proof. intros H. cbn [replaceFrom]. now rewrite H. Qed.

Lemma replaceFrom_free (s before repl : string) :
  Js.includes s placeholder = false -> replaceFrom 0 before s repl = s.
Proof.
  revert before. induction s as [| c s IH]; intros before; [reflexivity |].
  rewrite includes_cons. intros H. apply orb_false_elim in H.
  destruct H as [Hh Ht]. rewrite (replaceFrom_no_match _ _ _ _ Hh).
  now rewrite (IH _ Ht).
Qed.

Lemma append_eq_append (a b c d : string) :
  a ++ b = c ++ d ->
  (exists e, a = c ++ e /\ d = e ++ b) \/ (exists e, c = a ++ e /\ b = e ++ d).
Proof.
  revert c. induction a as [| x a IH]; intros c H.
  - right. exists c. simpl in H. auto.
  - destruct c as [| y c].
    + left. exists (String x a). simpl in H. auto.
    + simpl in H. injection H as -> H.
      destruct (IH c H) as [[e [-> ->]] | [e [-> ->]]].
      * left. now exists e.
      * right. now exists e.
Qed.

(** The placeholder does not overlap itself: after a text without the
    placeholder, the placeholder that follows is the first one. *)
Lemma placeholder_first (s rest : string) :
  s <> EmptyString ->
  Js.includes s placeholder = false ->
  Js.startsWith (s ++ placeholder ++ rest) placeholder = false.
Proof.
  intros Hne Hfree.
  destruct (Js.startsWith (s ++ placeholder ++ rest) placeholder) eqn:Hp; [| reflexivity].
  exfalso. apply prefix_inv in Hp. destruct Hp as [r Hr].
  apply append_eq_append in Hr.
  destruct Hr as [[e [-> _]] | [e [H1 H2]]].
  - rewrite includes_startsWith in Hfree; [discriminate Hfree |].
    apply prefix_append.
  - unfold placeholder in H1, H2.
    repeat (destruct s as [| ? s];
            [ first [ now destruct Hne
                    | subst e; simpl in H2; discriminate H2
                    | simpl in H1; subst e; simpl in H2; discriminate H2 ]
            | simpl in H1; first [ discriminate H1 | injection H1 as <- H1 ];
              clear Hne; assert (Hne : True) by exact I ]).
    all: try (simpl in H1; destruct s; simpl in H1; try discriminate H1;
              vm_compute in Hfree; discriminate Hfree).
Qed.

Lemma replaceFrom_segment (s before rest repl : string) :
  Js.includes s placeholder = false ->
  replaceFrom 0 before (s ++ placeholder ++ rest) repl
  = s ++ expandReplacement placeholder (before ++ s) rest repl
      ++ replaceFrom 0 (before ++ s ++ placeholder) rest repl.
Proof.
  revert before. induction s as [| c s IH]; intros before Hfree.
  - cbn [append]. rewrite replaceFrom_match. now rewrite append_nil_r.
  - assert (Hhead : Js.startsWith (String c s ++ placeholder ++ rest) placeholder = false)
      by (apply placeholder_first; [discriminate | exact Hfree]).
    rewrite includes_cons in Hfree. apply orb_false_elim in Hfree.
    destruct Hfree as [_ Hfree].
    cbn [append] in *. rewrite (replaceFrom_no_match _ _ _ _ Hhead).
    rewrite (IH _ Hfree). now rewrite !append_assoc.
Qed.

(** Every occurrence of the placeholder is replaced: a prompt made of
    pieces without the placeholder, joined by the placeholder, becomes
    the same pieces joined by the replacement (a text without [$]). *)
Lemma replaceFrom_join (segs : list string) (before tag : string) :
  Js.includes tag "$" = false ->
  Forall (fun seg => Js.includes seg placeholder = false) segs ->
  replaceFrom 0 before (Js.join placeholder segs) tag = Js.join tag segs.
Proof.
  intros Htag Hsegs. revert before.
  induction Hsegs as [| x xs Hx Hxs IH]; intros before; [reflexivity |].
  destruct xs as [| y ys].
  - cbn [Js.join]. now apply replaceFrom_free.
  - change (Js.join placeholder (x :: y :: ys))
      with (x ++ placeholder ++ Js.join placeholder (y :: ys)).
    change (Js.join tag (x :: y :: ys)) with (x ++ tag ++ Js.join tag (y :: ys)).
    rewrite (replaceFrom_segment _ _ _ _ Hx).
    rewrite (expandReplacement_plain _ _ _ _ Htag).
    now rewrite IH.
Qed.

Lemma prefix_append_l (p a b : string) :
  prefix p a = true -> prefix p (a ++ b) = true.
Proof.
  intros H. apply prefix_inv in H. destruct H as [x ->].
  rewrite append_assoc. apply prefix_append.
Qed.

(** A text either has no placeholder or splits at its first one. *)
Lemma first_placeholder (s : string) :
  Js.includes s placeholder = false
  \/ exists a b, s = a ++ placeholder ++ b /\ Js.includes a placeholder = false.
Proof.
  induction s as [| c s IH].
  - left. reflexivity.
  - destruct (Js.startsWith (String c s) placeholder) eqn:Hp.
    + right. apply prefix_inv in Hp. destruct Hp as [b Hb].
      exists EmptyString, b. split; [exact Hb | reflexivity].
    + destruct IH as [Hfree | (a & b & -> & Ha)].
      * left. rewrite includes_cons, Hp. exact Hfree.
      * right. exists (String c a), b. split; [reflexivity |].
        rewrite includes_cons, Ha, orb_false_r.
        destruct (Js.startsWith (String c a) placeholder) eqn:E; [| reflexivity].
        unfold Js.startsWith in *.
        apply (prefix_append_l _ _ (placeholder ++ b)) in E.
        cbn [append] in E. rewrite E in Hp. discriminate.
Qed.

(** Every text is a list of pieces without the placeholder, joined by
    the placeholder. *)
Lemma placeholder_pieces (s : string) :
  exists segs,
    segs <> nil
    /\ Forall (fun seg => Js.includes seg placeholder = false) segs
    /\ s = Js.join placeholder segs.
Proof.
  assert (H : forall n s, String.length s <= n ->
              exists segs,
                segs <> nil
                /\ Forall (fun seg => Js.includes seg placeholder = false) segs
                /\ s = Js.join placeholder segs).
  { clear s. induction n as [| n IH]; intros s Hn.
    - destruct s; [| simpl in Hn; lia].
      exists (cons EmptyString nil). repeat split; [discriminate | now repeat constructor].
    - destruct (first_placeholder s) as [Hfree | (a & b & -> & Ha)].
      + exists (cons s nil). repeat split; [discriminate | now repeat constructor].
      + destruct (IH b) as (segs & Hne & Hall & ->).
        { rewrite !length_append in Hn. simpl in Hn. lia. }
        exists (cons a segs). split; [discriminate |]. split; [now constructor |].
        destruct segs as [| x xs]; [now destruct Hne | reflexivity]. }
  apply (H (String.length s)). reflexivity.
Qed.

Lemma trimEnd_truthy (s : string) : Js.truthy (Js.trimEnd s) = hasNonWhiteSpace s.
Proof.
  induction s as [| c s IH]; [reflexivity |].
  cbn [Js.trimEnd hasNonWhiteSpace]. rewrite <- IH.
  destruct (Js.trimEnd s); cbn [Js.truthy].
  - destruct (Js.isWhiteSpace c); reflexivity.
  - now rewrite orb_true_r.
Qed.

Lemma trimStart_nonWhiteSpace (s : string) :
  hasNonWhiteSpace (Js.trimStart s) = hasNonWhiteSpace s.
Proof.
  induction s as [| c s IH]; [reflexivity |].
  cbn [Js.trimStart hasNonWhiteSpace].
  destruct (Js.isWhiteSpace c) eqn:E; [exact IH |].
  cbn [hasNonWhiteSpace]. now rewrite E.
Qed.

(** Non-blank after trimming: some character is not white space. *)
Lemma trim_truthy (s : string) : Js.truthy (Js.trim s) = hasNonWhiteSpace s.
Proof. unfold Js.trim. now rewrite trimEnd_truthy, trimStart_nonWhiteSpace. Qed.

Local Open Scope list_scope.

(** What [callAPI] returns, when it returns. *)
Lemma callAPI_returns (h : Host) (p : Params) (prep : Prepared) :
  callAPI h p = inr prep ->
  exists cfg u,
    apiConfig p = Some cfg
    /\ normalizeChatCompletionsUrl h (baseUrl cfg) = Some u
    /\ Js.truthy u = true
    /\ Js.truthyOpt (apiKey cfg) = true
    /\ processedMessages prep
       = prepareMessages h cfg (userLanguage p) (webpageInfo p) (messages p)
    /\ format prep = detectApiFormat u (apiFormat cfg)
    /\ body prep = requestBody h cfg (format prep) (processedMessages prep)
    /\ sink prep = hasSink p
    /\ streamOptions prep = options p
    /\ callEffects prep = [NewAbortController]
    /\ requestUrl prep
       = (if String.eqb (format prep) "gemini" then
            URL_withParams h
              (geminiRequestUrl u (orDefault (modelName cfg) "gemini-1.5-flash"))
              [("key", match apiKey cfg with Some k => k | None => EmptyString end);
               ("alt", "sse")]
          else if String.eqb (format prep) "claude" then claudeRequestUrl u
          else u)
    /\ (format prep = "gemini" ->
        URL_canParse h
          (geminiRequestUrl u (orDefault (modelName cfg) "gemini-1.5-flash")) = true).
Proof.
  unfold callAPI. destruct (apiConfig p) as [cfg |] eqn:Hc; [| discriminate].
  destruct (normalizeChatCompletionsUrl h (baseUrl cfg)) as [u |] eqn:Hn; [| discriminate].
  destruct (Js.truthy u) eqn:Hu; [| discriminate].
  destruct (Js.truthyOpt (apiKey cfg)) eqn:Hk; [| discriminate].
  cbn [andb]. intros H. exists cfg, u.
  split; [reflexivity |]. split; [exact Hn |]. split; [exact Hu |]. split; [exact Hk |].
  destruct (String.eqb (detectApiFormat u (apiFormat cfg)) "gemini") eqn:Eg.
  - destruct (URL_canParse h
                (geminiRequestUrl u (orDefault (modelName cfg) "gemini-1.5-flash")))
      eqn:Ec; [| discriminate].
    injection H as <-.
    cbn [processedMessages format body sink streamOptions callEffects requestUrl].
    rewrite Eg. repeat match goal with |- _ /\ _ => split; [reflexivity |] end.
    intros _. reflexivity.
  - destruct (String.eqb (detectApiFormat u (apiFormat cfg)) "claude") eqn:Ecl;
      injection H as <-;
      cbn [processedMessages format body sink streamOptions callEffects requestUrl];
      rewrite Eg, ?Ecl;
      repeat match goal with |- _ /\ _ => split; [reflexivity |] end;
      intros Hg; rewrite Hg in Eg; discriminate.
Qed.

(** C8. When the language tag has no dollar sign, the system message
    [callAPI] composes has every occurrence of the user-language
    placeholder of the configured prompt replaced by the tag: the
    prompt is a list of pieces without the placeholder joined by the
    placeholder, and the message has the same pieces joined by the tag,
    followed by the rendered pages.  Whatever the tag, [callAPI] puts
    the message in front of the processed messages if and only if its
    content has a character that is not white space and the list is
    empty or does not begin with a system message; otherwise the
    processed messages are passed on as they are. *)
Theorem system_message_composition
  (h : Host) (cfg : APIConfig) (lang : string)
  (info : option WebpageInfo) (history : list StoredMessage) :
  (Js.includes lang "$" = false ->
   (forall segs,
      Forall (fun seg => Js.includes seg placeholder = false) segs ->
      configuredPrompt cfg = Js.join placeholder segs ->
      systemMessage h cfg lang info
      = {| role := "system";
           content := ContentString
                        (Js.join lang segs ++ renderWebpages h info) |})
   /\ (exists segs,
         Forall (fun seg => Js.includes seg placeholder = false) segs
         /\ configuredPrompt cfg = Js.join placeholder segs
         /\ content (systemMessage h cfg lang info)
            = ContentString (Js.join lang segs ++ renderWebpages h info)))
  /\ (forall c, content (systemMessage h cfg lang info) = ContentString c ->
      ((hasNonWhiteSpace c = true
        /\ (history = []
            \/ exists first rest,
                 history = first :: rest /\ stored_role first <> "system"))
       <-> prepareMessages h cfg lang info history
           = systemMessage h cfg lang info :: map stripTransient history)
      /\ (~ (hasNonWhiteSpace c = true
             /\ (history = []
                 \/ exists first rest,
                      history = first :: rest /\ stored_role first <> "system"))
          <-> prepareMessages h cfg lang info history
              = map stripTransient history))
  /\ (forall p prep,
        apiConfig p = Some cfg ->
        callAPI h p = inr prep ->
        processedMessages prep
        = prepareMessages h cfg (userLanguage p) (webpageInfo p) (messages p)).
Proof.
  split; [| split].
  - intros Htag. split.
    + intros segs Hsegs Hprompt. unfold systemMessage, replaceUserLanguage.
      rewrite Hprompt. now rewrite (replaceFrom_join _ _ _ Htag Hsegs).
    + destruct (placeholder_pieces (configuredPrompt cfg)) as (segs & _ & Hall & Heq).
      exists segs. split; [exact Hall |]. split; [exact Heq |].
      unfold systemMessage, replaceUserLanguage. cbn [content]. rewrite Heq at 1.
      now rewrite (replaceFrom_join _ _ _ Htag Hall).
  - intros c Hc.
    assert (Hprep : prepareMessages h cfg lang info history
                    = if shouldPrepend c (map stripTransient history)
                      then systemMessage h cfg lang info
                           :: map stripTransient history
                      else map stripTransient history).
    { unfold prepareMessages. now rewrite Hc. }
    assert (Hcond : shouldPrepend c (map stripTransient history) = true
                    <-> (hasNonWhiteSpace c = true
                         /\ (history = []
                             \/ exists first rest,
                                  history = first :: rest
                                  /\ stored_role first <> "system"))).
    { unfold shouldPrepend. rewrite andb_true_iff, trim_truthy.
      destruct history as [| m ms]; simpl.
      - intuition.
      - rewrite negb_true_iff, String.eqb_neq. split.
        + intros [H1 H2]. split; [exact H1 |]. right. now exists m, ms.
        + intros [H1 [H2 | (first & rest & [= -> ->] & H3)]];
            [discriminate | now split]. }
    assert (Hlen : forall (x : Message) l, x :: l <> l).
    { intros x l H. apply (f_equal (@List.length Message)) in H. simpl in H. lia. }
    rewrite Hprep. destruct (shouldPrepend c (map stripTransient history)) eqn:E.
    + assert (Hyes : hasNonWhiteSpace c = true
                     /\ (history = []
                         \/ exists first rest,
                              history = first :: rest /\ stored_role first <> "system"))
        by (apply Hcond; reflexivity).
      split; split.
      * intros _. reflexivity.
      * intros _. exact Hyes.
      * intros Hn. destruct (Hn Hyes).
      * intros H. destruct (Hlen _ _ H).
    + assert (Hno : ~ (hasNonWhiteSpace c = true
                       /\ (history = []
                           \/ exists first rest,
                                history = first :: rest /\ stored_role first <> "system")))
        by (intros H; apply Hcond in H; discriminate).
      split; split.
      * intros H. destruct (Hno H).
      * intros H. symmetry in H. destruct (Hlen _ _ H).
      * intros _. reflexivity.
      * intros _. exact Hno.
  - intros p prep Hcfg Hcall.
    destruct (callAPI_returns h p prep Hcall) as (cfg' & u & Hcfg' & _ & _ & _ & Hp & _).
    rewrite Hcfg in Hcfg'. injection Hcfg' as <-. exact Hp.
Qed.

Lemma system_message_composition_witness :
  systemMessage (demoHost (fun _ => 0%Z))
    (configWithPrompt "Reply in {{userLanguage}}. Be brief ({{userLanguage}}).") "en-US" None
  = {| role := "system";
       content := ContentString "Reply in en-US. Be brief (en-US)." |}.
Proof.
  exact (proj1 (proj1 (system_message_composition (demoHost (fun _ => 0%Z))
                         (configWithPrompt
                            "Reply in {{userLanguage}}. Be brief ({{userLanguage}}).")
                         "en-US" None [])
                  eq_refl)
           ["Reply in "; ". Be brief ("; ")."]
           ltac:(repeat constructor) eq_refl).
Defined.

(** C8 as stated fails: for the prompt "Reply in {{userLanguage}}." and
    the language tag "$&" the composed message is not the prompt with
    the placeholder replaced by the tag; [replace] reads "$&" in its
    second argument as the matched text, so that the placeholder is
    still there. *)
Lemma system_message_dollar_tag :
  configuredPrompt (configWithPrompt "Reply in {{userLanguage}}.")
  = Js.join placeholder ["Reply in "; "."]
  /\ systemMessage (demoHost (fun _ => 0%Z))
       (configWithPrompt "Reply in {{userLanguage}}.") "$&" None
     = {| role := "system"; content := ContentString "Reply in {{userLanguage}}." |}
  /\ systemMessage (demoHost (fun _ => 0%Z))
       (configWithPrompt "Reply in {{userLanguage}}.") "$&" None
     <> {| role := "system";
           content := ContentString (Js.join "$&" ["Reply in "; "."]) |}.
Proof. split; [reflexivity |]. split; [reflexivity | discriminate]. Qed.

(* ================================================================== *)
(** * The line loop *)
(* ================================================================== *)

Local Open Scope string_scope.

Lemma indexOf_line (line rest : string) :
  Js.indexOf line Js.LF = None ->
  Js.indexOf (line ++ String Js.LF rest) Js.LF = Some (String.length line).
Proof.
  induction line as [| c line IH]; intros H.
  - cbn [append Js.indexOf]. now rewrite Ascii.eqb_refl.
  - cbn [append Js.indexOf String.length] in *.
    destruct (Ascii.eqb c Js.LF); [discriminate |].
    destruct (Js.indexOf line Js.LF) eqn:E; [discriminate |].
    now rewrite (IH eq_refl).
Qed.

Lemma indexOf_bound (s : string) (c : ascii) (i : nat) :
  Js.indexOf s c = Some i -> i < String.length s.
Proof.
  revert i. induction s as [| d s IH]; intros i H; [discriminate |].
  cbn [Js.indexOf] in H. destruct (Ascii.eqb d c).
  - injection H as <-. simpl. lia.
  - destruct (Js.indexOf s c) as [j |]; [| discriminate].
    injection H as <-. simpl. specialize (IH j eq_refl). lia.
Qed.

Lemma length_substring (s : string) (n m : nat) :
  n + m <= String.length s -> String.length (substring n m s) = m.
Proof.
  revert n m. induction s as [| c s IH]; intros n m H; simpl in H.
  - assert (n = 0) by lia. assert (m = 0) by lia. now subst.
  - destruct n as [| n]; simpl.
    + destruct m as [| m]; [reflexivity |]. simpl. rewrite IH; [reflexivity | lia].
    + apply IH. lia.
Qed.

Lemma length_sliceFrom (s : string) (b : nat) :
  b <= String.length s -> String.length (Js.sliceFrom s b) = String.length s - b.
Proof. intros H. unfold Js.sliceFrom. apply length_substring. lia. Qed.

Section Stream.

Variable h : Host.
Variable r : Run.

(** None of the steps inside the line loop touches the buffer. *)
Lemma dispatchUpdate_buffer (st : State) : buffer (dispatchUpdate h r st) = buffer st.
Proof.
  unfold dispatchUpdate. destruct (run_sink r); simpl;
    destruct (updateTimeout st); reflexivity.
Qed.

Lemma scheduleUpdate_buffer (st : State) : buffer (scheduleUpdate h r st) = buffer st.
Proof.
  unfold scheduleUpdate. destruct (updateTimeout st) eqn:E; [reflexivity |].
  destruct (Z.gtb _ _); [| reflexivity].
  now rewrite dispatchUpdate_buffer.
Qed.

Lemma onUpdate_buffer (st st' : State) :
  onUpdate h r st = Normal st' -> buffer st' = buffer st.
Proof.
  unfold onUpdate.
  destruct (guardActive r st);
    [destruct (existsb _ _); [discriminate |]; destruct (existsb _ _) |];
    intros [= <-]; try reflexivity; apply scheduleUpdate_buffer.
Qed.

Lemma tryData_buffer (data : string) (st : State) :
  match tryData h r data st with
  | Normal st' => buffer st' = buffer st
  | Throw _ st' => buffer st' = buffer st
  end.
Proof.
  unfold tryData. destruct (JSON_parse h data) as [parsed |]; [| reflexivity].
  destruct (applyRecord h (run_format r) parsed (currentMessage st))
    as [[m u] | e0 [m u]]; [| reflexivity].
  destruct u; [| reflexivity].
  destruct (onUpdate h r (withMessage st m)) as [st' | e st'] eqn:E.
  - now rewrite (onUpdate_buffer _ _ E).
  - unfold onUpdate in E. destruct (guardActive r (withMessage st m)); [| discriminate].
    destruct (existsb _ _); [now injection E as _ <- |].
    destruct (existsb _ _); discriminate.
Qed.

Lemma handleLine_buffer (line : string) (st : State) :
  match handleLine h r line st with
  | Normal st' => buffer st' = buffer st
  | Throw _ st' => buffer st' = buffer st
  end.
Proof.
  unfold handleLine. destruct (Js.startsWith line "data: "); [| reflexivity].
  destruct (String.eqb _ "[DONE]"); [reflexivity |].
  pose proof (tryData_buffer (Js.sliceFrom line 6) st) as Hb.
  destruct (tryData h r (Js.sliceFrom line 6) st) as [st' | e st']; simpl; [exact Hb |].
  destruct (code e) as [c |]; [destruct (String.eqb c GUARD_CODE) |]; exact Hb.
Qed.

(** The loop over the lines always ends: the length of the buffer is
    fuel enough. *)
Lemma drainBuffer_terminates (fuel : nat) (st : State) :
  String.length (buffer st) <= fuel ->
  exists res, drainBuffer fuel h r st = Some res.
Proof.
  revert st. induction fuel as [| fuel IH]; intros st Hlen.
  - destruct (buffer st) eqn:E; [| simpl in Hlen; lia].
    exists (Normal st). simpl. now rewrite E.
  - cbn [drainBuffer]. destruct (Js.indexOf (buffer st) Js.LF) as [i |] eqn:Ei.
    + pose proof (indexOf_bound _ _ _ Ei) as Hi.
      pose proof (handleLine_buffer (Js.slice (buffer st) 0 i)
                    (withBuffer st (Js.sliceFrom (buffer st) (i + 1)))) as Hb.
      destruct (handleLine h r _ _) as [st2 | e st2].
      * apply IH. rewrite Hb. simpl. rewrite length_sliceFrom; lia.
      * now exists (Throw e st2).
    + now exists (Normal st).
Qed.

Lemma onChunk_terminates (chunk : string) (st : State) :
  exists res, onChunk h r chunk st = Some res.
Proof. unfold onChunk. apply drainBuffer_terminates. reflexivity. Qed.

(** One turn of the line loop, for a buffer that begins with a complete
    line. *)
Lemma drainBuffer_line (fuel : nat) (st : State) (line rest : string) :
  Js.indexOf line Js.LF = None ->
  buffer st = line ++ String Js.LF rest ->
  drainBuffer (S fuel) h r st =
    match handleLine h r line (withBuffer st rest) with
    | Normal st2 => drainBuffer fuel h r st2
    | Throw e st2 => Some (Throw e st2)
    end.
Proof.
  intros Hline Hbuf. cbn [drainBuffer]. rewrite Hbuf.
  rewrite (indexOf_line _ _ Hline).
  rewrite slice_append.
  replace (String.length line + 1) with (String.length (line ++ String Js.LF EmptyString))
    by (rewrite length_append; reflexivity).
  replace (line ++ String Js.LF rest) with ((line ++ String Js.LF EmptyString) ++ rest)
    by (now rewrite append_assoc).
  now rewrite sliceFrom_append.
Qed.

Lemma drainBuffer_no_line (fuel : nat) (st : State) :
  Js.indexOf (buffer st) Js.LF = None ->
  drainBuffer fuel h r st = Some (Normal st).
Proof. intros H. destruct fuel; cbn [drainBuffer]; now rewrite H. Qed.

(** A data line that is not the sentinel goes through the [try]. *)
Lemma handleLine_data (data : string) (st : State) :
  String.eqb data "[DONE]" = false ->
  handleLine h r ("data: " ++ data) st = catchData (tryData h r data st).
Proof.
  intros Hd. unfold handleLine.
  assert (Hp : Js.startsWith ("data: " ++ data) "data: " = true) by apply prefix_append.
  assert (Hs : Js.sliceFrom ("data: " ++ data) 6 = data)
    by apply (sliceFrom_append "data: " data).
  now rewrite Hp, Hs, Hd.
Qed.

(** What the record decoders throw has no [code]. *)
Lemma getProp_throw (v : json) (k : string) (e : JsError) :
  getProp v k = inl e -> code e = None.
Proof. destruct v; simpl; intros [= <-]; reflexivity. Qed.

Lemma geminiLoop_throw (parts : list json) (d d' : Delta) (e : JsError) :
  geminiLoop h parts d = Throw e d' -> code e = None.
Proof.
  revert d. induction parts as [| part rest IH]; intros d; cbn [geminiLoop]; [discriminate |].
  destruct (getProp part "text") as [e0 | text] eqn:E.
  - intros [= <- _]. eapply getProp_throw; eassumption.
  - destruct (truthyVal h text); apply IH.
Qed.

Lemma applyRecord_throw (fmt : string) (parsed : json) (m : Acc.Msg)
  (e : JsError) (d : Delta) :
  applyRecord h fmt parsed m = Throw e d -> code e = None.
Proof.
  unfold applyRecord.
  destruct (String.eqb fmt "gemini"); [| destruct (String.eqb fmt "claude")].
  - unfold applyGemini. destruct (getProp parsed "candidates") as [e0 | c] eqn:E.
    + intros [= <- _]. eapply getProp_throw; eassumption.
    + destruct (truthyVal h c && truthyVal h _); [| discriminate].
      destruct (optProp _ "parts") as [[| | | | elems |] |]; try discriminate;
        try (intros [= <- _]; reflexivity).
      apply geminiLoop_throw.
  - unfold applyClaude. destruct (getProp parsed "type") as [e0 | ty] eqn:E.
    + intros [= <- _]. eapply getProp_throw; eassumption.
    + destruct ty as [[| | | s | |] |]; try discriminate.
      destruct (String.eqb s _ && truthyVal h _); discriminate.
  - unfold applyOpenai. destruct (getProp parsed "choices") as [e0 | c] eqn:E.
    + intros [= <- _]. eapply getProp_throw; eassumption.
    + destruct (truthyVal h (optProp _ "content")); destruct (truthyVal h _); discriminate.
Qed.

(** The only exception with the guard's code that the [try] body raises
    is the guard's own error. *)
Lemma tryData_throw (data : string) (st : State) (e : JsError) (st' : State) :
  tryData h r data st = Throw e st' ->
  e = guardError \/ code e = None.
Proof.
  unfold tryData. destruct (JSON_parse h data) as [parsed |].
  - destruct (applyRecord h (run_format r) parsed (currentMessage st))
      as [[m u] | e0 [m u]] eqn:E.
    + destruct u; [| discriminate].
      unfold onUpdate. destruct (guardActive r (withMessage st m)); [| discriminate].
      destruct (existsb _ _); [intros [= <- _]; now left |].
      destruct (existsb _ _); discriminate.
    + intros [= <- _]. right. eapply applyRecord_throw; eassumption.
  - intros [= <- _]. now right.
Qed.

End Stream.

(* ================================================================== *)
(** * Malformed records and the guard's error *)
(* ================================================================== *)

Lemma catchData_throw (res : Res State) (e : JsError) (st' : State) :
  catchData res = Throw e st' ->
  res = Throw e st' /\ code e = Some GUARD_CODE.
Proof.
  destruct res as [st | e0 st]; simpl; [discriminate |].
  destruct (code e0) as [c |] eqn:Ec; [| discriminate].
  destruct (String.eqb c GUARD_CODE) eqn:E; [| discriminate].
  intros [= <- <-]. apply String.eqb_eq in E. now subst.
Qed.

Lemma handleLine_throw (h : Host) (r : Run) (line : string) (st : State)
  (e : JsError) (st' : State) :
  handleLine h r line st = Throw e st' -> e = guardError.
Proof.
  unfold handleLine. destruct (Js.startsWith line "data: "); [| discriminate].
  destruct (String.eqb _ "[DONE]"); [discriminate |].
  intros H. apply catchData_throw in H. destruct H as [H Hc].
  apply tryData_throw in H. destruct H as [-> | Hn]; [reflexivity |].
  rewrite Hn in Hc. discriminate.
Qed.

Lemma drainBuffer_throw (h : Host) (r : Run) (fuel : nat) (st : State)
  (e : JsError) (st' : State) :
  drainBuffer fuel h r st = Some (Throw e st') -> e = guardError.
Proof.
  revert st. induction fuel as [| fuel IH]; intros st; cbn [drainBuffer];
    destruct (Js.indexOf (buffer st) Js.LF) as [i |]; try discriminate.
  destruct (handleLine h r _ _) as [st2 | e2 st2] eqn:E.
  - apply IH.
  - intros [= <- _]. eapply handleLine_throw; eassumption.
Qed.

Lemma dataLine_shape (data rest : string) :
  dataLine data ++ rest = ("data: " ++ data) ++ String Js.LF rest.
Proof. unfold dataLine, Js.nl. now rewrite !append_assoc. Qed.

Lemma indexOf_append_none (a b : string) (c : ascii) :
  Js.indexOf a c = None -> Js.indexOf b c = None -> Js.indexOf (a ++ b) c = None.
Proof.
  induction a as [| x a IH]; intros Ha Hb; [exact Hb |].
  cbn [append Js.indexOf] in *. destruct (Ascii.eqb x c); [discriminate |].
  destruct (Js.indexOf a c); [discriminate |]. now rewrite (IH eq_refl Hb).
Qed.

Lemma indexOf_data (data : string) :
  Js.indexOf data Js.LF = None -> Js.indexOf ("data: " ++ data) Js.LF = None.
Proof. intros H. now apply indexOf_append_none. Qed.

(** The line loop at a data line that heads the buffer. *)
Lemma drainBuffer_data (h : Host) (r : Run) (fuel : nat) (st : State)
  (data rest : string) :
  Js.indexOf data Js.LF = None ->
  String.eqb data "[DONE]" = false ->
  buffer st = dataLine data ++ rest ->
  drainBuffer (S fuel) h r st =
    match catchData (tryData h r data (withBuffer st rest)) with
    | Normal st2 => drainBuffer fuel h r st2
    | Throw e st2 => Some (Throw e st2)
    end.
Proof.
  intros Hnl Hd Hbuf. rewrite dataLine_shape in Hbuf.
  rewrite (drainBuffer_line h r fuel st _ _ (indexOf_data _ Hnl) Hbuf).
  now rewrite (handleLine_data h r _ _ Hd).
Qed.

(** C3. A data line whose payload [JSON.parse] rejects, or whose record
    makes the decoder throw, is logged with [console.error] and the
    line loop goes on with the rest of the buffer; an error with the
    guard's code raised by the same [try] leaves the line loop, the
    read loop and [processStream], which rejects with it; and nothing
    but the guard's error ever leaves the line loop. *)
Theorem malformed_skipped_guard_propagates
  (h : Host) (r : Run) (st : State) (data rest : string) (fuel : nat) :
  Js.indexOf data Js.LF = None ->
  String.eqb data "[DONE]" = false ->
  buffer st = (dataLine data ++ rest)%string ->
  (JSON_parse h data = None ->
     drainBuffer (S fuel) h r st
     = drainBuffer fuel h r
         (withEffect (withBuffer st rest) (ConsoleError (SyntaxError "JSON.parse"))))
  /\ (forall parsed e d,
        JSON_parse h data = Some parsed ->
        applyRecord h (run_format r) parsed (currentMessage st) = Throw e d ->
        drainBuffer (S fuel) h r st
        = drainBuffer fuel h r
            (withEffect (withMessage (withBuffer st rest) (fst d)) (ConsoleError e)))
  /\ (forall e st',
        tryData h r data (withBuffer st rest) = Throw e st' ->
        code e = Some GUARD_CODE ->
        drainBuffer (S fuel) h r st = Some (Throw e st'))
  /\ (forall n s e st', drainBuffer n h r s = Some (Throw e st') -> e = guardError)
  /\ (forall chunk s e st' events,
        onChunk h r chunk s = Some (Throw e st') ->
        readLoop h r (Read (Chunk chunk) :: events) s = (Threw e, st'))
  /\ (forall resp events st',
        ok resp = true -> hasReader resp = true ->
        readLoop h r events (withEffect initialState Fetch) = (Threw guardError, st') ->
        processStream h r (FetchResolves resp) events
        = (Rejected guardError, withEffect st' ReaderCancel)).
Proof.
  intros Hnl Hd Hbuf.
  pose proof (drainBuffer_data h r fuel st data rest Hnl Hd Hbuf) as Hstep.
  split; [| split; [| split; [| split; [| split]]]].
  - intros Hp. rewrite Hstep. unfold tryData. now rewrite Hp.
  - intros parsed e [m u] Hp Ha. rewrite Hstep. unfold tryData. rewrite Hp.
    cbn [currentMessage withBuffer]. rewrite Ha.
    cbn [catchData fst]. now rewrite (applyRecord_throw _ _ _ _ _ _ Ha).
  - intros e st' Ht Hc. rewrite Hstep, Ht. cbn [catchData]. rewrite Hc.
    now rewrite String.eqb_refl.
  - intros n s e st'. apply drainBuffer_throw.
  - intros chunk s e st' events Hc. cbn [readLoop]. now rewrite Hc.
  - intros resp events st' Hok Hr Hl. unfold processStream.
    rewrite Hok, Hr. cbn [negb]. now rewrite Hl.
Qed.

Lemma malformed_skipped_guard_propagates_witness :
  drainBuffer 1 (demoHost (fun _ => 0%Z)) (guardedRun true)
    (withBuffer initialState (dataLine "{oops" ++ dataLine "{}"))
  = drainBuffer 0 (demoHost (fun _ => 0%Z)) (guardedRun true)
      (withEffect (withBuffer initialState (dataLine "{}"))
         (ConsoleError (SyntaxError "JSON.parse"))).
Proof.
  exact (proj1 (malformed_skipped_guard_propagates (demoHost (fun _ => 0%Z))
                  (guardedRun true)
                  (withBuffer initialState (dataLine "{oops" ++ dataLine "{}"))
                  "{oops" (dataLine "{}") 0 eq_refl eq_refl eq_refl)
           eq_refl).
Defined.

(* ================================================================== *)
(** * The misfiled-reasoning guard *)
(* ================================================================== *)

Lemma withBuffer_same (st : State) (b : string) :
  buffer st = b -> withBuffer st b = st.
Proof. destruct st; simpl; now intros ->. Qed.

Lemma withBuffer_twice (st : State) (a b : string) :
  withBuffer (withBuffer st a) b = withBuffer st b.
Proof. reflexivity. Qed.

(** More fuel does not change the result of the line loop. *)
Lemma drainBuffer_more_fuel (h : Host) (r : Run) (n m : nat) (st : State)
  (res : Res State) :
  drainBuffer n h r st = Some res -> n <= m -> drainBuffer m h r st = Some res.
Proof.
  revert m st. induction n as [| n IH]; intros m st H Hle.
  - cbn [drainBuffer] in H.
    destruct (Js.indexOf (buffer st) Js.LF) eqn:E; [discriminate |].
    rewrite <- H. now apply drainBuffer_no_line.
  - destruct m as [| m]; [lia |]. cbn [drainBuffer] in *.
    destruct (Js.indexOf (buffer st) Js.LF); [| exact H].
    destruct (handleLine h r _ _); [| exact H].
    apply IH; [exact H | lia].
Qed.

(** A chunk that is one data line, arriving on an empty buffer. *)
Lemma onChunk_data_line (h : Host) (r : Run) (st : State) (data : string) :
  buffer st = EmptyString ->
  Js.indexOf data Js.LF = None ->
  String.eqb data "[DONE]" = false ->
  onChunk h r (dataLine data) st = Some (catchData (tryData h r data st)).
Proof.
  intros Hb Hnl Hd. unfold onChunk. rewrite Hb. cbn [append].
  assert (Hlen : exists n, String.length (dataLine data) = S n)
    by (unfold dataLine; simpl; eauto).
  destruct Hlen as [n Hn]. cbn [buffer withBuffer]. rewrite Hn.
  rewrite (drainBuffer_data h r n _ data EmptyString Hnl Hd)
    by (cbn [buffer withBuffer]; now rewrite append_nil_r).
  rewrite withBuffer_twice, (withBuffer_same st _ Hb).
  pose proof (tryData_buffer h r data st) as Hbuf.
  destruct (tryData h r data st) as [st2 | e st2]; cbn [catchData].
  - apply drainBuffer_no_line. now rewrite Hbuf, Hb.
  - destruct (code e) as [c |]; [destruct (String.eqb c GUARD_CODE) |];
      try reflexivity; apply drainBuffer_no_line; cbn [buffer withEffect];
      now rewrite Hbuf, Hb.
Qed.

(** An OpenAI record that carries only a non-empty content delta
    appends it and surfaces the update. *)
Lemma tryData_openai_content (h : Host) (r : Run) (st : State) (data c : string) :
  run_format r = "openai" ->
  JSON_parse h data = Some (openaiContent c) ->
  c <> EmptyString ->
  tryData h r data st = onUpdate h r (withMessage st (appendContent (currentMessage st) c)).
Proof.
  intros Hf Hp Hc. unfold tryData. rewrite Hp. unfold applyRecord. rewrite Hf.
  change (String.eqb "openai" "gemini") with false.
  change (String.eqb "openai" "claude") with false.
  cbv iota.
  assert (Ht : Js.truthy c = true) by (destruct c; [now destruct Hc | reflexivity]).
  unfold applyOpenai, openaiContent.
  change (getProp (JObj [("choices", JArr [JObj [("delta", JObj [("content", JStr c)])]])])
            "choices")
    with (@inr JsError jsval (Some (JArr [JObj [("delta", JObj [("content", JStr c)])]]))).
  cbv iota.
  change (optProp (optIndex0 (Some (JArr [JObj [("delta", JObj [("content", JStr c)])]])))
            "delta")
    with (Some (JObj [("content", JStr c)])).
  change (optProp (Some (JObj [("content", JStr c)])) "content") with (Some (JStr c)).
  change (optProp (Some (JObj [("content", JStr c)])) "reasoning_content")
    with (@None json).
  cbn [truthyVal]. rewrite Ht. reflexivity.
Qed.

(** The guard on a state where it is active, for the list [["think"]]. *)
Lemma onUpdate_guard (h : Host) (r : Run) (st : State) :
  run_detect r = true ->
  run_prefixes r = ["think"] ->
  didDispatchAnyUpdate st = false ->
  Acc.reasoning_content (currentMessage st) = EmptyString ->
  onUpdate h r st =
    if Js.startsWith (contentStart (currentMessage st)) "think" then Throw guardError st
    else if Js.startsWith "think" (contentStart (currentMessage st)) then Normal st
    else Normal (scheduleUpdate h r st).
Proof.
  intros Hd Hp Hn Hr. unfold onUpdate, guardActive.
  rewrite Hd, Hp, Hn, Hr. cbn [andb negb Js.truthy existsb].
  now rewrite !orb_false_r.
Qed.

(** Evaluate the two tests of the guard once the normalized content is
    known to be the text [v]. *)
Ltac guard_decides v :=
  match goal with
  | |- context [contentStart ?m] => change (contentStart m) with v
  end;
  let b1 := eval vm_compute in (Js.startsWith v "think") in
  let b2 := eval vm_compute in (Js.startsWith "think" v) in
  change (Js.startsWith v "think") with b1;
  try change (Js.startsWith "think" v) with b2;
  cbv iota; cbn [catchData].

(** C1. With the guard enabled for the prefix list ["think"], on the
    OpenAI delta channel and with no reasoning content received: the
    content deltas "t", "hi", "nk is wrong", each in a chunk of its own
    or all in one chunk, make [processStream] reject with the guard's
    error, and nothing is handed to the store or to the UI, neither at
    the end nor after the first or the second delta;
    in general, a content delta after which the trimmed, lower-cased
    content is a strict prefix of "think" is suppressed: the line
    changes nothing but the accumulator (no dispatch, no timer, no
    error). *)
Theorem guard_aborts_think_sequence
  (h : Host) (r : Run) (resp : Response) (rest : list Event) :
  run_format r = "openai" ->
  run_detect r = true ->
  run_prefixes r = ["think"] ->
  ok resp = true ->
  hasReader resp = true ->
  JSON_parse h (openaiContentText "t") = Some (openaiContent "t") ->
  JSON_parse h (openaiContentText "hi") = Some (openaiContent "hi") ->
  JSON_parse h (openaiContentText "nk is wrong") = Some (openaiContent "nk is wrong") ->
  (exists st,
     processStream h r (FetchResolves resp)
       (Read (Chunk (dataLine (openaiContentText "t")))
        :: Read (Chunk (dataLine (openaiContentText "hi")))
        :: Read (Chunk (dataLine (openaiContentText "nk is wrong"))) :: rest)
     = (Rejected guardError, st)
     /\ code guardError = Some GUARD_CODE
     /\ dispatched (effects st) = []
     /\ shown (effects st) = []
     /\ effects st = [Fetch; ReaderCancel])
  /\ (exists st,
        processStream h r (FetchResolves resp)
          (Read (Chunk (dataLine (openaiContentText "t")
                        ++ dataLine (openaiContentText "hi")
                        ++ dataLine (openaiContentText "nk is wrong"))) :: rest)
        = (Rejected guardError, st)
        /\ dispatched (effects st) = []
        /\ shown (effects st) = []
        /\ effects st = [Fetch; ReaderCancel])
  /\ (exists st,
        processStream h r (FetchResolves resp)
          [Read (Chunk (dataLine (openaiContentText "t")))]
        = (Pending, st)
        /\ Acc.content (currentMessage st) = "t"
        /\ effects st = [Fetch] /\ updateTimeout st = None)
  /\ (exists st,
        processStream h r (FetchResolves resp)
          [Read (Chunk (dataLine (openaiContentText "t")));
           Read (Chunk (dataLine (openaiContentText "hi")))]
        = (Pending, st)
        /\ Acc.content (currentMessage st) = "thi"
        /\ effects st = [Fetch] /\ updateTimeout st = None)
  /\ (forall st data c,
        didDispatchAnyUpdate st = false ->
        Acc.reasoning_content (currentMessage st) = EmptyString ->
        String.eqb data "[DONE]" = false ->
        JSON_parse h data = Some (openaiContent c) ->
        c <> EmptyString ->
        Js.startsWith "think" (contentStart (appendContent (currentMessage st) c)) = true ->
        contentStart (appendContent (currentMessage st) c) <> "think" ->
        handleLine h r ("data: " ++ data) st
        = Normal (withMessage st (appendContent (currentMessage st) c))).
Proof.
  intros Hf Hd Hp Hok Hr P1 P2 P3.
  set (st0 := withEffect initialState Fetch).
  set (m1 := appendContent (currentMessage st0) "t").
  set (m2 := appendContent m1 "hi").
  set (m3 := appendContent m2 "nk is wrong").
  assert (S1 : onChunk h r (dataLine (openaiContentText "t")) st0
               = Some (Normal (withMessage st0 m1))).
  { rewrite onChunk_data_line by reflexivity.
    rewrite (tryData_openai_content h r st0 _ "t" Hf P1) by discriminate.
    rewrite (onUpdate_guard h r _ Hd Hp) by reflexivity. reflexivity. }
  assert (S2 : onChunk h r (dataLine (openaiContentText "hi")) (withMessage st0 m1)
               = Some (Normal (withMessage st0 m2))).
  { rewrite onChunk_data_line by reflexivity.
    rewrite (tryData_openai_content h r _ _ "hi" Hf P2) by discriminate.
    rewrite (onUpdate_guard h r _ Hd Hp) by reflexivity. reflexivity. }
  assert (S3 : onChunk h r (dataLine (openaiContentText "nk is wrong")) (withMessage st0 m2)
               = Some (Throw guardError (withMessage st0 m3))).
  { rewrite onChunk_data_line by reflexivity.
    rewrite (tryData_openai_content h r _ _ "nk is wrong" Hf P3) by discriminate.
    rewrite (onUpdate_guard h r _ Hd Hp) by reflexivity. reflexivity. }
  set (l1 := dataLine (openaiContentText "t")).
  set (l2 := dataLine (openaiContentText "hi")).
  set (l3 := dataLine (openaiContentText "nk is wrong")).
  assert (B : drainBuffer 3 h r (withBuffer st0 (l1 ++ l2 ++ l3)%string)
              = Some (Throw guardError (withMessage st0 m3))).
  { rewrite (drainBuffer_data h r 2 _ (openaiContentText "t") (l2 ++ l3)%string)
      by reflexivity.
    rewrite (tryData_openai_content h r _ _ "t" Hf P1) by discriminate.
    rewrite (onUpdate_guard h r _ Hd Hp) by reflexivity.
    guard_decides "t".
    rewrite (drainBuffer_data h r 1 _ (openaiContentText "hi") l3) by reflexivity.
    rewrite (tryData_openai_content h r _ _ "hi" Hf P2) by discriminate.
    rewrite (onUpdate_guard h r _ Hd Hp) by reflexivity.
    guard_decides "thi".
    rewrite (drainBuffer_data h r 0 _ (openaiContentText "nk is wrong") EmptyString)
      by reflexivity.
    rewrite (tryData_openai_content h r _ _ "nk is wrong" Hf P3) by discriminate.
    rewrite (onUpdate_guard h r _ Hd Hp) by reflexivity.
    guard_decides "think is wrong".
    cbn [code guardError]. rewrite String.eqb_refl. reflexivity. }
  assert (S123 : onChunk h r (l1 ++ l2 ++ l3)%string st0
                 = Some (Throw guardError (withMessage st0 m3))).
  { unfold onChunk. apply (drainBuffer_more_fuel h r 3); [exact B |].
    vm_compute. lia. }
  subst l1 l2 l3.
  split; [| split; [| split; [| split]]].
  - exists (withEffect (withMessage st0 m3) ReaderCancel).
    unfold processStream. rewrite Hok, Hr. cbn [negb].
    fold st0. cbn [readLoop]. rewrite S1. cbn [readLoop]. rewrite S2.
    cbn [readLoop]. rewrite S3. repeat split.
  - exists (withEffect (withMessage st0 m3) ReaderCancel).
    unfold processStream. rewrite Hok, Hr. cbn [negb].
    fold st0. cbn [readLoop]. rewrite S123. repeat split.
  - exists (withMessage st0 m1).
    unfold processStream. rewrite Hok, Hr. cbn [negb].
    fold st0. cbn [readLoop]. rewrite S1. repeat split.
  - exists (withMessage st0 m2).
    unfold processStream. rewrite Hok, Hr. cbn [negb].
    fold st0. cbn [readLoop]. rewrite S1. cbn [readLoop]. rewrite S2. repeat split.
  - intros st data c Hn Hrc Hdone Hparse Hc Hpre Hneq.
    rewrite (handleLine_data h r _ _ Hdone).
    rewrite (tryData_openai_content h r st _ c Hf Hparse Hc).
    rewrite (onUpdate_guard h r _ Hd Hp) by (cbn; assumption).
    cbn [currentMessage withMessage]. rewrite Hpre.
    destruct (Js.startsWith (contentStart (appendContent (currentMessage st) c)) "think")
      eqn:E; [| reflexivity].
    exfalso. apply Hneq.
    apply prefix_inv in E. apply prefix_inv in Hpre.
    destruct E as [x Hx]. destruct Hpre as [y Hy].
    rewrite Hx in Hy. rewrite append_assoc in Hy.
    assert (Hxy : (x ++ y)%string = EmptyString).
    { clear -Hy. cbn in Hy. now injection Hy as <-. }
    destruct x; [| discriminate Hxy]. now rewrite append_nil_r in Hx.
Qed.

Lemma guard_aborts_think_sequence_witness :
  exists st,
    processStream (demoHost (fun k => (1700000000000 + Z.of_nat k)%Z)) (guardedRun true)
      (FetchResolves okResponse)
      (Read (Chunk (dataLine (openaiContentText "t")))
       :: Read (Chunk (dataLine (openaiContentText "hi")))
       :: Read (Chunk (dataLine (openaiContentText "nk is wrong"))) :: [Read EndOfStream])
    = (Rejected guardError, st)
    /\ code guardError = Some GUARD_CODE
    /\ dispatched (effects st) = []
    /\ shown (effects st) = []
    /\ effects st = [Fetch; ReaderCancel].
Proof.
  exact (proj1 (guard_aborts_think_sequence
                  (demoHost (fun k => (1700000000000 + Z.of_nat k)%Z)) (guardedRun true)
                  okResponse [Read EndOfStream]
                  eq_refl eq_refl eq_refl eq_refl eq_refl eq_refl eq_refl eq_refl)).
Defined.

(* ================================================================== *)
(** * The read loop: end of stream and cancellation *)
(* ================================================================== *)

Local Open Scope list_scope.

Lemma dispatched_app (a b : list Effect) :
  dispatched (a ++ b) = dispatched a ++ dispatched b.
Proof.
  induction a as [| e a IH]; [reflexivity |].
  destruct e; simpl; now rewrite IH.
Qed.

Lemma shown_app (a b : list Effect) : shown (a ++ b) = shown a ++ shown b.
Proof.
  induction a as [| e a IH]; [reflexivity |].
  destruct e; simpl; now rewrite IH.
Qed.

Section ReadLoop.

Variable h : Host.
Variable r : Run.

(** With a sink, [dispatchUpdate] hands the accumulator to the store and
    to the UI and disarms the timer. *)
Lemma dispatchUpdate_sink (st : State) :
  run_sink r = true ->
  dispatched (effects (dispatchUpdate h r st))
    = dispatched (effects st) ++ [currentMessage st]
  /\ shown (effects (dispatchUpdate h r st)) = shown (effects st) ++ [currentMessage st]
  /\ currentMessage (dispatchUpdate h r st) = currentMessage st
  /\ updateTimeout (dispatchUpdate h r st) = None
  /\ lastUpdateTime (dispatchUpdate h r st) = Date_now h (clock st)
  /\ didDispatchAnyUpdate (dispatchUpdate h r st) = true.
Proof.
  intros Hs. unfold dispatchUpdate. rewrite Hs. cbn [updateTimeout].
  destruct (updateTimeout st); cbn;
    rewrite ?dispatched_app, ?shown_app; cbn; rewrite ?app_nil_r; repeat split.
Qed.

Lemma onDone_message (st : State) : currentMessage (onDone h r st) = currentMessage st.
Proof.
  unfold onDone. destruct (Z.gtb _ _); [| reflexivity].
  unfold dispatchUpdate. destruct (run_sink r); cbn;
    destruct (updateTimeout st); reflexivity.
Qed.

Lemma readLoop_app (pre evs : list Event) (st0 st : State) :
  readLoop h r pre st0 = (Waiting, st) ->
  readLoop h r (pre ++ evs) st0 = readLoop h r evs st.
Proof.
  revert st0. induction pre as [| ev pre IH]; intros st0 H.
  - cbn in H. now injection H as <-.
  - cbn [app readLoop] in *. destruct ev as [[chunk | | e] |].
    + destruct (onChunk h r chunk st0) as [[st1 | e st1] |]; try discriminate.
      now apply IH.
    + discriminate.
    + discriminate.
    + now apply IH.
Qed.

Lemma readLoop_returned (events : list Event) (st0 : State) (m : Acc.Msg) (st' : State) :
  readLoop h r events st0 = (Returned m, st') ->
  exists pre post st,
    events = pre ++ Read EndOfStream :: post
    /\ readLoop h r pre st0 = (Waiting, st)
    /\ st' = onDone h r st
    /\ m = currentMessage st.
Proof.
  revert st0. induction events as [| ev events IH]; intros st0 H; [discriminate |].
  cbn [readLoop] in H. destruct ev as [[chunk | | e] |].
  - destruct (onChunk h r chunk st0) as [[st1 | e st1] |] eqn:E; try discriminate.
    destruct (IH _ H) as (pre & post & st & -> & Hpre & Hst & Hm).
    exists (Read (Chunk chunk) :: pre), post, st. cbn [app readLoop]. rewrite E. auto.
  - injection H as <- <-. exists [], events, st0. rewrite onDone_message. auto.
  - discriminate.
  - destruct (IH _ H) as (pre & post & st & -> & Hpre & Hst & Hm).
    exists (TimerFires :: pre), post, st. cbn [app readLoop]. auto.
Qed.

(** The end of the stream: a flush when time has passed since the last
    one, nothing otherwise. *)
Lemma onDone_elapsed (st : State) :
  run_sink r = true ->
  (lastUpdateTime st < Date_now h (clock st))%Z ->
  dispatched (effects (onDone h r st)) = dispatched (effects st) ++ [currentMessage st]
  /\ shown (effects (onDone h r st)) = shown (effects st) ++ [currentMessage st]
  /\ updateTimeout (onDone h r st) = None.
Proof.
  intros Hs Hlt. unfold onDone.
  assert (Hg : Z.gtb (Date_now h (clock st) - lastUpdateTime st) 0 = true)
    by (apply Z.gtb_lt; lia).
  rewrite Hg.
  match goal with |- context [dispatchUpdate h r ?s] =>
    destruct (dispatchUpdate_sink s Hs) as (D & S & _ & T & _) end.
  now rewrite D, S, T.
Qed.

Lemma onDone_not_elapsed (st : State) :
  (Date_now h (clock st) <= lastUpdateTime st)%Z ->
  effects (onDone h r st) = effects st
  /\ updateTimeout (onDone h r st) = updateTimeout st.
Proof.
  intros Hle. unfold onDone.
  assert (Hg : Z.gtb (Date_now h (clock st) - lastUpdateTime st) 0 = false).
  { destruct (Z.gtb _ _) eqn:E; [| reflexivity]. apply Z.gtb_lt in E. lia. }
  now rewrite Hg.
Qed.

Lemma processStream_resolved (f : FetchResult) (events : list Event)
  (m : Acc.Msg) (stF : State) :
  processStream h r f events = (Resolved (Some m), stF) ->
  exists st', readLoop h r events startState = (Returned m, st')
              /\ stF = withEffect st' ReaderCancel.
Proof.
  unfold processStream, outerCatch. fold startState.
  destruct f as [e | resp].
  - destruct (String.eqb (name e) "AbortError"); discriminate.
  - destruct (ok resp); cbn [negb]; [| discriminate].
    destruct (hasReader resp); cbn [negb]; [| discriminate].
    destruct (readLoop h r events startState) as [[m' | e | |] st'].
    + intros H. injection H as Hm Hst. subst m stF. exists st'. split; reflexivity.
    + destruct (String.eqb (name e) "AbortError"); discriminate.
    + discriminate.
    + discriminate.
Qed.

End ReadLoop.

(** C2, as the code has it. Whenever [processStream], with a store
    attached, resolves with the accumulator, that is the accumulator at
    the read that reported the end of the stream; if at that read the
    clock is past the time of the previous flush (as it always is when
    nothing was flushed yet and the clock is positive), the accumulator
    is handed to the store and to the UI once more before it is
    returned, whether or not the last delta came within the throttle
    window; if no time has passed since the previous flush, the end of
    the stream flushes nothing and leaves a pending timer armed. *)
Theorem end_of_stream_flush
  (h : Host) (r : Run) (f : FetchResult) (events : list Event)
  (m : Acc.Msg) (stF : State) :
  run_sink r = true ->
  processStream h r f events = (Resolved (Some m), stF) ->
  exists pre post st,
    events = pre ++ Read EndOfStream :: post
    /\ readLoop h r pre startState = (Waiting, st)
    /\ m = currentMessage st
    /\ ((lastUpdateTime st < Date_now h (clock st))%Z ->
          dispatched (effects stF) = dispatched (effects st) ++ [m]
          /\ shown (effects stF) = shown (effects st) ++ [m])
    /\ ((Date_now h (clock st) <= lastUpdateTime st)%Z ->
          dispatched (effects stF) = dispatched (effects st)
          /\ shown (effects stF) = shown (effects st)
          /\ updateTimeout stF = updateTimeout st)
    /\ (lastUpdateTime st = 0%Z -> (0 < Date_now h (clock st))%Z ->
          dispatched (effects stF) = dispatched (effects st) ++ [m]).
Proof.
  intros Hs Hp.
  destruct (processStream_resolved h r f events m stF Hp) as (st' & Hloop & ->).
  destruct (readLoop_returned h r events startState m st' Hloop)
    as (pre & post & st & -> & Hpre & -> & ->).
  exists pre, post, st.
  assert (Hflush : (lastUpdateTime st < Date_now h (clock st))%Z ->
                   dispatched (effects (withEffect (onDone h r st) ReaderCancel))
                   = dispatched (effects st) ++ [currentMessage st]
                   /\ shown (effects (withEffect (onDone h r st) ReaderCancel))
                      = shown (effects st) ++ [currentMessage st]).
  { intros Hlt. destruct (onDone_elapsed h r st Hs Hlt) as (D & S & _).
    cbn [effects withEffect]. rewrite dispatched_app, shown_app, D, S. cbn.
    now rewrite !app_nil_r. }
  split; [reflexivity |]. split; [exact Hpre |]. split; [reflexivity |].
  split; [exact Hflush |]. split.
  - intros Hle. destruct (onDone_not_elapsed h r st Hle) as (E & T).
    cbn [effects withEffect updateTimeout]. rewrite dispatched_app, shown_app, E. cbn.
    now rewrite !app_nil_r.
  - intros Hzero Hpos. apply Hflush. lia.
Qed.

Lemma end_of_stream_flush_witness :
  exists pre post st,
    helloEvents = pre ++ Read EndOfStream :: post
    /\ readLoop (demoHost tickingClock) plainRun pre startState = (Waiting, st)
    /\ accOf "Hello" = currentMessage st
    /\ ((lastUpdateTime st < Date_now (demoHost tickingClock) (clock st))%Z ->
          dispatched (effects (snd (processStream (demoHost tickingClock) plainRun
                                      (FetchResolves okResponse) helloEvents)))
          = dispatched (effects st) ++ [accOf "Hello"]
          /\ shown (effects (snd (processStream (demoHost tickingClock) plainRun
                                    (FetchResolves okResponse) helloEvents)))
             = shown (effects st) ++ [accOf "Hello"])
    /\ ((Date_now (demoHost tickingClock) (clock st) <= lastUpdateTime st)%Z ->
          dispatched (effects (snd (processStream (demoHost tickingClock) plainRun
                                      (FetchResolves okResponse) helloEvents)))
          = dispatched (effects st)
          /\ shown (effects (snd (processStream (demoHost tickingClock) plainRun
                                    (FetchResolves okResponse) helloEvents)))
             = shown (effects st)
          /\ updateTimeout (snd (processStream (demoHost tickingClock) plainRun
                                   (FetchResolves okResponse) helloEvents))
             = updateTimeout st)
    /\ (lastUpdateTime st = 0%Z ->
        (0 < Date_now (demoHost tickingClock) (clock st))%Z ->
        dispatched (effects (snd (processStream (demoHost tickingClock) plainRun
                                    (FetchResolves okResponse) helloEvents)))
        = dispatched (effects st) ++ [accOf "Hello"]).
Proof.
  exact (end_of_stream_flush (demoHost tickingClock) plainRun (FetchResolves okResponse)
           helloEvents (accOf "Hello")
           (snd (processStream (demoHost tickingClock) plainRun
                   (FetchResolves okResponse) helloEvents))
           eq_refl eq_refl).
Defined.

(** The end-to-end example of the specification: the second delta
    comes within the throttle window of the first flush and arms the
    timer; the end of the stream flushes "Hello" before the accumulator
    is returned. *)
Example hello_run :
  fst (processStream (demoHost tickingClock) plainRun (FetchResolves okResponse) helloEvents)
  = Resolved (Some (accOf "Hello"))
  /\ effects (snd (processStream (demoHost tickingClock) plainRun
                     (FetchResolves okResponse) helloEvents))
     = [Fetch;
        UpdateLastMessage (accOf "He"); OnMessageUpdate (accOf "He");
        SetTimeout 98%Z;
        UpdateLastMessage (accOf "Hello"); OnMessageUpdate (accOf "Hello");
        ClearTimeout; ReaderCancel].
Proof. split; reflexivity. Qed.

(** C2 as stated fails: two records arrive in one chunk and the stream
    ends, all within one unit of the clock.  The first record is
    flushed at once, the second arms the timer, and the end of the
    stream, no time having passed since the flush, flushes nothing:
    [processStream] returns "ab" while the store has only seen "a".
    The timer, still armed, delivers "ab" when it fires later. *)
Lemma end_of_stream_same_instant :
  fst (processStream (demoHost frozenClock) plainRun (FetchResolves okResponse) burstEvents)
  = Resolved (Some (accOf "ab"))
  /\ dispatched (effects (snd (processStream (demoHost frozenClock) plainRun
                                 (FetchResolves okResponse) burstEvents)))
     = [accOf "a"]
  /\ shown (effects (snd (processStream (demoHost frozenClock) plainRun
                            (FetchResolves okResponse) burstEvents)))
     = [accOf "a"]
  /\ updateTimeout (snd (processStream (demoHost frozenClock) plainRun
                           (FetchResolves okResponse) burstEvents))
     = Some 100%Z
  /\ dispatched (effects (onTimer (demoHost frozenClock) plainRun
                            (snd (processStream (demoHost frozenClock) plainRun
                                    (FetchResolves okResponse) burstEvents))))
     = [accOf "a"; accOf "ab"].
Proof. repeat split; reflexivity. Qed.

(* ================================================================== *)
(** * Effects only accumulate *)
(* ================================================================== *)

Lemma extends_refl (st : State) : extends st st.
Proof. exists []. now rewrite app_nil_r. Qed.

Lemma extends_trans (a b c : State) : extends a b -> extends b c -> extends a c.
Proof.
  intros [t1 H1] [t2 H2]. exists (t1 ++ t2). now rewrite H2, H1, app_assoc.
Qed.

Lemma extends_same (a b : State) : effects b = effects a -> extends a b.
Proof. intros H. exists []. now rewrite app_nil_r. Qed.

Lemma extends_withEffect (st : State) (e : Effect) : extends st (withEffect st e).
Proof. now exists [e]. Qed.

Section Effects.

Variable h : Host.
Variable r : Run.

Lemma dispatchUpdate_extends (st : State) : extends st (dispatchUpdate h r st).
Proof.
  unfold dispatchUpdate. destruct (run_sink r); cbn [updateTimeout];
    destruct (updateTimeout st); cbn.
  - eexists. cbn. now rewrite <- app_assoc.
  - now eexists.
  - now eexists.
  - apply extends_refl.
Qed.

Lemma scheduleUpdate_extends (st : State) : extends st (scheduleUpdate h r st).
Proof.
  unfold scheduleUpdate. destruct (updateTimeout st) eqn:E; [apply extends_refl |].
  destruct (Z.gtb _ _).
  - eapply extends_trans; [| apply dispatchUpdate_extends]. now apply extends_same.
  - now eexists.
Qed.

Lemma onUpdate_extends (st : State) :
  match onUpdate h r st with Normal st' | Throw _ st' => extends st st' end.
Proof.
  unfold onUpdate. destruct (guardActive r st).
  - destruct (existsb _ _); [apply extends_refl |].
    destruct (existsb _ _); [apply extends_refl | apply scheduleUpdate_extends].
  - apply scheduleUpdate_extends.
Qed.

Lemma tryData_extends (data : string) (st : State) :
  match tryData h r data st with Normal st' | Throw _ st' => extends st st' end.
Proof.
  unfold tryData. destruct (JSON_parse h data) as [parsed |]; [| apply extends_refl].
  destruct (applyRecord h (run_format r) parsed (currentMessage st))
    as [[m u] | e [m u]]; [| now apply extends_same].
  destruct u; [| now apply extends_same].
  pose proof (onUpdate_extends (withMessage st m)) as H.
  destruct (onUpdate h r (withMessage st m)); exact H.
Qed.

Lemma handleLine_extends (line : string) (st : State) :
  match handleLine h r line st with Normal st' | Throw _ st' => extends st st' end.
Proof.
  unfold handleLine. destruct (Js.startsWith line "data: "); [| apply extends_refl].
  destruct (String.eqb _ "[DONE]"); [apply extends_refl |].
  pose proof (tryData_extends (Js.sliceFrom line 6) st) as H.
  destruct (tryData h r (Js.sliceFrom line 6) st) as [st' | e st']; cbn [catchData];
    [exact H |].
  destruct (code e) as [c |]; [destruct (String.eqb c GUARD_CODE) |];
    try exact H; eapply extends_trans; try exact H; apply extends_withEffect.
Qed.

Lemma drainBuffer_extends (fuel : nat) (st : State) :
  match drainBuffer fuel h r st with
  | Some (Normal st') | Some (Throw _ st') => extends st st'
  | None => True
  end.
Proof.
  revert st. induction fuel as [| fuel IH]; intros st; cbn [drainBuffer];
    destruct (Js.indexOf (buffer st) Js.LF) as [i |]; try apply extends_refl; [exact I |].
  pose proof (handleLine_extends (Js.slice (buffer st) 0 i)
                (withBuffer st (Js.sliceFrom (buffer st) (i + 1)))) as H.
  destruct (handleLine h r _ _) as [st2 | e st2].
  - specialize (IH st2). destruct (drainBuffer fuel h r st2) as [[st3 | e st3] |];
      try exact I; eapply extends_trans; try exact IH;
      eapply extends_trans; try exact H; now apply extends_same.
  - eapply extends_trans; [| exact H]. now apply extends_same.
Qed.

Lemma readLoop_extends (events : list Event) (st : State) :
  extends st (snd (readLoop h r events st)).
Proof.
  revert st. induction events as [| ev events IH]; intros st; cbn [readLoop].
  - apply extends_refl.
  - destruct ev as [[chunk | | e] |].
    + unfold onChunk.
      pose proof (drainBuffer_extends (String.length (buffer (withBuffer st (buffer st ++ chunk))))
                    (withBuffer st (buffer st ++ chunk))) as H.
      destruct (drainBuffer _ h r _) as [[st' | e st'] |]; cbn [snd].
      * eapply extends_trans; [| apply IH].
        eapply extends_trans; [| exact H]. now apply extends_same.
      * eapply extends_trans; [| exact H]. now apply extends_same.
      * apply extends_refl.
    + cbn [snd]. unfold onDone. destruct (Z.gtb _ _).
      * eapply extends_trans; [| apply dispatchUpdate_extends]. now apply extends_same.
      * now apply extends_same.
    + apply extends_refl.
    + eapply extends_trans; [| apply IH].
      unfold onTimer. destruct (updateTimeout st);
        [apply dispatchUpdate_extends | apply extends_refl].
Qed.

(** The first thing [processStream] does to the outside is the fetch. *)
Lemma processStream_fetch_first (f : FetchResult) (events : list Event) :
  exists tail, effects (snd (processStream h r f events)) = Fetch :: tail.
Proof.
  unfold processStream. fold startState. destruct f as [e | resp]; [now exists [] |].
  destruct (ok resp); cbn [negb]; [| now exists []].
  destruct (hasReader resp); cbn [negb]; [| now exists []].
  destruct (readLoop_extends events startState) as [tail Ht].
  destruct (readLoop h r events startState) as [[m | e | |] st];
    cbn [snd] in *; cbn [effects withEffect]; rewrite Ht; eexists; reflexivity.
Qed.

End Effects.

(** The model never runs out of fuel: every run of [processStream]
    settles or waits for the next event. *)
Lemma readLoop_fuel (h : Host) (r : Run) (events : list Event) (st : State) :
  fst (readLoop h r events st) <> OutOfFuel.
Proof.
  revert st. induction events as [| ev events IH]; intros st; cbn [readLoop];
    [discriminate |].
  destruct ev as [[chunk | | e] |]; try discriminate; try apply IH.
  destruct (onChunk_terminates h r chunk st) as [res ->].
  destruct res; [apply IH | discriminate].
Qed.

Lemma processStream_settles (h : Host) (r : Run) (f : FetchResult) (events : list Event) :
  fst (processStream h r f events) <> Diverged.
Proof.
  unfold processStream, outerCatch. destruct f as [e | resp].
  - destruct (String.eqb (name e) "AbortError"); discriminate.
  - destruct (ok resp); cbn [negb]; [| discriminate].
    destruct (hasReader resp); cbn [negb]; [| discriminate].
    pose proof (readLoop_fuel h r events (withEffect initialState Fetch)) as H.
    destruct (readLoop h r events _) as [[m | e | |] st]; cbn [fst] in *;
      try discriminate; [| now destruct H].
    destruct (String.eqb (name e) "AbortError"); discriminate.
Qed.

(* ================================================================== *)
(** * Cancellation *)
(* ================================================================== *)

(** C9, as the code has it. A cancellation that [fetch] observes (so
    before the first byte) or that a read of the body observes makes
    [processStream] resolve with no value, where the guard's abort
    makes it reject with the guard's error; before the first byte
    nothing has been dispatched.  For a response that is not [ok] the
    call rejects with the HTTP error even when the reading of the error
    body is interrupted: that rejection is dropped and the message is
    the status line.  [callAPI] creates the controller and returns
    without any network call: the fetch is the first effect of
    [processStream]. *)
Theorem cancellation_resolves_undefined (h : Host) (r : Run) :
  (forall e events,
     name e = "AbortError" ->
     processStream h r (FetchRejects e) events = (Resolved None, startState)
     /\ dispatched (effects startState) = [] /\ shown (effects startState) = [])
  /\ (forall resp pre post st e,
        ok resp = true -> hasReader resp = true ->
        name e = "AbortError" ->
        readLoop h r pre startState = (Waiting, st) ->
        processStream h r (FetchResolves resp) (pre ++ Read (ReadRejects e) :: post)
        = (Resolved None, withEffect st ReaderCancel))
  /\ (forall resp e post,
        ok resp = true -> hasReader resp = true ->
        name e = "AbortError" ->
        processStream h r (FetchResolves resp) (Read (ReadRejects e) :: post)
        = (Resolved None, withEffect startState ReaderCancel)
        /\ dispatched (effects (withEffect startState ReaderCancel)) = [])
  /\ (forall resp events st,
        ok resp = true -> hasReader resp = true ->
        readLoop h r events startState = (Threw guardError, st) ->
        processStream h r (FetchResolves resp) events
        = (Rejected guardError, withEffect st ReaderCancel))
  /\ (forall resp events,
        ok resp = false ->
        processStream h r (FetchResolves resp) events
        = (Rejected (newError (httpErrorMessage resp)), startState)
        /\ (forall e, text resp = TextRejects e ->
              httpErrorMessage resp
              = if Js.truthy (statusText resp) then statusText resp
                else ("HTTP " ++ NilEmpty.string_of_uint (Nat.to_uint (status resp)))%string))
  /\ (forall p prep,
        callAPI h p = inr prep ->
        callEffects prep = [NewAbortController] /\ ~ In Fetch (callEffects prep))
  /\ (forall f events,
        exists tail, effects (snd (processStream h r f events)) = Fetch :: tail).
Proof.
  split; [| split; [| split; [| split; [| split; [| split]]]]].
  - intros e events He. unfold processStream, outerCatch. rewrite He. repeat split.
  - intros resp pre post st e Hok Hr He Hpre. unfold processStream. fold startState.
    rewrite Hok, Hr. cbn [negb]. rewrite (readLoop_app h r pre _ _ _ Hpre).
    cbn [readLoop]. unfold outerCatch. now rewrite He.
  - intros resp e post Hok Hr He. unfold processStream. fold startState.
    rewrite Hok, Hr. cbn [negb readLoop]. unfold outerCatch. rewrite He. now split.
  - intros resp events st Hok Hr Hl. unfold processStream. fold startState.
    rewrite Hok, Hr. cbn [negb]. now rewrite Hl.
  - intros resp events Hok. split.
    + unfold processStream. fold startState. rewrite Hok. reflexivity.
    + intros e He. unfold httpErrorMessage. now rewrite He.
  - intros p prep Hcall.
    destruct (callAPI_returns h p prep Hcall)
      as (cfg & u & _ & _ & _ & _ & _ & _ & _ & _ & _ & He & _).
    rewrite He. split; [reflexivity |].
    intros [H | []]. discriminate.
  - apply processStream_fetch_first.
Qed.

(** C9 as stated fails: the response has status 403 and the request is
    cancelled while its body is read for the error text; the rejection
    of that read is dropped and [processStream] rejects with the error
    of the status line instead of resolving with no value. *)
Lemma cancellation_during_error_body :
  name abortError = "AbortError"
  /\ text forbiddenCancelled = TextRejects abortError
  /\ processStream (demoHost tickingClock) plainRun (FetchResolves forbiddenCancelled) []
     = (Rejected (newError "Forbidden"), startState)
  /\ fst (processStream (demoHost tickingClock) plainRun
            (FetchResolves forbiddenCancelled) [])
     <> Resolved None.
Proof. repeat split; try reflexivity. discriminate. Qed.

(* ================================================================== *)
(** * Worked examples *)
(* ================================================================== *)

(** The prefixes of the guard: the default, and a configured list that
    is trimmed, lower-cased, and freed of empty and repeated entries. *)
Example normalizedPrefixes_default :
  normalizedPrefixes {| detectMisfiledThinkSilently := true;
                        misfiledThinkSilentlyPrefix := None;
                        misfiledThinkSilentlyPrefixes := None |}
  = ["think"].
Proof. reflexivity. Qed.

Example normalizedPrefixes_list :
  normalizedPrefixes {| detectMisfiledThinkSilently := true;
                        misfiledThinkSilentlyPrefix := Some "unused";
                        misfiledThinkSilentlyPrefixes :=
                          Some [" Think "; "think"; "  "; "Reasoning:"] |}
  = ["think"; "reasoning:"].
Proof. reflexivity. Qed.

(** [callAPI] on the example call: the system message is put in front,
    the format is openai, and the run it hands to [processStream] is
    the guarded one. *)
Example callAPI_demo :
  exists prep,
    callAPI (demoHost tickingClock) demoParams = inr prep
    /\ processedMessages prep = [systemMsg "Reply in en-US."; userMsg "hi"]
    /\ body prep = OpenAIBody "gpt-4o" [systemMsg "Reply in en-US."; userMsg "hi"]
    /\ runOf prep = guardedRun true.
Proof. eexists. repeat split. Qed.

(** A text that does not begin like "think" is dispatched at once. *)
Example answer_is_dispatched :
  processStream (demoHost tickingClock) (guardedRun true) (FetchResolves okResponse)
    [Read (Chunk (dataLine (openaiContentText "The answer is 4")))]
  = (Pending,
     {| buffer := EmptyString;
        currentMessage := accOf "The answer is 4";
        lastUpdateTime := 1700000000001%Z;
        updateTimeout := None;
        didDispatchAnyUpdate := true;
        clock := 2;
        effects := [Fetch; UpdateLastMessage (accOf "The answer is 4");
                    OnMessageUpdate (accOf "The answer is 4")] |}).
Proof. reflexivity. Qed.

(* ================================================================== *)
(** * The request URL *)
(* ================================================================== *)

Local Open Scope string_scope.

Lemma endsWith_append (p suf : string) : endsWith (p ++ suf) suf = true.
Proof.
  unfold endsWith. rewrite length_append.
  replace (String.length p + String.length suf - String.length suf)
    with (String.length p) by lia.
  rewrite sliceFrom_append, String.eqb_refl.
  rewrite andb_true_r. apply Nat.leb_le. lia.
Qed.

Lemma dropEnd_append (p suf : string) : dropEnd (p ++ suf) (String.length suf) = p.
Proof.
  unfold dropEnd. rewrite length_append.
  replace (String.length p + String.length suf - String.length suf)
    with (String.length p) by lia.
  apply slice_append.
Qed.

Lemma includes_append_l (a b sub : string) :
  Js.includes a sub = true -> Js.includes (a ++ b) sub = true.
Proof.
  induction a as [| c a IH]; intros H.
  - cbn [Js.includes] in H. rewrite orb_false_r in H.
    apply includes_startsWith. unfold Js.startsWith in *.
    destruct sub; [apply prefix_nil | discriminate].
  - rewrite includes_cons in H. cbn [append]. rewrite includes_cons.
    apply orb_true_iff in H. destruct H as [H | H].
    + unfold Js.startsWith in *.
      apply (prefix_append_l _ _ b) in H. cbn [append] in H. now rewrite H.
    + rewrite (IH H). apply orb_true_r.
Qed.

Lemma includes_append_r (a b sub : string) :
  Js.includes b sub = true -> Js.includes (a ++ b) sub = true.
Proof.
  intros H. induction a as [| c a IH]; [exact H |].
  cbn [append]. rewrite includes_cons, IH. apply orb_true_r.
Qed.


Lemma substring_split (s : string) (k : nat) :
  k <= String.length s ->
  s = substring 0 k s ++ substring k (String.length s - k) s.
Proof.
  revert k. induction s as [| c s IH]; intros k Hk.
  - simpl in Hk. assert (k = 0) by lia. now subst.
  - destruct k as [| k].
    + cbn [substring append String.length Nat.sub]. now rewrite substring_all.
    + cbn [substring append String.length Nat.sub]. f_equal. apply IH.
      simpl in Hk. lia.
Qed.

Lemma endsWith_inv (s suf : string) :
  endsWith s suf = true -> s = dropEnd s (String.length suf) ++ suf.
Proof.
  unfold endsWith, dropEnd, Js.slice, Js.sliceFrom. intros H.
  apply andb_prop in H. destruct H as [Hl He].
  apply Nat.leb_le in Hl. apply String.eqb_eq in He.
  rewrite Nat.sub_0_r.
  pose proof (substring_split s (String.length s - String.length suf)) as Hs.
  rewrite He in Hs. apply Hs. lia.
Qed.

Lemma lastChar_append (a b : string) :
  b <> EmptyString -> lastChar (a ++ b) = lastChar b.
Proof.
  intros Hb. induction a as [| c a IH]; [reflexivity |].
  cbn [append lastChar]. destruct (a ++ b) eqn:E.
  - destruct a; [cbn in E; now destruct Hb | discriminate E].
  - exact IH.
Qed.

Lemma endsWith_lastChar (s suf : string) :
  suf <> EmptyString -> endsWith s suf = true -> lastChar s = lastChar suf.
Proof.
  intros Hne H. rewrite (endsWith_inv _ _ H). now apply lastChar_append.
Qed.

Lemma endsWith_false (p a suf : string) :
  a <> EmptyString -> suf <> EmptyString ->
  lastChar a <> lastChar suf ->
  endsWith (p ++ a) suf = false.
Proof.
  intros Ha Hs Hl. destruct (endsWith (p ++ a) suf) eqn:E; [| reflexivity].
  apply (endsWith_lastChar _ _ Hs) in E. rewrite (lastChar_append _ _ Ha) in E.
  now destruct Hl.
Qed.

Lemma replaceCompletionsSuffix_plain (p repl : string) :
  replaceCompletionsSuffix (p ++ "/v1/chat/completions") repl = p ++ repl.
Proof.
  unfold replaceCompletionsSuffix.
  rewrite endsWith_false by (cbn; congruence).
  rewrite endsWith_append. now rewrite dropEnd_append.
Qed.

Lemma replaceCompletionsSuffix_slash (p repl : string) :
  replaceCompletionsSuffix (p ++ "/v1/chat/completions/") repl = p ++ repl.
Proof.
  unfold replaceCompletionsSuffix.
  rewrite endsWith_append. now rewrite dropEnd_append.
Qed.

(** What is left when the pattern matches nowhere is the text itself;
    otherwise the text is cut before the suffix. *)
Lemma replaceCompletionsSuffix_cases (s repl : string) :
  replaceCompletionsSuffix s repl = s
  \/ exists p, replaceCompletionsSuffix s repl = p ++ repl.
Proof.
  unfold replaceCompletionsSuffix.
  destruct (endsWith s "/v1/chat/completions/"); [right; eauto |].
  destruct (endsWith s "/v1/chat/completions"); [right; eauto | now left].
Qed.




Lemma claudeRequestUrl_kept (requestUrl : string) :
  Js.includes requestUrl "/messages" = true -> claudeRequestUrl requestUrl = requestUrl.
Proof. intros H. unfold claudeRequestUrl. now rewrite H. Qed.

(** X2. The URL of the Claude branch: a URL that has [/messages] is used
    as it is; otherwise a final [/v1/chat/completions], with or without
    a slash, becomes [/v1/messages], and a URL without that ending is
    used as it is.  Rewriting a rewritten URL changes nothing. *)
Theorem claudeRequestUrl_composition (requestUrl : string) :
  (Js.includes requestUrl "/messages" = true -> claudeRequestUrl requestUrl = requestUrl)
  /\ (forall p,
        requestUrl = p ++ "/v1/chat/completions"
        \/ requestUrl = p ++ "/v1/chat/completions/" ->
        Js.includes requestUrl "/messages" = false ->
        claudeRequestUrl requestUrl = p ++ "/v1/messages")
  /\ (endsWith requestUrl "/v1/chat/completions" = false ->
      endsWith requestUrl "/v1/chat/completions/" = false ->
      claudeRequestUrl requestUrl = requestUrl)
  /\ claudeRequestUrl (claudeRequestUrl requestUrl) = claudeRequestUrl requestUrl.
Proof.
  split; [apply claudeRequestUrl_kept |]. split; [| split].
  - intros p Hshape Hno. unfold claudeRequestUrl. rewrite Hno. cbn [negb].
    destruct Hshape as [-> | ->];
      [apply replaceCompletionsSuffix_plain | apply replaceCompletionsSuffix_slash].
  - intros H1 H2. unfold claudeRequestUrl, replaceCompletionsSuffix.
    rewrite H1, H2. now destruct (negb _).
  - destruct (Js.includes requestUrl "/messages") eqn:E.
    + now rewrite !(claudeRequestUrl_kept _ E).
    + assert (Hf : claudeRequestUrl requestUrl
                   = replaceCompletionsSuffix requestUrl "/v1/messages")
        by (unfold claudeRequestUrl; now rewrite E).
      destruct (replaceCompletionsSuffix_cases requestUrl "/v1/messages")
        as [Hg | [p Hg]].
      * rewrite Hf, Hg. now rewrite Hf, Hg.
      * rewrite Hf, Hg. apply claudeRequestUrl_kept, includes_append_r. reflexivity.
Qed.

(* ================================================================== *)
(** * More on the translators *)
(* ================================================================== *)

Lemma includes_char_append (a b : string) (c : ascii) :
  Js.includes (a ++ b) (String c EmptyString)
  = Js.includes a (String c EmptyString) || Js.includes b (String c EmptyString).
Proof.
  induction a as [| d a IH].
  - cbn [append]. now destruct b.
  - cbn [append]. rewrite !includes_char_cons, IH. now rewrite orb_assoc.
Qed.

Lemma splitFirstComma_append (a b : string) :
  Js.includes a "," = false ->
  splitFirstComma (a ++ String ","%char b) = (a, Some b).
Proof.
  induction a as [| c a IH]; [reflexivity |].
  rewrite includes_char_cons. intros H. apply orb_false_elim in H.
  destruct H as [Hc Ha]. rewrite Ascii.eqb_sym in Hc.
  cbn [append splitFirstComma]. rewrite Hc. now rewrite (IH Ha).
Qed.

Local Open Scope list_scope.

(** X3. A base64 data URL comes back from both converters as it went
    in: for a mime type that is not empty and has neither [;] nor [,]
    and a payload without [,], the image item with the URL
    ["data:" + mime + ";base64," + payload] gives the single inline
    part with that mime type and that payload. *)
Theorem base64DataUrl_round_trip (mime payload : string) :
  mime <> EmptyString ->
  Js.includes mime ";" = false ->
  Js.includes mime "," = false ->
  Js.includes payload "," = false ->
  geminiItemParts (imageItem (base64DataUrl mime payload))
    = [Gemini.InlineData mime (Some payload)]
  /\ claudeItemParts (imageItem (base64DataUrl mime payload))
     = [Claude.Image mime (Some payload)].
Proof.
  intros Hne Hsemi Hcomma Hpay.
  assert (Hshape : base64DataUrl mime payload
                   = (("data:" ++ mime ++ ";base64") ++ String ","%char payload)%string).
  { unfold base64DataUrl. cbn [append]. do 5 f_equal.
    rewrite append_assoc. reflexivity. }
  assert (Hhead : Js.includes ("data:" ++ mime ++ ";base64")%string "," = false).
  { rewrite !includes_char_append, Hcomma. reflexivity. }
  assert (Hsplit : splitDataUrl (base64DataUrl mime payload)
                   = (("data:" ++ mime ++ ";base64")%string, Some payload)).
  { rewrite splitDataUrl_segments. unfold secondSegment.
    rewrite Hshape, (splitFirstComma_append _ _ Hhead). cbn [fst snd].
    now rewrite (splitFirstComma_no_comma _ Hpay). }
  assert (Hmime : mimeOfHeader ("data:" ++ mime ++ ";base64")%string = mime).
  { unfold mimeOfHeader.
    assert (Ht : Js.truthy mime = true) by (destruct mime; [now destruct Hne | reflexivity]).
    rewrite matchDataMime_head;
      rewrite (takeNotSemicolon_stop mime "base64" Hsemi); trivial. }
  assert (Hstart : Js.truthy (base64DataUrl mime payload)
                   && Js.startsWith (base64DataUrl mime payload) "data:" = true).
  { unfold base64DataUrl. apply andb_true_intro.
    split; [reflexivity | apply prefix_append]. }
  rewrite (geminiItemParts_image (imageItem (base64DataUrl mime payload))
             (base64DataUrl mime payload) eq_refl eq_refl),
          (claudeItemParts_image (imageItem (base64DataUrl mime payload))
             (base64DataUrl mime payload) eq_refl eq_refl).
  rewrite Hstart, Hsplit. cbn [fst snd]. now rewrite Hmime.
Qed.

Lemma base64DataUrl_round_trip_witness :
  geminiItemParts (imageItem (base64DataUrl "image/webp" "UklGRg=="))
    = [Gemini.InlineData "image/webp" (Some "UklGRg==")]
  /\ claudeItemParts (imageItem (base64DataUrl "image/webp" "UklGRg=="))
     = [Claude.Image "image/webp" (Some "UklGRg==")].
Proof.
  exact (base64DataUrl_round_trip "image/webp" "UklGRg=="
           ltac:(discriminate) eq_refl eq_refl eq_refl).
Defined.

Lemma itemParts_same (item : Item) :
  Forall2 samePart (geminiItemParts item) (claudeItemParts item).
Proof.
  unfold geminiItemParts, claudeItemParts.
  destruct (String.eqb (item_type item) "text"); [repeat constructor |].
  destruct (String.eqb (item_type item) "image_url" && Js.truthyOpt (itemUrl item));
    [| constructor].
  destruct (itemUrl item) as [u |]; [| constructor].
  destruct (Js.startsWith u "data:"); [| constructor].
  destruct (splitDataUrl u). repeat constructor.
Qed.

Lemma parts_same (c : Content) : Forall2 samePart (geminiParts c) (claudeParts c).
Proof.
  destruct c as [s | items | j]; [repeat constructor | | constructor].
  rewrite geminiParts_array, claudeParts_array.
  induction items as [| item items IH]; [constructor |].
  cbn [flat_map]. apply Forall2_app; [apply itemParts_same | exact IH].
Qed.

Lemma kept_same (m : Message) : geminiKept m = claudeKept m.
Proof.
  unfold geminiKept, claudeKept. f_equal.
  pose proof (parts_same (content m)) as H.
  destruct H; reflexivity.
Qed.

(** X4. The two translators keep the same messages in the same order:
    the Gemini turns and the Claude messages of one history correspond
    one to one, each pair with corresponding roles (model for
    assistant, user for any other) and corresponding parts; and the
    turn sequence of two histories put end to end is the two turn
    sequences put end to end. *)
Theorem translators_agree (h : Host) (msgs more : list Message) :
  Forall2 sameTurn
    (Gemini.contents (convertToGeminiFormat h msgs))
    (Claude.messages (convertToClaudeFormat h msgs))
  /\ Gemini.contents (convertToGeminiFormat h (msgs ++ more))
     = Gemini.contents (convertToGeminiFormat h msgs)
       ++ Gemini.contents (convertToGeminiFormat h more)
  /\ Claude.messages (convertToClaudeFormat h (msgs ++ more))
     = Claude.messages (convertToClaudeFormat h msgs)
       ++ Claude.messages (convertToClaudeFormat h more).
Proof.
  unfold convertToGeminiFormat, convertToClaudeFormat.
  rewrite !gemini_fold_contents, !claude_fold. cbn [Gemini.contents Claude.messages app].
  split; [| split].
  - induction msgs as [| m msgs IH]; [constructor |].
    cbn [filter]. rewrite <- kept_same.
    destruct (geminiKept m); [| exact IH].
    cbn [map]. constructor; [| exact IH].
    split; [reflexivity | apply parts_same].
  - now rewrite filter_app, map_app.
  - now rewrite filter_app, map_app.
Qed.

Local Open Scope string_scope.

Lemma join_dropLeadingEmpty_empty (xs : list string) :
  Js.join blankLine (dropLeadingEmpty xs) = EmptyString
  <-> Forall (fun x => x = EmptyString) xs.
Proof.
  induction xs as [| x xs IH].
  - split; [constructor | reflexivity].
  - destruct x as [| c x].
    + cbn [dropLeadingEmpty]. rewrite IH. split.
      * now constructor.
      * intros H. now inversion H.
    + cbn [dropLeadingEmpty]. rewrite join_blankPrefixed. split.
      * discriminate.
      * intros H. inversion H. discriminate.
Qed.

Local Open Scope list_scope.

(** X5. The Claude request has no [system] field exactly when every
    system message of the processed list has an empty content (in
    particular when there is none): [convertToClaudeFormat] then
    returns the empty [system], which the body leaves out. *)
Theorem claude_system_omitted (h : Host) (cfg : APIConfig) (msgs : list Message) :
  (Claude.system (convertToClaudeFormat h msgs) = EmptyString
   <-> Forall (fun m => role m = "system" -> systemText h (content m) = EmptyString) msgs)
  /\ (requestBody h cfg "claude" msgs
      = ClaudeBody (orDefault (modelName cfg) "claude-3-5-sonnet-20241022")
          (Claude.messages (convertToClaudeFormat h msgs)) None
      <-> Forall (fun m => role m = "system" -> systemText h (content m) = EmptyString) msgs).
Proof.
  assert (Hsys : Claude.system (convertToClaudeFormat h msgs) = EmptyString
                 <-> Forall (fun m => role m = "system"
                                      -> systemText h (content m) = EmptyString) msgs).
  { unfold convertToClaudeFormat. rewrite claude_fold. cbn [Claude.system].
    rewrite sysFold_empty, join_dropLeadingEmpty_empty. unfold systemTexts.
    rewrite Forall_map, !Forall_forall. split.
    - intros H m Hin Hr. apply H. apply filter_In. split; [exact Hin |].
      now apply isSystem_role.
    - intros H m Hin. apply filter_In in Hin. destruct Hin as [Hin Hs].
      apply H; [exact Hin | now apply isSystem_role]. }
  split; [exact Hsys |]. rewrite <- Hsys.
  unfold requestBody.
  change (String.eqb "claude" "gemini") with false.
  change (String.eqb "claude" "claude") with true. cbv iota.
  destruct (Claude.system (convertToClaudeFormat h msgs)) as [| c s] eqn:E;
    cbn [Js.truthy]; split; try reflexivity; discriminate.
Qed.

(* ================================================================== *)
(** * The configuration of a call *)
(* ================================================================== *)

(** X6. [callAPI] throws in two cases only.  It throws the error of the
    incomplete configuration exactly when there is no configuration, or
    the normalized base URL is missing or empty, or the API key is
    missing or empty.  It throws the TypeError of [new URL] exactly
    when the configuration is complete, the format resolves to gemini,
    and the URL composed for Gemini is not one that [new URL] takes.
    Otherwise it returns, with the format resolved from the normalized
    URL and the configured format, the body and the URL of that format,
    and the sink and options of the caller. *)
Theorem callAPI_config_check (h : Host) (p : Params) :
  (forall e, callAPI h p = inl e ->
             e = newError (t h "error_api_config_incomplete")
             \/ e = TypeError "Invalid URL")
  /\ (callAPI h p = inl (newError (t h "error_api_config_incomplete"))
      <-> (apiConfig p = None
           \/ exists cfg,
                apiConfig p = Some cfg
                /\ (Js.truthyOpt (normalizeChatCompletionsUrl h (baseUrl cfg)) = false
                    \/ Js.truthyOpt (apiKey cfg) = false)))
  /\ (callAPI h p = inl (TypeError "Invalid URL")
      <-> exists cfg url,
            apiConfig p = Some cfg
            /\ normalizeChatCompletionsUrl h (baseUrl cfg) = Some url
            /\ Js.truthy url = true
            /\ Js.truthyOpt (apiKey cfg) = true
            /\ detectApiFormat url (apiFormat cfg) = "gemini"
            /\ URL_canParse h
                 (geminiRequestUrl url (orDefault (modelName cfg) "gemini-1.5-flash"))
               = false)
  /\ (forall prep,
        callAPI h p = inr prep ->
        exists cfg url,
          apiConfig p = Some cfg
          /\ normalizeChatCompletionsUrl h (baseUrl cfg) = Some url
          /\ url <> EmptyString
          /\ format prep = detectApiFormat url (apiFormat cfg)
          /\ body prep = requestBody h cfg (format prep) (processedMessages prep)
          /\ sink prep = hasSink p
          /\ streamOptions prep = options p
          /\ requestUrl prep
             = (if String.eqb (format prep) "gemini" then
                  URL_withParams h
                    (geminiRequestUrl url (orDefault (modelName cfg) "gemini-1.5-flash"))
                    [("key", match apiKey cfg with Some k => k | None => EmptyString end);
                     ("alt", "sse")]
                else if String.eqb (format prep) "claude" then claudeRequestUrl url
                else url)
          /\ (format prep = "gemini" ->
              URL_canParse h
                (geminiRequestUrl url (orDefault (modelName cfg) "gemini-1.5-flash"))
              = true)).
Proof.
  assert (Hret : forall prep,
            callAPI h p = inr prep ->
            exists cfg url,
              apiConfig p = Some cfg
              /\ normalizeChatCompletionsUrl h (baseUrl cfg) = Some url
              /\ url <> EmptyString
              /\ format prep = detectApiFormat url (apiFormat cfg)
              /\ body prep = requestBody h cfg (format prep) (processedMessages prep)
              /\ sink prep = hasSink p
              /\ streamOptions prep = options p
              /\ requestUrl prep
                 = (if String.eqb (format prep) "gemini" then
                      URL_withParams h
                        (geminiRequestUrl url
                           (orDefault (modelName cfg) "gemini-1.5-flash"))
                        [("key", match apiKey cfg with
                                 | Some k => k
                                 | None => EmptyString
                                 end);
                         ("alt", "sse")]
                    else if String.eqb (format prep) "claude" then claudeRequestUrl url
                    else url)
              /\ (format prep = "gemini" ->
                  URL_canParse h
                    (geminiRequestUrl url (orDefault (modelName cfg) "gemini-1.5-flash"))
                  = true)).
  { intros prep Hcall.
    destruct (callAPI_returns h p prep Hcall)
      as (cfg & u & H1 & H2 & H3 & _ & _ & H6 & H7 & H8 & H9 & _ & H11 & H12).
    exists cfg, u. split; [exact H1 |]. split; [exact H2 |].
    split; [intros ->; discriminate |]. auto 10. }
  split; [| split; [| split; [| exact Hret]]]; clear Hret; unfold callAPI.
  - intros e. destruct (apiConfig p) as [cfg |].
    + destruct (normalizeChatCompletionsUrl h (baseUrl cfg)) as [u |];
        [| intros [= <-]; now left].
      destruct (Js.truthy u && Js.truthyOpt (apiKey cfg)); [| intros [= <-]; now left].
      destruct (String.eqb (detectApiFormat u (apiFormat cfg)) "gemini").
      * destruct (URL_canParse h _); [discriminate | intros [= <-]; now right].
      * destruct (String.eqb (detectApiFormat u (apiFormat cfg)) "claude"); discriminate.
    + destruct (normalizeChatCompletionsUrl h None); intros [= <-]; now left.
  - destruct (apiConfig p) as [cfg |].
    + destruct (normalizeChatCompletionsUrl h (baseUrl cfg)) as [u |] eqn:Hn.
      * destruct (Js.truthy u) eqn:Hu; cbn [andb].
        -- destruct (Js.truthyOpt (apiKey cfg)) eqn:Hk.
           ++ split.
              ** destruct (String.eqb (detectApiFormat u (apiFormat cfg)) "gemini").
                 --- destruct (URL_canParse h _); discriminate.
                 --- destruct (String.eqb (detectApiFormat u (apiFormat cfg)) "claude");
                       discriminate.
              ** intros [[=] | (cfg' & [= <-] & Hf)]. rewrite Hn in Hf. cbn in Hf.
                 destruct Hf; congruence.
           ++ split; [intros _ | reflexivity]. right. exists cfg. auto.
        -- split; [intros _ | reflexivity]. right. exists cfg.
           split; [reflexivity |]. left. rewrite Hn. exact Hu.
      * split; [intros _ | reflexivity]. right. exists cfg.
        split; [reflexivity |]. left. now rewrite Hn.
    + split; [now left |]. intros _. destruct (normalizeChatCompletionsUrl h None); reflexivity.
  - destruct (apiConfig p) as [cfg |].
    + destruct (normalizeChatCompletionsUrl h (baseUrl cfg)) as [u |] eqn:Hn.
      * destruct (Js.truthy u) eqn:Hu; cbn [andb].
        -- destruct (Js.truthyOpt (apiKey cfg)) eqn:Hk.
           ++ destruct (String.eqb (detectApiFormat u (apiFormat cfg)) "gemini") eqn:Eg.
              ** destruct (URL_canParse h _) eqn:Ec.
                 --- split; [discriminate |].
                     intros (cfg' & u' & [= <-] & Hn' & _ & _ & _ & Hc).
                     rewrite Hn in Hn'. injection Hn' as <-. congruence.
                 --- split; [intros _ | reflexivity]. exists cfg, u.
                     apply String.eqb_eq in Eg. auto 10.
              ** split.
                 --- destruct (String.eqb (detectApiFormat u (apiFormat cfg)) "claude");
                       discriminate.
                 --- intros (cfg' & u' & [= <-] & Hn' & _ & _ & Hg & _).
                     rewrite Hn in Hn'. injection Hn' as <-.
                     apply String.eqb_neq in Eg. contradiction.
           ++ split; [discriminate |].
              intros (cfg' & u' & [= <-] & _ & _ & Hk' & _). congruence.
        -- split; [discriminate |].
           intros (cfg' & u' & [= <-] & Hn' & Hu' & _).
           rewrite Hn in Hn'. injection Hn' as <-. congruence.
      * split; [discriminate |].
        intros (cfg' & u' & [= <-] & Hn' & _). congruence.
    + split.
      * destruct (normalizeChatCompletionsUrl h None); discriminate.
      * intros (cfg' & u' & [=] & _).
Qed.

(** A base URL that is not absolute: the Gemini branch composes the URL
    and [new URL] throws. *)
Example callAPI_relative_gemini_url :
  callAPI (demoHost tickingClock) (geminiParams "gemini-proxy")
  = inl (TypeError "Invalid URL").
Proof. reflexivity. Qed.

(** An absolute base URL: the composed URL gets the key and [alt=sse]. *)
Example callAPI_gemini_url :
  exists prep,
    callAPI (demoHost tickingClock)
      (geminiParams "https://generativelanguage.googleapis.com/") = inr prep
    /\ format prep = "gemini"
    /\ requestUrl prep
       = ("https://generativelanguage.googleapis.com/v1beta/models/"
          ++ "gemini-1.5-flash:streamGenerateContent?key=k&alt=sse")%string.
Proof. eexists. repeat split. Qed.

(* ================================================================== *)
(** * The prefixes of the guard *)
(* ================================================================== *)

Lemma lowerChar_idempotent (c : ascii) : Js.lowerChar (Js.lowerChar c) = Js.lowerChar c.
Proof. destruct c as [[] [] [] [] [] [] [] []]; reflexivity. Qed.

Lemma toLowerCase_idempotent (s : string) :
  Js.toLowerCase (Js.toLowerCase s) = Js.toLowerCase s.
Proof.
  induction s as [| c s IH]; [reflexivity |].
  cbn [Js.toLowerCase]. now rewrite lowerChar_idempotent, IH.
Qed.

Lemma existsb_eqb_In (x : string) (seen : list string) :
  existsb (String.eqb x) seen = true <-> In x seen.
Proof.
  rewrite existsb_exists. split.
  - intros [y [Hin Heq]]. apply String.eqb_eq in Heq. now subst.
  - intros Hin. exists x. split; [exact Hin | apply String.eqb_refl].
Qed.

Lemma dedup_fold (xs acc : list string) :
  NoDup acc ->
  NoDup (fold_left (fun seen x => if existsb (String.eqb x) seen then seen else seen ++ [x])
           xs acc)
  /\ (forall x,
        In x (fold_left (fun seen x => if existsb (String.eqb x) seen then seen
                                       else seen ++ [x]) xs acc)
        <-> In x acc \/ In x xs).
Proof.
  revert acc. induction xs as [| y xs IH]; intros acc Hnd; cbn [fold_left].
  - split; [exact Hnd |]. intros x. cbn. tauto.
  - destruct (existsb (String.eqb y) acc) eqn:E.
    + destruct (IH acc Hnd) as [H1 H2]. split; [exact H1 |].
      intros x. rewrite H2. cbn [In]. apply existsb_eqb_In in E.
      split; [tauto |]. intros [H | [<- | H]]; auto.
    + assert (Hnot : ~ In y acc).
      { intros Hin. apply existsb_eqb_In in Hin. congruence. }
      assert (Hnd' : NoDup (acc ++ [y])).
      { apply NoDup_app; [exact Hnd | repeat constructor; intros [] |].
        intros a Ha [<- | []]. contradiction. }
      destruct (IH _ Hnd') as [H1 H2]. split; [exact H1 |].
      intros x. rewrite H2, in_app_iff. cbn [In]. tauto.
Qed.

(** X7. The prefixes the guard works with have no duplicate, none is
    empty, and each is in lower case; they are exactly the configured
    prefixes, trimmed and lower-cased, that are not blank.  So a
    content that is empty after trimming never begins with a prefix. *)
Theorem normalizedPrefixes_clean (o : Options) :
  NoDup (normalizedPrefixes o)
  /\ Forall (fun p => p <> EmptyString /\ Js.toLowerCase p = p) (normalizedPrefixes o)
  /\ (forall p, In p (normalizedPrefixes o)
                <-> exists raw, In raw (configuredPrefixes o)
                                /\ Js.trim raw <> EmptyString
                                /\ p = Js.toLowerCase (Js.trim raw))
  /\ existsb (fun p => Js.startsWith EmptyString p) (normalizedPrefixes o) = false.
Proof.
  assert (Hin : forall p, In p (normalizedPrefixes o)
                          <-> exists raw, In raw (configuredPrefixes o)
                                          /\ Js.trim raw <> EmptyString
                                          /\ p = Js.toLowerCase (Js.trim raw)).
  { intros p. unfold normalizedPrefixes, dedup. fold (configuredPrefixes o).
    rewrite (proj2 (dedup_fold _ [] (NoDup_nil _))). cbn [In].
    rewrite filter_In, in_map_iff. split.
    - intros [[] | [(raw & <- & Hraw) Ht]]. exists raw.
      split; [exact Hraw |]. split; [| reflexivity].
      intros He. rewrite He in Ht. discriminate.
    - intros (raw & Hraw & Hne & ->). right. split; [now exists raw |].
      destruct (Js.trim raw); [now destruct Hne | reflexivity]. }
  assert (Hall : Forall (fun p => p <> EmptyString /\ Js.toLowerCase p = p)
                   (normalizedPrefixes o)).
  { apply Forall_forall. intros p Hp. apply Hin in Hp.
    destruct Hp as (raw & _ & Hne & ->). split.
    - destruct (Js.trim raw); [now destruct Hne | discriminate].
    - apply toLowerCase_idempotent. }
  split; [apply dedup_fold; constructor |]. split; [exact Hall |]. split; [exact Hin |].
  destruct (existsb _ (normalizedPrefixes o)) eqn:E; [| reflexivity].
  apply existsb_exists in E. destruct E as (p & Hp & Hs).
  rewrite Forall_forall in Hall. destruct (Hall p Hp) as [Hne _].
  destruct p; [now destruct Hne | discriminate Hs].
Qed.

(* ================================================================== *)
(** * Invariants of a run *)
(* ================================================================== *)

Lemma scheduleUpdate_cases (h : Host) (r : Run) (st : State) :
  (updateTimeout st <> None /\ scheduleUpdate h r st = st)
  \/ (updateTimeout st = None
      /\ Z.gtb (Date_now h (clock st) - lastUpdateTime st) UPDATE_INTERVAL = true
      /\ scheduleUpdate h r st = dispatchUpdate h r (tick st))
  \/ (updateTimeout st = None
      /\ Z.gtb (Date_now h (clock st) - lastUpdateTime st) UPDATE_INTERVAL = false
      /\ scheduleUpdate h r st
         = arm st (UPDATE_INTERVAL - (Date_now h (S (clock st)) - lastUpdateTime st))).
Proof.
  unfold scheduleUpdate. destruct (updateTimeout st) eqn:E.
  - left. split; [discriminate | reflexivity].
  - right. destruct (Z.gtb _ _) eqn:G.
    + left. repeat split. unfold tick. now rewrite E.
    + right. repeat split.
Qed.

Lemma onDone_cases (h : Host) (r : Run) (st : State) :
  onDone h r st = tick st \/ onDone h r st = dispatchUpdate h r (tick st).
Proof. unfold onDone. destruct (Z.gtb _ _); [now right | now left]. Qed.

Section Invariant.

Variable h : Host.
Variable r : Run.
Variable P : State -> Prop.

Hypothesis P_message :
  forall st m, P st -> decodes h (run_format r) (currentMessage st) m -> P (withMessage st m).
Hypothesis P_tick : forall st, P st -> P (tick st).
Hypothesis P_arm : forall st d, P st -> updateTimeout st = None -> P (arm st d).
Hypothesis P_dispatch : forall st, P st -> P (dispatchUpdate h r st).
Hypothesis P_buffer : forall st b, P st -> P (withBuffer st b).
Hypothesis P_log : forall st e, P st -> P (withEffect st (ConsoleError e)).

Lemma scheduleUpdate_invariant (st : State) : P st -> P (scheduleUpdate h r st).
Proof.
  intros H.
  destruct (scheduleUpdate_cases h r st) as [[_ ->] | [(_ & _ & ->) | (E & _ & ->)]];
    auto.
Qed.

Lemma onUpdate_invariant (st : State) :
  P st -> match onUpdate h r st with Normal st' | Throw _ st' => P st' end.
Proof.
  intros H. unfold onUpdate. destruct (guardActive r st).
  - destruct (existsb _ _); [exact H |].
    destruct (existsb _ _); [exact H | now apply scheduleUpdate_invariant].
  - now apply scheduleUpdate_invariant.
Qed.

Lemma tryData_invariant (data : string) (st : State) :
  P st -> match tryData h r data st with Normal st' | Throw _ st' => P st' end.
Proof.
  intros H. unfold tryData. destruct (JSON_parse h data) as [parsed |]; [| exact H].
  assert (Hm : forall m u e,
             applyRecord h (run_format r) parsed (currentMessage st) = Normal (m, u)
             \/ applyRecord h (run_format r) parsed (currentMessage st) = Throw e (m, u) ->
             P (withMessage st m)).
  { intros m u e Hc. apply P_message; [exact H |]. exists parsed.
    destruct Hc as [-> | ->]; reflexivity. }
  destruct (applyRecord h (run_format r) parsed (currentMessage st))
    as [[m u] | e [m u]] eqn:E.
  - destruct u; [| exact (Hm m false guardError (or_introl eq_refl))].
    apply onUpdate_invariant. exact (Hm m true guardError (or_introl eq_refl)).
  - exact (Hm m u e (or_intror eq_refl)).
Qed.

Lemma handleLine_invariant (line : string) (st : State) :
  P st -> match handleLine h r line st with Normal st' | Throw _ st' => P st' end.
Proof.
  intros H. unfold handleLine. destruct (Js.startsWith line "data: "); [| exact H].
  destruct (String.eqb _ "[DONE]"); [exact H |].
  pose proof (tryData_invariant (Js.sliceFrom line 6) st H) as Ht.
  destruct (tryData h r (Js.sliceFrom line 6) st) as [st' | e st']; cbn [catchData];
    [exact Ht |].
  destruct (code e) as [c |]; [destruct (String.eqb c GUARD_CODE) |]; auto.
Qed.

Lemma drainBuffer_invariant (fuel : nat) (st : State) :
  P st ->
  match drainBuffer fuel h r st with
  | Some (Normal st') | Some (Throw _ st') => P st'
  | None => True
  end.
Proof.
  revert st. induction fuel as [| fuel IH]; intros st H; cbn [drainBuffer];
    destruct (Js.indexOf (buffer st) Js.LF) as [i |]; try exact H; [exact I |].
  pose proof (handleLine_invariant (Js.slice (buffer st) 0 i)
                (withBuffer st (Js.sliceFrom (buffer st) (i + 1)))
                (P_buffer _ _ H)) as Hl.
  destruct (handleLine h r _ _) as [st2 | e st2]; [now apply IH | exact Hl].
Qed.

Lemma onTimer_invariant (st : State) : P st -> P (onTimer h r st).
Proof. intros H. unfold onTimer. destruct (updateTimeout st); auto. Qed.

Lemma onDone_invariant (st : State) : P st -> P (onDone h r st).
Proof. intros H. destruct (onDone_cases h r st) as [-> | ->]; auto. Qed.

(** An invariant of the steps is an invariant of the read loop, however
    it ends. *)
Lemma readLoop_invariant (events : list Event) (st : State) :
  P st -> P (snd (readLoop h r events st)).
Proof.
  revert st. induction events as [| ev events IH]; intros st H; cbn [readLoop];
    [exact H |].
  destruct ev as [[chunk | | e] |].
  - unfold onChunk.
    pose proof (drainBuffer_invariant
                  (String.length (buffer (withBuffer st (buffer st ++ chunk))))
                  (withBuffer st (buffer st ++ chunk)) (P_buffer _ _ H)) as Hd.
    destruct (drainBuffer _ h r _) as [[st' | e st'] |]; cbn [snd]; auto.
  - cbn [snd]. now apply onDone_invariant.
  - exact H.
  - apply IH. now apply onTimer_invariant.
Qed.

End Invariant.

(* ================================================================== *)
(** * The accumulator only grows *)
(* ================================================================== *)

Local Open Scope string_scope.

Lemma grows_refl (m : Acc.Msg) : grows m m.
Proof. split; exists EmptyString; now rewrite append_nil_r. Qed.

Lemma grows_trans (a b c : Acc.Msg) : grows a b -> grows b c -> grows a c.
Proof.
  intros [[x Hx] [y Hy]] [[x' Hx'] [y' Hy']]. split.
  - exists (x ++ x'). now rewrite Hx', Hx, append_assoc.
  - exists (y ++ y'). now rewrite Hy', Hy, append_assoc.
Qed.

Lemma appendVal_extends (h : Host) (s : string) (v : jsval) :
  exists x, appendVal h s v = s ++ x.
Proof. destruct v as [[] |]; cbn [appendVal]; eauto. Qed.

Lemma grows_content (h : Host) (m : Acc.Msg) (v : jsval) :
  grows m {| Acc.content := appendVal h (Acc.content m) v;
             Acc.reasoning_content := Acc.reasoning_content m |}.
Proof.
  split; cbn; [apply appendVal_extends |].
  exists EmptyString. now rewrite append_nil_r.
Qed.

Lemma grows_reasoning (h : Host) (m : Acc.Msg) (v : jsval) :
  grows m {| Acc.content := Acc.content m;
             Acc.reasoning_content := appendVal h (Acc.reasoning_content m) v |}.
Proof.
  split; cbn; [| apply appendVal_extends].
  exists EmptyString. now rewrite append_nil_r.
Qed.

Lemma applyOpenai_grows (h : Host) (parsed : json) (m : Acc.Msg) :
  match applyOpenai h parsed m with Normal d | Throw _ d => grows m (fst d) end.
Proof.
  unfold applyOpenai. destruct (getProp parsed "choices") as [e | choices];
    [apply grows_refl |].
  destruct (truthyVal h (optProp _ "content"));
    destruct (truthyVal h (optProp _ "reasoning_content")); cbn [fst].
  - eapply grows_trans; [apply grows_content | apply grows_reasoning].
  - apply grows_content.
  - apply grows_reasoning.
  - apply grows_refl.
Qed.

Lemma geminiLoop_grows (h : Host) (parts : list json) (d : Delta) :
  match geminiLoop h parts d with Normal d' | Throw _ d' => grows (fst d) (fst d') end.
Proof.
  revert d. induction parts as [| part rest IH]; intros d; cbn [geminiLoop];
    [apply grows_refl |].
  destruct (getProp part "text") as [e | text]; [apply grows_refl |].
  destruct (truthyVal h text); [| apply IH].
  match goal with |- context [geminiLoop h rest ?d1] =>
    specialize (IH d1); destruct (geminiLoop h rest d1) end;
    (eapply grows_trans; [apply grows_content | exact IH]).
Qed.

Lemma applyGemini_grows (h : Host) (parsed : json) (m : Acc.Msg) :
  match applyGemini h parsed m with Normal d | Throw _ d => grows m (fst d) end.
Proof.
  unfold applyGemini. destruct (getProp parsed "candidates") as [e | candidates];
    [apply grows_refl |].
  destruct (truthyVal h candidates && truthyVal h _); [| apply grows_refl].
  destruct (optProp _ "parts") as [[| | | | elems |] |]; try apply grows_refl.
  apply (geminiLoop_grows h elems (m, false)).
Qed.

Lemma applyClaude_grows (h : Host) (parsed : json) (m : Acc.Msg) :
  match applyClaude h parsed m with Normal d | Throw _ d => grows m (fst d) end.
Proof.
  unfold applyClaude. destruct (getProp parsed "type") as [e | ty];
    [apply grows_refl |].
  destruct ty as [[| | | s | |] |]; try apply grows_refl.
  destruct (String.eqb s _ && truthyVal h _); [apply grows_content | apply grows_refl].
Qed.

Lemma decodes_grows (h : Host) (fmt : string) (m m' : Acc.Msg) :
  decodes h fmt m m' -> grows m m'.
Proof.
  intros [parsed H]. unfold applyRecord in H.
  destruct (String.eqb fmt "gemini"); [| destruct (String.eqb fmt "claude")].
  - pose proof (applyGemini_grows h parsed m) as G.
    destruct (applyGemini h parsed m); now subst.
  - pose proof (applyClaude_grows h parsed m) as G.
    destruct (applyClaude h parsed m); now subst.
  - pose proof (applyOpenai_grows h parsed m) as G.
    destruct (applyOpenai h parsed m); now subst.
Qed.

Lemma dispatchUpdate_message (h : Host) (r : Run) (st : State) :
  currentMessage (dispatchUpdate h r st) = currentMessage st.
Proof.
  unfold dispatchUpdate. destruct (run_sink r); cbn [updateTimeout];
    destruct (updateTimeout st); reflexivity.
Qed.

Local Open Scope list_scope.

Lemma readLoop_grows (h : Host) (r : Run) (events : list Event) (st : State) :
  grows (currentMessage st) (currentMessage (snd (readLoop h r events st))).
Proof.
  apply (readLoop_invariant h r (fun s => grows (currentMessage st) (currentMessage s))).
  - intros s m H D. cbn. eapply grows_trans; [exact H |].
    eapply decodes_grows; eassumption.
  - auto.
  - auto.
  - intros s H. now rewrite dispatchUpdate_message.
  - auto.
  - auto.
  - apply grows_refl.
Qed.

(** X8. The accumulator is append-only: whatever the events, the
    content and the reasoning content the read loop ends with begin
    with those it started from; and what it holds after some events is
    a prefix, on both channels, of what it holds after these and any
    further events. *)
Theorem accumulator_append_only (h : Host) (r : Run)
  (events more : list Event) (st0 : State) :
  grows (currentMessage st0) (currentMessage (snd (readLoop h r events st0)))
  /\ (fst (readLoop h r events st0) = Waiting ->
      grows (currentMessage (snd (readLoop h r events st0)))
            (currentMessage (snd (readLoop h r (events ++ more) st0)))).
Proof.
  split; [apply readLoop_grows |].
  intros Hw. destruct (readLoop h r events st0) as [o st1] eqn:E.
  cbn [fst snd] in *. subst o.
  rewrite (readLoop_app h r events more st0 st1 E). apply readLoop_grows.
Qed.

(* ================================================================== *)
(** * What is handed to the store and to the UI *)
(* ================================================================== *)

From Stdlib Require Import Sorted.

Lemma StronglySorted_snoc {A : Type} (R : A -> A -> Prop) (l : list A) (a : A) :
  StronglySorted R l -> Forall (fun x => R x a) l -> StronglySorted R (l ++ [a]).
Proof.
  intros Hs Hall. induction Hs as [| x l Hs IH Hx]; cbn.
  - repeat constructor.
  - inversion Hall as [| ? ? Hxa Hl]; subst. constructor; [now apply IH |].
    apply Forall_app. split; [exact Hx | now repeat constructor].
Qed.

Lemma dispatchUpdate_effects (h : Host) (r : Run) (st : State) :
  exists tail,
    effects (dispatchUpdate h r st)
    = effects st
      ++ (if run_sink r
          then [UpdateLastMessage (currentMessage st); OnMessageUpdate (currentMessage st)]
          else [])
      ++ tail
    /\ (tail = [] \/ tail = [ClearTimeout]).
Proof.
  unfold dispatchUpdate. destruct (run_sink r); cbn [updateTimeout];
    destruct (updateTimeout st); cbn [effects].
  - exists [ClearTimeout]. rewrite <- app_assoc. auto.
  - exists []. auto.
  - exists [ClearTimeout]. auto.
  - exists []. rewrite app_nil_r. auto.
Qed.

Lemma dispatchUpdate_dispatched (h : Host) (r : Run) (st : State) :
  dispatched (effects (dispatchUpdate h r st))
  = dispatched (effects st) ++ (if run_sink r then [currentMessage st] else [])
  /\ shown (effects (dispatchUpdate h r st))
     = shown (effects st) ++ (if run_sink r then [currentMessage st] else []).
Proof.
  destruct (dispatchUpdate_effects h r st) as (tail & -> & Ht).
  rewrite !dispatched_app, !shown_app.
  destruct Ht as [-> | ->]; destruct (run_sink r); cbn; now rewrite ?app_nil_r.
Qed.

(** The snapshots handed out so far: the store and the UI got the same
    ones, each is a prefix of the accumulator, and each is a prefix of
    the ones after it. *)
Lemma snapshots_invariant (h : Host) (r : Run) (events : list Event) (st : State) :
  (dispatched (effects st) = shown (effects st)
   /\ Forall (fun s => grows s (currentMessage st)) (dispatched (effects st))
   /\ StronglySorted grows (dispatched (effects st))) ->
  dispatched (effects (snd (readLoop h r events st)))
  = shown (effects (snd (readLoop h r events st)))
  /\ Forall (fun s => grows s (currentMessage (snd (readLoop h r events st))))
       (dispatched (effects (snd (readLoop h r events st))))
  /\ StronglySorted grows (dispatched (effects (snd (readLoop h r events st)))).
Proof.
  apply (readLoop_invariant h r
           (fun s => dispatched (effects s) = shown (effects s)
                     /\ Forall (fun x => grows x (currentMessage s)) (dispatched (effects s))
                     /\ StronglySorted grows (dispatched (effects s)))).
  - intros s m (H1 & H2 & H3) D. cbn. split; [exact H1 |]. split; [| exact H3].
    eapply Forall_impl; [| exact H2]. intros a Ha.
    eapply grows_trans; [exact Ha | eapply decodes_grows; eassumption].
  - auto.
  - intros s d (H1 & H2 & H3) _. cbn. rewrite dispatched_app, shown_app. cbn.
    now rewrite !app_nil_r.
  - intros s (H1 & H2 & H3).
    destruct (dispatchUpdate_dispatched h r s) as [D S].
    rewrite D, S, dispatchUpdate_message, H1. split; [reflexivity |].
    rewrite <- H1. destruct (run_sink r).
    + split.
      * apply Forall_app. split; [exact H2 |].
        constructor; [apply grows_refl | constructor].
      * now apply StronglySorted_snoc.
    + now rewrite app_nil_r.
  - auto.
  - intros s e (H1 & H2 & H3). cbn. rewrite dispatched_app, shown_app. cbn.
    now rewrite !app_nil_r.
Qed.

Lemma processStream_state (h : Host) (r : Run) (f : FetchResult) (events : list Event) :
  snd (processStream h r f events) = startState
  \/ snd (processStream h r f events) = snd (readLoop h r events startState)
  \/ snd (processStream h r f events)
     = withEffect (snd (readLoop h r events startState)) ReaderCancel.
Proof.
  unfold processStream. fold startState. destruct f as [e | resp]; [now left |].
  destruct (negb (ok resp)); [now left |].
  destruct (negb (hasReader resp)); [now left |].
  destruct (readLoop h r events startState) as [[m | e | |] st]; cbn [snd]; auto.
Qed.

(** X9. Whatever the run, the store and the UI callback are handed the
    same snapshots in the same order; each snapshot is a prefix, on
    both channels, of every later snapshot and of the accumulator the
    run ends with. *)
Theorem snapshots_are_ordered_prefixes
  (h : Host) (r : Run) (f : FetchResult) (events : list Event) :
  dispatched (effects (snd (processStream h r f events)))
  = shown (effects (snd (processStream h r f events)))
  /\ Forall (fun s => grows s (currentMessage (snd (processStream h r f events))))
       (dispatched (effects (snd (processStream h r f events))))
  /\ StronglySorted grows (dispatched (effects (snd (processStream h r f events)))).
Proof.
  assert (H0 : dispatched (effects startState) = shown (effects startState)
               /\ Forall (fun s => grows s (currentMessage startState))
                    (dispatched (effects startState))
               /\ StronglySorted grows (dispatched (effects startState))).
  { cbn. repeat constructor. }
  pose proof (snapshots_invariant h r events startState H0) as H.
  destruct (processStream_state h r f events) as [-> | [-> | ->]];
    [exact H0 | exact H |].
  cbn [effects withEffect currentMessage]. rewrite dispatched_app, shown_app. cbn.
  now rewrite !app_nil_r.
Qed.

(** X10. Without a store ([chatManager] or [chatId] missing) a run hands
    nothing to the store or to the UI, whatever arrives, and
    [didDispatchAnyUpdate] and [lastUpdateTime] stay as they began. *)
Theorem no_sink_no_dispatch (h : Host) (r : Run) (f : FetchResult) (events : list Event) :
  run_sink r = false ->
  dispatched (effects (snd (processStream h r f events))) = []
  /\ shown (effects (snd (processStream h r f events))) = []
  /\ didDispatchAnyUpdate (snd (processStream h r f events)) = false
  /\ lastUpdateTime (snd (processStream h r f events)) = 0%Z.
Proof.
  intros Hs.
  assert (H0 : dispatched (effects startState) = [] /\ shown (effects startState) = []
               /\ didDispatchAnyUpdate startState = false
               /\ lastUpdateTime startState = 0%Z) by (cbn; auto).
  assert (H : dispatched (effects (snd (readLoop h r events startState))) = []
              /\ shown (effects (snd (readLoop h r events startState))) = []
              /\ didDispatchAnyUpdate (snd (readLoop h r events startState)) = false
              /\ lastUpdateTime (snd (readLoop h r events startState)) = 0%Z).
  { apply (readLoop_invariant h r
             (fun s => dispatched (effects s) = [] /\ shown (effects s) = []
                       /\ didDispatchAnyUpdate s = false /\ lastUpdateTime s = 0%Z));
      [| | | | | | exact H0]; try (intros; assumption).
    - intros s d (H1 & H2 & H3 & H4) _. cbn.
      rewrite dispatched_app, shown_app, H1, H2. auto.
    - intros s (H1 & H2 & H3 & H4).
      destruct (dispatchUpdate_dispatched h r s) as [D S].
      rewrite D, S, Hs, H1, H2. unfold dispatchUpdate. rewrite Hs.
      destruct (updateTimeout s); cbn; auto.
    - intros s e (H1 & H2 & H3 & H4). cbn.
      rewrite dispatched_app, shown_app, H1, H2. auto. }
  destruct (processStream_state h r f events) as [-> | [-> | ->]];
    [exact H0 | exact H |].
  destruct H as (H1 & H2 & H3 & H4). cbn.
  rewrite dispatched_app, shown_app, H1, H2. auto.
Qed.

Lemma no_sink_no_dispatch_witness :
  dispatched (effects (snd (processStream (demoHost tickingClock) sinklessRun
                              (FetchResolves okResponse) helloEvents))) = []
  /\ shown (effects (snd (processStream (demoHost tickingClock) sinklessRun
                            (FetchResolves okResponse) helloEvents))) = []
  /\ didDispatchAnyUpdate (snd (processStream (demoHost tickingClock) sinklessRun
                                  (FetchResolves okResponse) helloEvents)) = false
  /\ lastUpdateTime (snd (processStream (demoHost tickingClock) sinklessRun
                            (FetchResolves okResponse) helloEvents)) = 0%Z.
Proof.
  exact (no_sink_no_dispatch (demoHost tickingClock) sinklessRun
           (FetchResolves okResponse) helloEvents eq_refl).
Defined.

(* ================================================================== *)
(** * The reader is released once *)
(* ================================================================== *)

Lemma readerCancels_app (a b : list Effect) :
  readerCancels (a ++ b) = readerCancels a + readerCancels b.
Proof.
  induction a as [| e a IH]; [reflexivity |].
  destruct e; cbn; now rewrite IH.
Qed.

Lemma readLoop_no_cancel (h : Host) (r : Run) (events : list Event) (st : State) :
  readerCancels (effects st) = 0 ->
  readerCancels (effects (snd (readLoop h r events st))) = 0.
Proof.
  apply (readLoop_invariant h r (fun s => readerCancels (effects s) = 0));
    try (intros; assumption).
  - intros s d H _. cbn. rewrite readerCancels_app, H. reflexivity.
  - intros s H. destruct (dispatchUpdate_effects h r s) as (tail & -> & Ht).
    rewrite !readerCancels_app, H. destruct Ht as [-> | ->]; destruct (run_sink r);
      reflexivity.
  - intros s e H. cbn. rewrite readerCancels_app, H. reflexivity.
Qed.

(** X11. The reader is released exactly once on every way out of
    [processStream] that had a reader, as the last thing the call does:
    when the stream ends, when the guard or a read throws, when the
    call is cancelled.  While the call still waits for a read, and
    when no reader was ever obtained (the fetch failed, the response
    was not [ok], the body could not be read), nothing is released. *)
Theorem reader_released_once (h : Host) (r : Run) (f : FetchResult) (events : list Event) :
  (forall resp,
     f = FetchResolves resp -> ok resp = true -> hasReader resp = true ->
     fst (processStream h r f events) <> Pending ->
     readerCancels (effects (snd (processStream h r f events))) = 1
     /\ exists before, effects (snd (processStream h r f events)) = before ++ [ReaderCancel])
  /\ (fst (processStream h r f events) = Pending ->
      readerCancels (effects (snd (processStream h r f events))) = 0)
  /\ ((forall resp, f = FetchResolves resp -> ok resp = false \/ hasReader resp = false) ->
      readerCancels (effects (snd (processStream h r f events))) = 0).
Proof.
  pose proof (readLoop_no_cancel h r events startState eq_refl) as H0.
  pose proof (readLoop_fuel h r events startState) as Hfuel.
  unfold processStream. fold startState.
  destruct f as [e | resp].
  - split; [intros resp [=] |]. split; [reflexivity | reflexivity].
  - destruct (ok resp) eqn:Hok; cbn [negb].
    + destruct (hasReader resp) eqn:Hr; cbn [negb].
      * destruct (readLoop h r events startState) as [[m | e | |] st]; cbn [fst snd] in *.
        -- split; [| split].
           ++ intros resp' _ _ _ _. cbn. rewrite readerCancels_app, H0. eauto.
           ++ discriminate.
           ++ intros H. destruct (H resp eq_refl); congruence.
        -- split; [| split].
           ++ intros resp' _ _ _ _. cbn. rewrite readerCancels_app, H0. eauto.
           ++ unfold outerCatch. destruct (String.eqb (name e) "AbortError"); discriminate.
           ++ intros H. destruct (H resp eq_refl); congruence.
        -- split; [| split].
           ++ intros resp' _ _ _ Hp. now destruct Hp.
           ++ intros _. exact H0.
           ++ intros _. exact H0.
        -- now destruct Hfuel.
      * split; [| split].
        -- intros resp' [= <-] _ Hh. congruence.
        -- reflexivity.
        -- reflexivity.
    + split; [| split].
      * intros resp' [= <-] Ho. congruence.
      * reflexivity.
      * reflexivity.
Qed.

(* ================================================================== *)
(** * One timer at a time *)
(* ================================================================== *)

Lemma timers_app (p : bool) (a b : list Effect) :
  timers p (a ++ b)
  = match timers p a with Some p' => timers p' b | None => None end.
Proof.
  revert p. induction a as [| e a IH]; intros p; [reflexivity |].
  destruct e; cbn [app timers]; try apply IH.
  destruct p; [reflexivity | apply IH].
Qed.

Lemma readLoop_timers (h : Host) (r : Run) (events : list Event) (st : State) :
  timers false (effects st) = Some (isPending st) ->
  timers false (effects (snd (readLoop h r events st)))
  = Some (isPending (snd (readLoop h r events st))).
Proof.
  apply (readLoop_invariant h r (fun s => timers false (effects s) = Some (isPending s)));
    try (intros; assumption).
  - intros s d H E. unfold isPending in H. rewrite E in H.
    cbn [arm effects]. rewrite timers_app, H. reflexivity.
  - intros s H. unfold dispatchUpdate, isPending in *.
    destruct s as [b cm l ut d c es]. cbn in H.
    destruct (run_sink r), ut; cbn; rewrite ?timers_app, ?H; reflexivity.
  - intros s e H. cbn [withEffect effects]. rewrite timers_app, H. reflexivity.
Qed.

(** X12. A run never arms a timer while another is pending, and the
    timers it armed and cleared add up to [updateTimeout]: read from
    left to right, the [setTimeout] and [clearTimeout] calls of any run
    leave a timer pending exactly when [updateTimeout] is set at the
    end. *)
Theorem one_timer_at_a_time (h : Host) (r : Run) (f : FetchResult) (events : list Event) :
  timers false (effects (snd (processStream h r f events)))
  = Some (isPending (snd (processStream h r f events))).
Proof.
  pose proof (readLoop_timers h r events startState eq_refl) as H.
  destruct (processStream_state h r f events) as [-> | [-> | ->]];
    [reflexivity | exact H |].
  cbn [withEffect effects]. rewrite timers_app, H. reflexivity.
Qed.

(* ================================================================== *)
(** * The reasoning channel *)
(* ================================================================== *)

Lemma geminiLoop_reasoning (h : Host) (parts : list json) (d : Delta) :
  match geminiLoop h parts d with
  | Normal d' | Throw _ d' =>
      Acc.reasoning_content (fst d') = Acc.reasoning_content (fst d)
  end.
Proof.
  revert d. induction parts as [| part rest IH]; intros d; cbn [geminiLoop];
    [reflexivity |].
  destruct (getProp part "text") as [e | text]; [reflexivity |].
  destruct (truthyVal h text); [| apply IH].
  match goal with |- context [geminiLoop h rest ?d1] =>
    specialize (IH d1); destruct (geminiLoop h rest d1) end; exact IH.
Qed.

Lemma decodes_reasoning (h : Host) (fmt : string) (m m' : Acc.Msg) :
  fmt = "gemini" \/ fmt = "claude" ->
  decodes h fmt m m' ->
  Acc.reasoning_content m' = Acc.reasoning_content m.
Proof.
  intros Hf [parsed H]. unfold applyRecord in H. destruct Hf as [-> | ->].
  - change (String.eqb "gemini" "gemini") with true in H. cbv iota in H.
    unfold applyGemini in H.
    destruct (getProp parsed "candidates") as [e | candidates]; [now subst |].
    destruct (truthyVal h candidates && truthyVal h _); [| now subst].
    destruct (optProp _ "parts") as [[| | | | elems |] |]; try (now subst).
    pose proof (geminiLoop_reasoning h elems (m, false)) as G.
    destruct (geminiLoop h elems (m, false)); now subst.
  - change (String.eqb "claude" "gemini") with false in H.
    change (String.eqb "claude" "claude") with true in H. cbv iota in H.
    unfold applyClaude in H.
    destruct (getProp parsed "type") as [e | ty]; [now subst |].
    destruct ty as [[| | | s | |] |]; try (now subst).
    destruct (String.eqb s _ && truthyVal h _); now subst.
Qed.

(** X13. The Gemini and the Claude decoders never touch the reasoning
    channel: in a run of either format the reasoning content stays
    empty, also in the accumulator the call resolves with. *)
Theorem reasoning_channel_unused (h : Host) (r : Run) (f : FetchResult)
  (events : list Event) :
  run_format r = "gemini" \/ run_format r = "claude" ->
  Acc.reasoning_content (currentMessage (snd (processStream h r f events))) = EmptyString
  /\ (forall m, fst (processStream h r f events) = Resolved (Some m) ->
                Acc.reasoning_content m = EmptyString).
Proof.
  intros Hf.
  assert (H : Acc.reasoning_content (currentMessage (snd (readLoop h r events startState)))
              = EmptyString).
  { apply (readLoop_invariant h r
             (fun s => Acc.reasoning_content (currentMessage s) = EmptyString));
      try (intros; assumption); try reflexivity.
    - intros s m H D. cbn. now rewrite (decodes_reasoning h _ _ _ Hf D).
    - intros s H. now rewrite dispatchUpdate_message. }
  split.
  - destruct (processStream_state h r f events) as [-> | [-> | ->]];
      [reflexivity | exact H | exact H].
  - intros m Hm.
    destruct (processStream h r f events) as [o stF] eqn:E. cbn [fst] in Hm. subst o.
    destruct (processStream_resolved h r f events m stF E) as (st' & Hl & ->).
    destruct (readLoop_returned h r events startState m st' Hl)
      as (pre & post & st & _ & _ & -> & ->).
    rewrite Hl in H. cbn [snd] in H. rewrite onDone_message in H. exact H.
Qed.

Lemma reasoning_channel_unused_witness :
  Acc.reasoning_content
    (currentMessage (snd (processStream (demoHost tickingClock) geminiRun
                            (FetchResolves okResponse) helloEvents))) = EmptyString
  /\ (forall m,
        fst (processStream (demoHost tickingClock) geminiRun
               (FetchResolves okResponse) helloEvents) = Resolved (Some m) ->
        Acc.reasoning_content m = EmptyString).
Proof.
  exact (reasoning_channel_unused (demoHost tickingClock) geminiRun
           (FetchResolves okResponse) helloEvents (or_introl eq_refl)).
Defined.

(* ================================================================== *)
(** * The steps of one data line *)
(* ================================================================== *)

Lemma tryData_cases (h : Host) (r : Run) (data : string) (st : State) :
  (JSON_parse h data = None
   /\ tryData h r data st = Throw (SyntaxError "JSON.parse") st)
  \/ exists parsed,
       JSON_parse h data = Some parsed
       /\ ((exists e m u,
              applyRecord h (run_format r) parsed (currentMessage st) = Throw e (m, u)
              /\ tryData h r data st = Throw e (withMessage st m))
           \/ (exists m,
                 applyRecord h (run_format r) parsed (currentMessage st) = Normal (m, false)
                 /\ tryData h r data st = Normal (withMessage st m))
           \/ (exists m,
                 applyRecord h (run_format r) parsed (currentMessage st) = Normal (m, true)
                 /\ tryData h r data st = onUpdate h r (withMessage st m))).
Proof.
  unfold tryData. destruct (JSON_parse h data) as [parsed |]; [right | now left].
  exists parsed. split; [reflexivity |].
  destruct (applyRecord h (run_format r) parsed (currentMessage st))
    as [[m [|]] | e [m u]].
  - right. right. now exists m.
  - right. left. now exists m.
  - left. now exists e, m, u.
Qed.

Lemma onUpdate_cases (h : Host) (r : Run) (st : State) :
  (guardOff r st = false /\ onUpdate h r st = Throw guardError st)
  \/ (guardOff r st = false /\ onUpdate h r st = Normal st)
  \/ onUpdate h r st = Normal (scheduleUpdate h r st).
Proof.
  unfold onUpdate, guardActive, guardOff.
  destruct (run_detect r), (didDispatchAnyUpdate st),
    (Js.truthy (Acc.reasoning_content (currentMessage st))); cbn; auto.
  destruct (existsb _ _); [auto |]. destruct (existsb _ _); auto.
Qed.

Lemma onUpdate_guardOff (h : Host) (r : Run) (st : State) :
  guardOff r st = true -> onUpdate h r st = Normal (scheduleUpdate h r st).
Proof.
  intros H. destruct (onUpdate_cases h r st) as [[E _] | [[E _] | E]];
    [congruence | congruence | exact E].
Qed.

Section LineInvariant.

Variable h : Host.
Variable r : Run.
Variable P : State -> Prop.

Hypothesis P_try :
  forall st data st', P st -> tryData h r data st = Normal st' -> P st'.
Hypothesis P_caught :
  forall st data e st',
    P st -> tryData h r data st = Throw e st' -> code e = None ->
    P (withEffect st' (ConsoleError e)).
Hypothesis P_buffer : forall st b, P st -> P (withBuffer st b).

Lemma handleLine_normal (line : string) (st st' : State) :
  P st -> handleLine h r line st = Normal st' -> P st'.
Proof.
  intros H. unfold handleLine. destruct (Js.startsWith line "data: ");
    [| now intros [= <-]].
  destruct (String.eqb _ "[DONE]"); [now intros [= <-] |].
  destruct (tryData h r (Js.sliceFrom line 6) st) as [st1 | e st1] eqn:E;
    cbn [catchData].
  - intros [= <-]. eapply P_try; eassumption.
  - destruct (tryData_throw h r _ _ _ _ E) as [-> | Hc].
    + change (code guardError) with (Some GUARD_CODE). cbv iota.
      rewrite String.eqb_refl. discriminate.
    + rewrite Hc. intros [= <-]. eapply P_caught; eassumption.
Qed.

Lemma drainBuffer_normal (fuel : nat) (st st' : State) :
  P st -> drainBuffer fuel h r st = Some (Normal st') -> P st'.
Proof.
  revert st. induction fuel as [| fuel IH]; intros st H; cbn [drainBuffer];
    destruct (Js.indexOf (buffer st) Js.LF) as [i |]; try (now intros [= <-]);
    try discriminate.
  destruct (handleLine h r _ _) as [st2 | e st2] eqn:E; [| discriminate].
  apply IH. eapply handleLine_normal; [| exact E]. now apply P_buffer.
Qed.

Lemma onChunk_normal (chunk : string) (st st' : State) :
  P st -> onChunk h r chunk st = Some (Normal st') -> P st'.
Proof.
  intros H. unfold onChunk. apply drainBuffer_normal. now apply P_buffer.
Qed.

(** While only chunks arrive and the loop goes on, the invariant holds. *)
Lemma readLoop_chunks (events : list Event) (st st' : State) :
  forallb isChunk events = true ->
  P st -> readLoop h r events st = (Waiting, st') -> P st'.
Proof.
  revert st. induction events as [| ev events IH]; intros st Hc H; cbn [readLoop].
  - now intros [= <-].
  - cbn [forallb] in Hc. apply andb_prop in Hc. destruct Hc as [Hev Hc].
    destruct ev as [[chunk | | e] |]; try discriminate.
    destruct (onChunk h r chunk st) as [[st1 | e st1] |] eqn:E; try discriminate.
    apply IH; [exact Hc |]. eapply onChunk_normal; eassumption.
Qed.

Hypothesis P_timer : forall st, P st -> P (onTimer h r st).

(** The same with timers firing in between. *)
Lemma readLoop_waiting (events : list Event) (st st' : State) :
  P st -> readLoop h r events st = (Waiting, st') -> P st'.
Proof.
  revert st. induction events as [| ev events IH]; intros st H; cbn [readLoop].
  - now intros [= <-].
  - destruct ev as [[chunk | | e] |]; try discriminate.
    + destruct (onChunk h r chunk st) as [[st1 | e st1] |] eqn:E; try discriminate.
      apply IH. eapply onChunk_normal; eassumption.
    + apply IH. now apply P_timer.
Qed.

End LineInvariant.

(* ================================================================== *)
(** * The throttle *)
(* ================================================================== *)

Lemma dispatchUpdate_last (h : Host) (r : Run) (st : State) :
  lastUpdateTime (dispatchUpdate h r st)
  = if run_sink r then Date_now h (clock st) else lastUpdateTime st.
Proof.
  unfold dispatchUpdate. destruct (run_sink r); cbn [updateTimeout];
    destruct (updateTimeout st); reflexivity.
Qed.

Lemma dispatchUpdate_flag (h : Host) (r : Run) (st : State) :
  didDispatchAnyUpdate (dispatchUpdate h r st)
  = if run_sink r then true else didDispatchAnyUpdate st.
Proof.
  unfold dispatchUpdate. destruct (run_sink r); cbn [updateTimeout];
    destruct (updateTimeout st); reflexivity.
Qed.

(** One scheduling step: at most one flush, and a flush only when more
    than the interval has passed since the last one. *)
Lemma scheduleUpdate_spaced (h : Host) (r : Run) (st : State) :
  monotoneClock h ->
  (dispatched (effects (scheduleUpdate h r st)) = dispatched (effects st)
   /\ lastUpdateTime (scheduleUpdate h r st) = lastUpdateTime st)
  \/ (dispatched (effects (scheduleUpdate h r st))
      = dispatched (effects st) ++ [currentMessage st]
      /\ (lastUpdateTime st + (UPDATE_INTERVAL + 1) <= lastUpdateTime (scheduleUpdate h r st))%Z).
Proof.
  intros Hm.
  destruct (scheduleUpdate_cases h r st) as [[_ ->] | [(_ & G & ->) | (_ & _ & ->)]].
  - now left.
  - destruct (dispatchUpdate_dispatched h r (tick st)) as [D _].
    rewrite D, dispatchUpdate_last. cbn [tick effects currentMessage clock lastUpdateTime].
    destruct (run_sink r).
    + right. split; [reflexivity |]. apply Z.gtb_lt in G.
      specialize (Hm (clock st)). lia.
    + left. now rewrite app_nil_r.
  - left. cbn. rewrite dispatched_app. cbn. now rewrite app_nil_r.
Qed.

(** X14. While records are processed, flushes are spaced: if the clock
    never goes back, then over any sequence of chunks that leaves the
    loop waiting, each flush sets [lastUpdateTime] more than the
    interval of 100 beyond its previous value; after n flushes it has
    advanced by at least 101 n. *)
Theorem flushes_are_spaced (h : Host) (r : Run) (events : list Event) (st st' : State) :
  monotoneClock h ->
  forallb isChunk events = true ->
  readLoop h r events st = (Waiting, st') ->
  exists n,
    List.length (dispatched (effects st')) = List.length (dispatched (effects st)) + n
    /\ (lastUpdateTime st + (UPDATE_INTERVAL + 1) * Z.of_nat n <= lastUpdateTime st')%Z.
Proof.
  intros Hm Hc Hl.
  set (P := fun s : State =>
              exists n,
                List.length (dispatched (effects s))
                = List.length (dispatched (effects st)) + n
                /\ (lastUpdateTime st + (UPDATE_INTERVAL + 1) * Z.of_nat n
                    <= lastUpdateTime s)%Z).
  assert (Pm : forall s m, P s -> P (withMessage s m)) by (intros s m H; exact H).
  assert (Ps : forall s, P s -> P (scheduleUpdate h r s)).
  { intros s (n & Hn & Ht).
    destruct (scheduleUpdate_spaced h r s Hm) as [[D L] | [D L]].
    - exists n. now rewrite D, L.
    - exists (S n). rewrite D, length_app. cbn [List.length]. split; [lia |].
      rewrite Nat2Z.inj_succ. lia. }
  apply (readLoop_chunks h r P) with (events := events) (st := st); try assumption.
  - intros s data s' H Ht.
    destruct (tryData_cases h r data s)
      as [[_ E] | (parsed & _ & [(e & m & u & _ & E) | [(m & _ & E) | (m & _ & E)]])];
      rewrite E in Ht; try discriminate.
    + injection Ht as <-. now apply Pm.
    + destruct (onUpdate_cases h r (withMessage s m)) as [[_ E'] | [[_ E'] | E']];
        rewrite E' in Ht; try discriminate; injection Ht as <-; auto.
  - intros s data e s' H Ht _.
    assert (Hs : P s').
    { destruct (tryData_cases h r data s)
        as [[_ E] | (parsed & _ & [(e' & m & u & _ & E) | [(m & _ & E) | (m & _ & E)]])];
        rewrite E in Ht; try discriminate.
      - now injection Ht as _ <-.
      - injection Ht as _ <-. now apply Pm.
      - destruct (onUpdate_cases h r (withMessage s m)) as [[_ E'] | [[_ E'] | E']];
          rewrite E' in Ht; try discriminate. injection Ht as _ <-. now apply Pm. }
    destruct Hs as (n & Hn & Hl'). exists n. cbn. rewrite dispatched_app. cbn.
    now rewrite app_nil_r.
  - intros s b H. exact H.
  - exists 0. split; [lia |]. cbn. lia.
Qed.

Lemma slowClock_monotone : monotoneClock (demoHost slowClock).
Proof.
  intros k. change (slowClock k <= slowClock (S k))%Z. unfold slowClock. lia.
Qed.

Lemma flushes_are_spaced_witness :
  exists n,
    List.length (dispatched (effects (snd (readLoop (demoHost slowClock) plainRun
                                             twoChunks startState))))
    = List.length (dispatched (effects startState)) + n
    /\ (lastUpdateTime startState + (UPDATE_INTERVAL + 1) * Z.of_nat n
        <= lastUpdateTime (snd (readLoop (demoHost slowClock) plainRun
                                  twoChunks startState)))%Z.
Proof.
  apply (flushes_are_spaced (demoHost slowClock) plainRun twoChunks startState
           (snd (readLoop (demoHost slowClock) plainRun twoChunks startState))).
  - exact slowClock_monotone.
  - reflexivity.
  - vm_compute. reflexivity.
Defined.

(** With the slow clock both records are flushed at once. *)
Example spaced_run :
  dispatched (effects (snd (readLoop (demoHost slowClock) plainRun twoChunks startState)))
  = [accOf "He"; accOf "Hello"].
Proof. vm_compute. reflexivity. Qed.

(* ================================================================== *)
(** * Once off, the guard stays off *)
(* ================================================================== *)

Lemma truthy_grows (a x : string) :
  Js.truthy a = true -> Js.truthy (a ++ x)%string = true.
Proof. now destruct a. Qed.

Lemma guardOff_message (h : Host) (r : Run) (st : State) (m : Acc.Msg) :
  decodes h (run_format r) (currentMessage st) m ->
  guardOff r st = true -> guardOff r (withMessage st m) = true.
Proof.
  intros D. apply decodes_grows in D. destruct D as [_ [y Hy]].
  unfold guardOff. cbn [withMessage didDispatchAnyUpdate currentMessage].
  destruct (negb (run_detect r)), (didDispatchAnyUpdate st); cbn; auto.
  intros H. rewrite Hy. now apply truthy_grows.
Qed.

Lemma guardOff_schedule (h : Host) (r : Run) (st : State) :
  guardOff r st = true -> guardOff r (scheduleUpdate h r st) = true.
Proof.
  intros H.
  destruct (scheduleUpdate_cases h r st) as [[_ ->] | [(_ & _ & ->) | (_ & _ & ->)]];
    try exact H.
  unfold guardOff in *. rewrite dispatchUpdate_flag, dispatchUpdate_message.
  cbn [tick didDispatchAnyUpdate currentMessage].
  destruct (run_sink r); [| exact H]. now rewrite orb_true_r.
Qed.

Lemma guardOff_timer (h : Host) (r : Run) (st : State) :
  guardOff r st = true -> guardOff r (onTimer h r st) = true.
Proof.
  intros H. unfold onTimer. destruct (updateTimeout st); [| exact H].
  unfold guardOff in *. rewrite dispatchUpdate_flag, dispatchUpdate_message.
  destruct (run_sink r); [| exact H]. now rewrite orb_true_r.
Qed.

(** With the guard off, the [try] body raises nothing with the guard's
    code, and the guard is still off afterwards. *)
Lemma tryData_guardOff (h : Host) (r : Run) (data : string) (st : State) :
  guardOff r st = true ->
  match tryData h r data st with
  | Normal st' => guardOff r st' = true
  | Throw e st' => code e = None /\ guardOff r st' = true
  end.
Proof.
  intros H.
  destruct (tryData_cases h r data st)
    as [[_ E] | (parsed & _ & [(e & m & u & A & E) | [(m & A & E) | (m & A & E)]])];
    rewrite E.
  - split; [reflexivity | exact H].
  - split; [eapply applyRecord_throw; exact A |].
    apply (guardOff_message h); [| exact H]. exists parsed. now rewrite A.
  - apply (guardOff_message h); [| exact H]. exists parsed. now rewrite A.
  - assert (Hm : guardOff r (withMessage st m) = true).
    { apply (guardOff_message h); [| exact H]. exists parsed. now rewrite A. }
    rewrite (onUpdate_guardOff h r _ Hm). now apply guardOff_schedule.
Qed.

Lemma handleLine_guardOff (h : Host) (r : Run) (line : string) (st : State) :
  guardOff r st = true ->
  exists st', handleLine h r line st = Normal st' /\ guardOff r st' = true.
Proof.
  intros H. unfold handleLine. destruct (Js.startsWith line "data: "); [| eauto].
  destruct (String.eqb _ "[DONE]"); [eauto |].
  pose proof (tryData_guardOff h r (Js.sliceFrom line 6) st H) as Ht.
  destruct (tryData h r (Js.sliceFrom line 6) st) as [st' | e st']; cbn [catchData];
    [eauto |].
  destruct Ht as [Hc Hg]. rewrite Hc. eexists. split; [reflexivity | exact Hg].
Qed.

Lemma drainBuffer_guardOff (h : Host) (r : Run) (fuel : nat) (st : State) :
  guardOff r st = true ->
  match drainBuffer fuel h r st with
  | Some (Normal st') => guardOff r st' = true
  | Some (Throw _ _) => False
  | None => True
  end.
Proof.
  revert st. induction fuel as [| fuel IH]; intros st H; cbn [drainBuffer];
    destruct (Js.indexOf (buffer st) Js.LF) as [i |]; try exact H; [exact I |].
  destruct (handleLine_guardOff h r (Js.slice (buffer st) 0 i)
              (withBuffer st (Js.sliceFrom (buffer st) (i + 1))) H) as (st2 & -> & H2).
  now apply IH.
Qed.

(** X15. Once the guard is out of play (it is not enabled, or an update
    has been dispatched, or reasoning content has arrived) it stays out
    of play for the rest of the stream: the read loop can then only end
    with an exception when a read rejects, and with that exception. *)
Theorem guard_off_is_permanent (h : Host) (r : Run) (events : list Event) (st : State) :
  guardOff r st = true ->
  guardOff r (snd (readLoop h r events st)) = true
  /\ (forall e st',
        readLoop h r events st = (Threw e, st') ->
        exists pre post, events = pre ++ Read (ReadRejects e) :: post).
Proof.
  revert st. induction events as [| ev events IH]; intros st H; cbn [readLoop].
  - split; [exact H | discriminate].
  - destruct ev as [[chunk | | e] |].
    + unfold onChunk.
      pose proof (drainBuffer_guardOff h r
                    (String.length (buffer (withBuffer st (buffer st ++ chunk))))
                    (withBuffer st (buffer st ++ chunk)) H) as Hd.
      destruct (drainBuffer _ h r _) as [[st1 | e st1] |]; [| now destruct Hd |].
      * destruct (IH st1 Hd) as [H1 H2]. split; [exact H1 |].
        intros e st' Hl. destruct (H2 e st' Hl) as (pre & post & ->).
        now exists (Read (Chunk chunk) :: pre), post.
      * split; [exact H | discriminate].
    + split; [| discriminate]. cbn [snd].
      destruct (onDone_cases h r st) as [-> | ->]; [exact H |].
      unfold guardOff in *. rewrite dispatchUpdate_flag, dispatchUpdate_message.
      cbn [tick didDispatchAnyUpdate currentMessage].
      destruct (run_sink r); [| exact H]. now rewrite orb_true_r.
    + split; [exact H |]. intros e' st' [= <- <-]. now exists [], events.
    + destruct (IH _ (guardOff_timer h r st H)) as [H1 H2]. split; [exact H1 |].
      intros e st' Hl. destruct (H2 e st' Hl) as (pre & post & ->).
      now exists (TimerFires :: pre), post.
Qed.

Lemma guard_off_is_permanent_witness :
  guardOff plainRun (snd (readLoop (demoHost tickingClock) plainRun helloEvents startState))
  = true
  /\ (forall e st',
        readLoop (demoHost tickingClock) plainRun helloEvents startState = (Threw e, st') ->
        exists pre post, helloEvents = pre ++ Read (ReadRejects e) :: post).
Proof.
  exact (guard_off_is_permanent (demoHost tickingClock) plainRun helloEvents startState
           eq_refl).
Defined.

(* ================================================================== *)
(** * No update is lost *)
(* ================================================================== *)

Lemma withMessage_same (st : State) : withMessage st (currentMessage st) = st.
Proof. now destruct st. Qed.

Lemma decode_unchanged (h : Host) (fmt : string) (parsed : json) (m : Acc.Msg) :
  fmt <> "gemini" ->
  match applyRecord h fmt parsed m with
  | Normal (m', false) => m' = m
  | Normal (_, true) => True
  | Throw _ (m', _) => m' = m
  end.
Proof.
  intros Hf. unfold applyRecord.
  destruct (String.eqb fmt "gemini") eqn:E; [apply String.eqb_eq in E; contradiction |].
  destruct (String.eqb fmt "claude").
  - unfold applyClaude. destruct (getProp parsed "type") as [e | ty]; [reflexivity |].
    destruct ty as [[| | | s | |] |]; try reflexivity.
    destruct (String.eqb s _ && truthyVal h _); [exact I | reflexivity].
  - unfold applyOpenai. destruct (getProp parsed "choices") as [e | c]; [reflexivity |].
    destruct (truthyVal h (optProp _ "content"));
      destruct (truthyVal h (optProp _ "reasoning_content")); try exact I; reflexivity.
Qed.

Lemma flushed_effect (st : State) (e : Effect) :
  dispatched [e] = [] -> flushed st -> flushed (withEffect st e).
Proof.
  intros He [before Hb]. exists before. cbn. rewrite dispatched_app, He, Hb.
  now rewrite app_nil_r.
Qed.

Lemma covered_effect (st : State) (e : Effect) :
  dispatched [e] = [] -> (forall d, e <> SetTimeout d) -> e <> ClearTimeout ->
  covered st -> covered (withEffect st e).
Proof.
  intros He _ _ [[F | [T | L]] J]; (split; [| exact J]).
  - left. now apply flushed_effect.
  - right. now left.
  - right. now right.
Qed.

Lemma covered_schedule (h : Host) (r : Run) (st : State) :
  run_sink r = true ->
  (didDispatchAnyUpdate st = false -> lastUpdateTime st = 0%Z) ->
  covered (scheduleUpdate h r st).
Proof.
  intros Hs J.
  destruct (scheduleUpdate_cases h r st) as [[T ->] | [(_ & _ & ->) | (_ & _ & ->)]].
  - split; [now right; left | exact J].
  - destruct (dispatchUpdate_dispatched h r (tick st)) as [D _]. split.
    + left. exists (dispatched (effects st)).
      now rewrite D, Hs, dispatchUpdate_message.
    + rewrite dispatchUpdate_flag, Hs. discriminate.
  - split; [right; left; discriminate | exact J].
Qed.

Lemma covered_timer (h : Host) (r : Run) (st : State) :
  run_sink r = true -> covered st -> covered (onTimer h r st).
Proof.
  intros Hs C. unfold onTimer. destruct (updateTimeout st); [| exact C].
  destruct (dispatchUpdate_dispatched h r st) as [D _]. split.
  - left. exists (dispatched (effects st)). now rewrite D, Hs, dispatchUpdate_message.
  - rewrite dispatchUpdate_flag, Hs. discriminate.
Qed.

Lemma guardOff_false_flag (r : Run) (st : State) :
  guardOff r st = false -> didDispatchAnyUpdate st = false.
Proof.
  unfold guardOff. destruct (didDispatchAnyUpdate st); [| reflexivity].
  now rewrite orb_true_r.
Qed.

Lemma readLoop_covered (h : Host) (r : Run) (events : list Event) (st st' : State) :
  run_sink r = true ->
  run_format r <> "gemini" ->
  covered st ->
  readLoop h r events st = (Waiting, st') ->
  covered st'.
Proof.
  intros Hs Hf.
  apply (readLoop_waiting h r covered).
  - intros s data s' C Ht.
    destruct (tryData_cases h r data s)
      as [[_ E] | (parsed & _ & [(e & m & u & A & E) | [(m & A & E) | (m & A & E)]])];
      rewrite E in Ht; try discriminate.
    + injection Ht as <-. pose proof (decode_unchanged h _ parsed (currentMessage s) Hf) as U.
      rewrite A in U. subst m. now rewrite withMessage_same.
    + assert (J : didDispatchAnyUpdate (withMessage s m) = false ->
                  lastUpdateTime (withMessage s m) = 0%Z) by exact (proj2 C).
      destruct (onUpdate_cases h r (withMessage s m)) as [[_ E'] | [[G E'] | E']];
        rewrite E' in Ht; try discriminate; injection Ht as <-.
      * split; [| exact J]. right. right. apply J. now apply (guardOff_false_flag r).
      * now apply covered_schedule.
  - intros s data e s' C Ht Hc.
    assert (Hs' : s' = s).
    { destruct (tryData_cases h r data s)
        as [[_ E] | (parsed & _ & [(e' & m & u & A & E) | [(m & A & E) | (m & A & E)]])];
        rewrite E in Ht; try discriminate.
      - now injection Ht as _ <-.
      - injection Ht as _ <-.
        pose proof (decode_unchanged h _ parsed (currentMessage s) Hf) as U.
        rewrite A in U. subst m. apply withMessage_same.
      - destruct (onUpdate_cases h r (withMessage s m)) as [[_ E'] | [[_ E'] | E']];
          rewrite E' in Ht; try discriminate.
        injection Ht as He _. subst e. discriminate Hc. }
    subst s'. apply covered_effect; try assumption; try discriminate. reflexivity.
  - intros s b C. exact C.
  - intros s C. now apply covered_timer.
Qed.

(** X16. No update is lost.  In a run of the OpenAI or Claude format
    with a store and a clock that reads above zero, when [processStream]
    resolves with the accumulator, either the last snapshot handed to
    the store is that accumulator, or a timer is still pending whose
    firing hands it over. *)
Theorem update_never_lost (h : Host) (r : Run) (f : FetchResult) (events : list Event)
  (m : Acc.Msg) (stF : State) :
  run_sink r = true ->
  run_format r <> "gemini" ->
  (forall k, (0 < Date_now h k)%Z) ->
  processStream h r f events = (Resolved (Some m), stF) ->
  currentMessage stF = m
  /\ (flushed stF
      \/ (updateTimeout stF <> None
          /\ dispatched (effects (onTimer h r stF)) = dispatched (effects stF) ++ [m])).
Proof.
  intros Hs Hf Hpos Hp.
  destruct (processStream_resolved h r f events m stF Hp) as (st' & Hl & ->).
  destruct (readLoop_returned h r events startState m st' Hl)
    as (pre & post & st & _ & Hpre & -> & ->).
  assert (C0 : covered startState) by (split; [right; right |]; reflexivity).
  pose proof (readLoop_covered h r pre startState st Hs Hf C0 Hpre) as C.
  cbn [currentMessage withEffect]. rewrite onDone_message. split; [reflexivity |].
  unfold onDone. destruct (Z.gtb (Date_now h (clock st) - lastUpdateTime st) 0) eqn:G.
  - left. apply flushed_effect; [reflexivity |].
    destruct (dispatchUpdate_dispatched h r (tick st)) as [D _].
    exists (dispatched (effects st)). fold (tick st).
    now rewrite D, Hs, dispatchUpdate_message.
  - fold (tick st). destruct C as [[F | [T | L]] J].
    + left. apply flushed_effect; [reflexivity |]. exact F.
    + right. split; [exact T |]. unfold onTimer.
      cbn [updateTimeout withEffect tick].
      destruct (updateTimeout st) as [d |] eqn:E; [| now destruct T].
      destruct (dispatchUpdate_dispatched h r (withEffect (tick st) ReaderCancel)) as [D _].
      now rewrite D, Hs.
    + exfalso. specialize (Hpos (clock st)).
      destruct (Z.gtb_spec (Date_now h (clock st) - lastUpdateTime st) 0);
        [discriminate | lia].
Qed.

Lemma update_never_lost_witness :
  currentMessage (snd (processStream (demoHost frozenClock) plainRun
                         (FetchResolves okResponse) burstEvents)) = accOf "ab"
  /\ (flushed (snd (processStream (demoHost frozenClock) plainRun
                      (FetchResolves okResponse) burstEvents))
      \/ (updateTimeout (snd (processStream (demoHost frozenClock) plainRun
                                (FetchResolves okResponse) burstEvents)) <> None
          /\ dispatched (effects (onTimer (demoHost frozenClock) plainRun
                                    (snd (processStream (demoHost frozenClock) plainRun
                                            (FetchResolves okResponse) burstEvents))))
             = dispatched (effects (snd (processStream (demoHost frozenClock) plainRun
                                           (FetchResolves okResponse) burstEvents)))
               ++ [accOf "ab"])).
Proof.
  apply (update_never_lost (demoHost frozenClock) plainRun (FetchResolves okResponse)
           burstEvents (accOf "ab")
           (snd (processStream (demoHost frozenClock) plainRun
                   (FetchResolves okResponse) burstEvents))).
  - reflexivity.
  - discriminate.
  - intros k. reflexivity.
  - vm_compute. reflexivity.
Defined.

(* ================================================================== *)
(** * Chunk boundaries *)
(* ================================================================== *)

Local Open Scope string_scope.


















Local Open Scope list_scope.



(** The record of the example, read in two pieces, gives its text. *)
Example two_reads_one_record :
  fst (readLoop (demoHost tickingClock) plainRun
         (readValue decodeAscii
            (list_byte_of_string (Js.slice (dataLine (openaiContentText "Hi")) 0 20))
          :: readValue decodeAscii
               (list_byte_of_string (Js.sliceFrom (dataLine (openaiContentText "Hi")) 20))
          :: [Read EndOfStream]) startState)
  = Returned (accOf "Hi").
Proof. vm_compute. reflexivity. Qed.

(* ================================================================== *)
(** * How [processStream] settles when it does not return the message *)
(* ================================================================== *)

Lemma guardOff_undetected (r : Run) (st : State) :
  run_detect r = false -> guardOff r st = true.
Proof. intros H. unfold guardOff. now rewrite H. Qed.

(** The read loop throws the guard's error, and then the guard is
    enabled, or what a read rejected with. *)
Lemma readLoop_threw (h : Host) (r : Run) (events : list Event) (st : State)
  (e : JsError) (st' : State) :
  readLoop h r events st = (Threw e, st') ->
  (e = guardError /\ run_detect r = true)
  \/ exists pre post, events = pre ++ Read (ReadRejects e) :: post.
Proof.
  revert st. induction events as [| ev events IH]; intros st; cbn [readLoop];
    [discriminate |].
  destruct ev as [[chunk | | e0] |].
  - destruct (onChunk h r chunk st) as [[st1 | e1 st1] |] eqn:E; [| | discriminate].
    + intros Hl. destruct (IH st1 Hl) as [G | (pre & post & ->)]; [now left | right].
      now exists (Read (Chunk chunk) :: pre), post.
    + intros [= <- <-]. left. split; [exact (drainBuffer_throw h r _ _ _ _ E) |].
      destruct (run_detect r) eqn:D; [reflexivity |].
      pose proof (drainBuffer_guardOff h r
                    (String.length (buffer (withBuffer st (buffer st ++ chunk))))
                    (withBuffer st (buffer st ++ chunk))
                    (guardOff_undetected r _ D)) as Hd.
      unfold onChunk in E. rewrite E in Hd. destruct Hd.
  - discriminate.
  - intros [= <- <-]. right. now exists [], events.
  - intros Hl. destruct (IH _ Hl) as [G | (pre & post & ->)]; [now left | right].
    now exists (TimerFires :: pre), post.
Qed.

Lemma outerCatch_rejected (e e' : JsError) :
  outerCatch e = Rejected e' -> e' = e /\ name e <> "AbortError"%string.
Proof.
  unfold outerCatch. destruct (String.eqb (name e) "AbortError") eqn:E; [discriminate |].
  intros [= <-]. split; [reflexivity |]. now apply String.eqb_neq.
Qed.

Lemma outerCatch_undefined (e : JsError) :
  outerCatch e = Resolved None -> name e = "AbortError"%string.
Proof.
  unfold outerCatch. destruct (String.eqb (name e) "AbortError") eqn:E; [| discriminate].
  intros _. now apply String.eqb_eq.
Qed.

(** X18. What [processStream] can reject with, and when it resolves
    with [undefined].  A rejection is never an abort error; it is the
    error [fetch] rejected with, or the error made from the body or the
    status of a response that is not [ok], or the error of the
    unreadable response, or the guard's error (and then the guard is
    enabled), or what a read rejected with: never the error of a record
    that could not be parsed or decoded.  It resolves with [undefined]
    only when [fetch] or a read rejected with an abort error. *)
Theorem rejections_classified (h : Host) (r : Run) (f : FetchResult) (events : list Event) :
  (forall e,
     fst (processStream h r f events) = Rejected e ->
     name e <> "AbortError"%string
     /\ (f = FetchRejects e
         \/ exists resp,
              f = FetchResolves resp
              /\ ((ok resp = false /\ e = newError (httpErrorMessage resp))
                  \/ (ok resp = true /\ hasReader resp = false
                      /\ e = newError (t h "error_response_unreadable"))
                  \/ (ok resp = true /\ hasReader resp = true
                      /\ ((e = guardError /\ run_detect r = true)
                          \/ exists pre post,
                               events = pre ++ Read (ReadRejects e) :: post)))))
  /\ (fst (processStream h r f events) = Resolved None ->
      exists e,
        name e = "AbortError"%string
        /\ (f = FetchRejects e
            \/ exists resp pre post,
                 f = FetchResolves resp /\ ok resp = true /\ hasReader resp = true
                 /\ events = pre ++ Read (ReadRejects e) :: post)).
Proof.
  unfold processStream. split.
  - intros e. destruct f as [e0 | resp]; cbn [fst].
    + intros H. apply outerCatch_rejected in H. destruct H as [-> H]. now split; [| left].
    + destruct (ok resp) eqn:Ok; cbn [negb].
      * destruct (hasReader resp) eqn:Hr; cbn [negb].
        -- destruct (readLoop h r events (withEffect initialState Fetch))
             as [[m | e1 | |] st'] eqn:L; cbn [fst]; try discriminate.
           intros H. apply outerCatch_rejected in H. destruct H as [-> H].
           split; [exact H |]. right. exists resp. split; [reflexivity |].
           right. right. split; [exact Ok |]. split; [exact Hr |].
           exact (readLoop_threw h r events _ e1 st' L).
        -- cbn [fst]. intros H. apply outerCatch_rejected in H. destruct H as [-> H].
           split; [exact H |]. right. exists resp. split; [reflexivity |].
           right. left. auto.
      * cbn [fst]. intros H. apply outerCatch_rejected in H. destruct H as [-> H].
        split; [exact H |]. right. exists resp. split; [reflexivity |]. left. auto.
  - destruct f as [e0 | resp]; cbn [fst].
    + intros H. apply outerCatch_undefined in H. exists e0. auto.
    + destruct (ok resp) eqn:Ok; cbn [negb].
      * destruct (hasReader resp) eqn:Hr; cbn [negb].
        -- destruct (readLoop h r events (withEffect initialState Fetch))
             as [[m | e1 | |] st'] eqn:L; cbn [fst]; try discriminate.
           intros H. apply outerCatch_undefined in H. exists e1. split; [exact H |].
           right. destruct (readLoop_threw h r events _ e1 st' L)
             as [[-> _] | (pre & post & ->)]; [discriminate H |].
           exists resp, pre, post. auto.
        -- cbn [fst]. intros H. apply outerCatch_undefined in H. discriminate H.
      * cbn [fst]. intros H. apply outerCatch_undefined in H. discriminate H.
Qed.

(* ================================================================== *)
(** * The parts of a Gemini record *)
(* ================================================================== *)

Local Open Scope string_scope.

Lemma appendText_nil (m : Acc.Msg) : appendText m EmptyString = m.
Proof. destruct m as [c rc]. unfold appendText. cbn. now rewrite append_nil_r. Qed.

Lemma appendText_append (m : Acc.Msg) (x y : string) :
  appendText (appendText m x) y = appendText m (x ++ y).
Proof. unfold appendText. cbn. now rewrite append_assoc. Qed.

Lemma geminiLoop_textParts (h : Host) (texts : list string) (tail : list json)
  (m : Acc.Msg) (u : bool) :
  forallb Js.truthy texts = true ->
  geminiLoop h (map textPart texts ++ tail)%list (m, u)
  = geminiLoop h tail (appendText m (concatAll texts), u || anyText texts).
Proof.
  revert m u. induction texts as [| x texts IH]; intros m u H.
  - cbn [map List.app concatAll anyText]. now rewrite appendText_nil, orb_false_r.
  - cbn [forallb] in H. apply andb_prop in H. destruct H as [Hx H].
    cbn [map List.app geminiLoop].
    change (getProp (textPart x) "text") with (@inr JsError jsval (Some (JStr x))).
    cbn [truthyVal]. rewrite Hx. cbn [fst appendVal].
    fold (appendText m x). rewrite (IH _ true H), appendText_append.
    cbn [concatAll anyText]. now rewrite orb_true_r.
Qed.

Lemma applyGemini_record (h : Host) (parts : list json) (m : Acc.Msg) :
  applyGemini h (geminiRecord parts) m = geminiLoop h parts (m, false).
Proof. reflexivity. Qed.

Local Open Scope list_scope.

(** X19. The text parts of a Gemini record are appended to the content
    in their order, and [hasUpdate] is set when there is one.  A [null]
    part ends the record there: the texts before it stay in the
    accumulator, the parts after it are not read, and the [catch] only
    logs the error, so that no update is dispatched or scheduled for
    what was appended. *)
Theorem gemini_parts_in_order (h : Host) (r : Run) (texts : list string)
  (rest : list json) (data : string) (st : State) :
  forallb Js.truthy texts = true ->
  run_format r = "gemini"%string ->
  JSON_parse h data = Some (geminiRecord (map textPart texts ++ JNull :: rest)) ->
  applyGemini h (geminiRecord (map textPart texts)) (currentMessage st)
  = Normal (appendText (currentMessage st) (concatAll texts), anyText texts)
  /\ applyGemini h (geminiRecord (map textPart texts ++ JNull :: rest)) (currentMessage st)
     = Throw nullPartError (appendText (currentMessage st) (concatAll texts), anyText texts)
  /\ catchData (tryData h r data st)
     = Normal (withEffect
                 (withMessage st (appendText (currentMessage st) (concatAll texts)))
                 (ConsoleError nullPartError)).
Proof.
  intros Ht Hf Hp.
  assert (A : applyGemini h (geminiRecord (map textPart texts ++ JNull :: rest))
                (currentMessage st)
              = Throw nullPartError
                  (appendText (currentMessage st) (concatAll texts), anyText texts)).
  { rewrite applyGemini_record, (geminiLoop_textParts h texts _ _ false Ht). reflexivity. }
  split; [| split; [exact A |]].
  - rewrite applyGemini_record.
    rewrite <- (app_nil_r (map textPart texts)).
    rewrite (geminiLoop_textParts h texts [] _ false Ht). reflexivity.
  - unfold tryData, applyRecord. rewrite Hp, Hf.
    change (String.eqb "gemini" "gemini") with true. cbv iota.
    rewrite A. reflexivity.
Qed.

Lemma gemini_parts_in_order_witness :
  applyGemini (demoHost tickingClock)
    (geminiRecord (map textPart ["Hel"%string; "lo"%string])) (currentMessage startState)
  = Normal (appendText (currentMessage startState)
              (concatAll ["Hel"%string; "lo"%string]),
            anyText ["Hel"%string; "lo"%string])
  /\ applyGemini (demoHost tickingClock)
       (geminiRecord (map textPart ["Hel"%string; "lo"%string] ++ JNull :: []))
       (currentMessage startState)
     = Throw nullPartError
         (appendText (currentMessage startState) (concatAll ["Hel"%string; "lo"%string]),
          anyText ["Hel"%string; "lo"%string])
  /\ catchData (tryData (demoHost tickingClock) geminiRun geminiNullPartText startState)
     = Normal (withEffect
                 (withMessage startState
                    (appendText (currentMessage startState)
                       (concatAll ["Hel"%string; "lo"%string])))
                 (ConsoleError nullPartError)).
Proof.
  apply (gemini_parts_in_order (demoHost tickingClock) geminiRun
           ["Hel"%string; "lo"%string] [] geminiNullPartText startState).
  - reflexivity.
  - reflexivity.
  - vm_compute. reflexivity.
Defined.
